(** * Gemini-RAG: the chunker and the retriever of [services/vectorUtils.ts]

    A shallow embedding of [chunkText], [cosineSimilarity] and
    [findRelevantChunks], together with the JavaScript string, regular
    expression, array and number operations they are written with.

    - A JavaScript string is a sequence of UTF-16 code units: [list N].
    - A JavaScript number is an IEEE 754 binary64 value: [spec_float] at
      precision 53 and maximal exponent 1024 (the Standard Library's
      executable specification of floating-point arithmetic).  Sizes and
      lengths, which the code only ever uses as integers, are [Z].
    - [throw] is the left injection of a sum type.
    - [Date.now()] reads an explicit clock.
    - A loop that the source does not bound ([while] in the hard split, the
      loops inside [match], [replace] and [split]) runs on fuel; lemmas
      show that the fuel given is enough.

    After them come the callers of the two: the services of
    [services/geminiService.ts], the handlers of [App.tsx] and
    [processFile] of [components/KnowledgeManager.tsx], as programs over
    an explicit world (module [App]). *)

From Stdlib Require Import List Bool Arith ZArith NArith Lia String Ascii.
From Stdlib Require Import Permutation Sorted.
From Stdlib Require Import SpecFloat DecimalString DecimalZ.
Import ListNotations.

Set Implicit Arguments.
Local Open Scope Z_scope.

(* ================================================================== *)
(** * JavaScript strings *)

Module JsString.

(** One UTF-16 code unit. *)
Definition char := N.

Definition jsstring := list char.

(** A string literal of the source, one code unit per character. *)
Definition js (s : string) : jsstring :=
  List.map N_of_ascii (list_ascii_of_string s).

(** [s.length], of a string and of an array alike. *)
Definition len {A : Type} (s : list A) : Z := Z.of_nat (List.length s).

(** The characters that [\s] matches and that [trim] strips: ECMAScript's
    WhiteSpace and LineTerminator code points. *)
Definition is_space (c : char) : bool :=
  ((9 <=? c) && (c <=? 13) || (c =? 32) || (c =? 160) || (c =? 5760)
   || (8192 <=? c) && (c <=? 8202) || (c =? 8232) || (c =? 8233)
   || (c =? 8239) || (c =? 8287) || (c =? 12288) || (c =? 65279))%N.

(** The class [[.!?]]. *)
Definition is_punct (c : char) : bool :=
  ((c =? 46) || (c =? 33) || (c =? 63))%N.

(** The class [[^.!?]]. *)
Definition not_punct (c : char) : bool := negb (is_punct c).

Definition is_cr (c : char) : bool := (c =? 13)%N.
Definition is_lf (c : char) : bool := (c =? 10)%N.

Fixpoint trimStart (s : jsstring) : jsstring :=
  match s with
  | c :: s' => if is_space c then trimStart s' else s
  | [] => []
  end.

Definition trimEnd (s : jsstring) : jsstring := rev (trimStart (rev s)).

(** [s.trim()] *)
Definition trim (s : jsstring) : jsstring := trimEnd (trimStart s).

(** The relative index of [slice]: negative counts from the end, and the
    result is clamped to [0 .. s.length]. *)
Definition clamp_index (n i : Z) : Z :=
  if i <? 0 then Z.max (n + i) 0 else Z.min i n.

(** [s.slice(start, end)], of a string and of an array alike. *)
Definition slice {A : Type} (s : list A) (start stop : Z) : list A :=
  let from := clamp_index (len s) start in
  let to := clamp_index (len s) stop in
  firstn (Z.to_nat (Z.max (to - from) 0)) (skipn (Z.to_nat from) s).

(** [units.join(sep)] *)
Fixpoint join (sep : jsstring) (l : list jsstring) : jsstring :=
  match l with
  | [] => []
  | [u] => u
  | u :: l' => u ++ sep ++ join sep l'
  end.

(** Decimal rendering of an integer, as a template literal renders an
    integral number below 10^21. *)
Definition decimal (z : Z) : jsstring :=
  js (NilZero.string_of_int (Z.to_int z)).

End JsString.
Import JsString.

(* ================================================================== *)
(** * Regular expressions

    A backtracking matcher for the fragment of ECMAScript regular
    expressions the source uses: character classes, sequence, ordered
    alternation, greedy [*] and [+] over a class, and [$] (without the
    [m] flag).  As in the ECMAScript specification a matcher takes the
    input that is left and a continuation; a failing continuation makes the
    matcher backtrack. *)

Module Regex.

Inductive regex : Type :=
| Class (p : char -> bool)
| Seq (r1 r2 : regex)
| Alt (r1 r2 : regex)
| Star (p : char -> bool)
| Plus (p : char -> bool)
| EndOfInput.

Definition cont := jsstring -> option jsstring.

(** Greedy repetition of a class: the longest run first, then shorter
    ones while the continuation fails. *)
Fixpoint star (p : char -> bool) (s : jsstring) (k : cont) : option jsstring :=
  match s with
  | c :: s' =>
      if p c then
        match star p s' k with
        | Some r => Some r
        | None => k s
        end
      else k s
  | [] => k []
  end.

Fixpoint run (r : regex) (s : jsstring) (k : cont) : option jsstring :=
  match r with
  | Class p =>
      match s with
      | c :: s' => if p c then k s' else None
      | [] => None
      end
  | Seq r1 r2 => run r1 s (fun s' => run r2 s' k)
  | Alt r1 r2 =>
      match run r1 s k with
      | Some x => Some x
      | None => run r2 s k
      end
  | Star p => star p s k
  | Plus p =>
      match s with
      | c :: s' => if p c then star p s' k else None
      | [] => None
      end
  | EndOfInput =>
      match s with
      | [] => k []
      | _ :: _ => None
      end
  end.

(** A match that starts exactly at the head of [s]: what is left of the
    input after it. *)
Definition exec_at (r : regex) (s : jsstring) : option jsstring :=
  run r s (fun rest => Some rest).

(** The text a match consumed, given what it left. *)
Definition consumed (s rest : jsstring) : jsstring :=
  firstn (List.length s - List.length rest) s.

(** The leftmost match in [s]: the text before it, the match, the rest. *)
Fixpoint search (r : regex) (s : jsstring)
  : option (jsstring * jsstring * jsstring) :=
  match exec_at r s with
  | Some rest => Some ([], consumed s rest, rest)
  | None =>
      match s with
      | [] => None
      | c :: s' =>
          match search r s' with
          | Some (before, m, rest) => Some (c :: before, m, rest)
          | None => None
          end
      end
  end.

(** Where the next search starts after a match [m] that left [rest]:
    after an empty match [lastIndex] advances by one code unit, and
    [None] says it went past the end of the input. *)
Definition advance (m rest : jsstring) : option (jsstring * jsstring) :=
  match m with
  | _ :: _ => Some ([], rest)
  | [] =>
      match rest with
      | c :: rest' => Some ([c], rest')
      | [] => None
      end
  end.

Fixpoint match_loop (fuel : nat) (r : regex) (s : jsstring) : list jsstring :=
  match fuel with
  | O => []
  | S fuel' =>
      match search r s with
      | None => []
      | Some (_, m, rest) =>
          m :: match advance m rest with
               | Some (_, rest') => match_loop fuel' r rest'
               | None => []
               end
      end
  end.

(** [s.match(r)] for a regular expression with the [g] flag: every match
    from left to right, or [null] when there is none. *)
Definition match_g (r : regex) (s : jsstring) : option (list jsstring) :=
  match match_loop (S (List.length s)) r s with
  | [] => None
  | l => Some l
  end.

Fixpoint replace_loop (fuel : nat) (r : regex) (rep s : jsstring) : jsstring :=
  match fuel with
  | O => s
  | S fuel' =>
      match search r s with
      | None => s
      | Some (before, m, rest) =>
          before ++ rep ++
            match advance m rest with
            | Some (skipped, rest') => skipped ++ replace_loop fuel' r rep rest'
            | None => []
            end
      end
  end.

(** [s.replace(r, rep)] for a regular expression with the [g] flag and a
    replacement text without [$] patterns. *)
Definition replace_g (r : regex) (rep s : jsstring) : jsstring :=
  replace_loop (S (List.length s)) r rep s.

(** The loop of [RegExp.prototype[Symbol.split]]: [piece] is the text
    between the end of the last separator (position p) and the position q
    being tried, [s] is the input from q on. *)
Fixpoint split_loop (fuel : nat) (r : regex) (piece s : jsstring)
  : list jsstring :=
  match fuel with
  | O => [piece ++ s]
  | S fuel' =>
      match s with
      | [] => [piece]
      | c :: s' =>
          match exec_at r s with
          | None => split_loop fuel' r (piece ++ [c]) s'
          | Some rest =>
              match piece, consumed s rest with
              | [], [] => split_loop fuel' r [c] s'
              | _, _ => piece :: split_loop fuel' r [] rest
              end
          end
      end
  end.

(** [s.split(r)] without a limit, for a regular expression without
    capture groups. *)
Definition split (r : regex) (s : jsstring) : list jsstring :=
  match s with
  | [] => match exec_at r [] with Some _ => [] | None => [[]] end
  | _ :: _ => split_loop (2 * List.length s + 1) r [] s
  end.

End Regex.
Import Regex.

(** The regular expressions of [splitIntoUnits]. *)

(** [/\r\n/g] *)
Definition re_crlf : regex := Seq (Class is_cr) (Class is_lf).

(** [/\n\s*\n/] *)
Definition re_paragraph : regex :=
  Seq (Class is_lf) (Seq (Star is_space) (Class is_lf)).

(** [/\s+/g] *)
Definition re_spaces : regex := Plus is_space.

(** [/[^.!?]+[.!?]+(\s+|$)|[^.!?]+$/g] *)
Definition re_sentence : regex :=
  Alt (Seq (Plus not_punct) (Seq (Plus is_punct) (Alt (Plus is_space) EndOfInput)))
      (Seq (Plus not_punct) EndOfInput).

(* ================================================================== *)
(** * The chunker: [chunkText] *)

(** [Omit<DocumentChunk, 'embedding'>], what [chunkText] returns. *)
Record RawChunk : Type := {
  id : jsstring;
  sourceFile : jsstring;
  content : jsstring
}.

(** [Date.now()]: the reading of the n-th call made during one run. *)
Definition clock := nat -> Z.

Section Chunker.

Variable now : clock.
Variable sourceFile_ : jsstring.
Variables chunkSize overlap : Z.

(** The hard split of a sentence longer than [chunkSize]:
    [while (i < trimmedS.length) { units.push(trimmedS.slice(i, i + chunkSize)); i += chunkSize; }].
    The loop does not end when [chunkSize <= 0]; [None] is a run that
    used up its fuel. *)
Fixpoint hardSplit (fuel : nat) (trimmedS : jsstring) (i : Z)
  : option (list jsstring) :=
  match fuel with
  | O => None
  | S fuel' =>
      if i <? len trimmedS then
        option_map (cons (slice trimmedS i (i + chunkSize)))
                   (hardSplit fuel' trimmedS (i + chunkSize))
      else Some []
  end.

(** The body of [for (const s of sentences)]: the units one sentence
    pushes. *)
Definition sentenceUnits (s : jsstring) : option (list jsstring) :=
  let trimmedS := trim s in
  match trimmedS with
  | [] => Some []
  | _ :: _ =>
      if len trimmedS >? chunkSize
      then hardSplit (S (List.length trimmedS)) trimmedS 0
      else Some [trimmedS]
  end.

Fixpoint sentencesUnits (sentences : list jsstring) : option (list jsstring) :=
  match sentences with
  | [] => Some []
  | s :: rest =>
      match sentenceUnits s, sentencesUnits rest with
      | Some us, Some us' => Some (us ++ us')
      | _, _ => None
      end
  end.

(** [p.replace(/\s+/g, ' ').trim()] *)
Definition trimmedP_of (p : jsstring) : jsstring :=
  trim (replace_g re_spaces (js " ") p).

(** The body of [for (const p of paragraphs)]: the units one paragraph
    pushes.  [trimmedP.length < chunkSize * 0.5] is, for an integer
    [chunkSize], [2 * trimmedP.length < chunkSize]. *)
Definition paragraphUnits (p : jsstring) : option (list jsstring) :=
  let trimmedP := trimmedP_of p in
  match trimmedP with
  | [] => Some []
  | _ :: _ =>
      if 2 * len trimmedP <? chunkSize then Some [trimmedP]
      else
        match match_g re_sentence trimmedP with
        | Some sentences => sentencesUnits sentences
        | None => Some [trimmedP]
        end
  end.

Fixpoint paragraphsUnits (paragraphs : list jsstring) : option (list jsstring) :=
  match paragraphs with
  | [] => Some []
  | p :: rest =>
      match paragraphUnits p, paragraphsUnits rest with
      | Some us, Some us' => Some (us ++ us')
      | _, _ => None
      end
  end.

(** [str.replace(/\r\n/g, '\n').split(/\n\s*\n/)] *)
Definition paragraphs_of (str : jsstring) : list jsstring :=
  split re_paragraph (replace_g re_crlf (js (String "010" EmptyString)) str).

Definition splitIntoUnits (str : jsstring) : option (list jsstring) :=
  paragraphsUnits (paragraphs_of str).

(** The backward walk over the units of the chunk just closed:
    [revUnits] is what is left to visit (last unit first). *)
Fixpoint overlapLoop (revUnits overlapUnits : list jsstring)
  (overlapCurrentLength : Z) : list jsstring * Z :=
  match revUnits with
  | [] => (overlapUnits, overlapCurrentLength)
  | u :: rest =>
      if overlapCurrentLength + len u >? overlap
      then (overlapUnits, overlapCurrentLength)
      else overlapLoop rest (u :: overlapUnits) (overlapCurrentLength + len u + 1)
  end.

(** The variables of the chunk-building loop, and the number of
    [Date.now()] calls made so far. *)
Record build : Type := {
  chunks : list RawChunk;
  currentChunkUnits : list jsstring;
  currentChunkLength : Z;
  calls : nat
}.

(** [chunks.push({ id: `${sourceFile}-${chunks.length}-${Date.now()}`,
    sourceFile, content: currentChunkUnits.join(' ') })] *)
Definition pushChunk (b : build) : list RawChunk :=
  chunks b ++
    [ {| id := sourceFile_ ++ js "-" ++ decimal (len (chunks b)) ++ js "-"
                 ++ decimal (now (calls b));
         sourceFile := sourceFile_;
         content := join (js " ") (currentChunkUnits b) |} ].

(** One iteration of [for (let i = 0; i < units.length; i++)]. *)
Definition addUnit (b : build) (unit : jsstring) : build :=
  let unitLength := len unit in
  if (currentChunkLength b + unitLength + 1 >? chunkSize)
     && (len (currentChunkUnits b) >? 0)
  then
    let '(overlapUnits, overlapCurrentLength) :=
      overlapLoop (rev (currentChunkUnits b)) [] 0 in
    {| chunks := pushChunk b;
       currentChunkUnits := overlapUnits ++ [unit];
       currentChunkLength := overlapCurrentLength + unitLength + 1;
       calls := S (calls b) |}
  else
    {| chunks := chunks b;
       currentChunkUnits := currentChunkUnits b ++ [unit];
       currentChunkLength := currentChunkLength b + unitLength + 1;
       calls := calls b |}.

Definition initial : build :=
  {| chunks := []; currentChunkUnits := []; currentChunkLength := 0; calls := O |}.

(** "Add any remaining text as the last chunk". *)
Definition flush (b : build) : list RawChunk :=
  if len (currentChunkUnits b) >? 0 then pushChunk b else chunks b.

Definition buildChunks (units : list jsstring) : list RawChunk :=
  flush (fold_left addUnit units initial).

(** [chunkText(text, sourceFile, chunkSize, overlap)]; [None] stands for
    a run that does not return.  The guard is
    [if (!text || text.trim().length === 0) return []]. *)
Definition chunkText (text : jsstring) : option (list RawChunk) :=
  match text with
  | [] => Some []
  | _ :: _ =>
      if len (trim text) =? 0 then Some []
      else option_map buildChunks (splitIntoUnits text)
  end.

End Chunker.

(** The default values of [chunkSize], [overlap] and [topK]. *)
Definition defaultChunkSize : Z := 800.
Definition defaultOverlap : Z := 100.
Definition defaultTopK : Z := 5.

(* ================================================================== *)
(** * JavaScript numbers *)

Module Number.

Definition prec : Z := 53.
Definition emax : Z := 1024.

(** An IEEE 754 binary64 value. *)
Definition number := spec_float.

Definition add : number -> number -> number := SFadd prec emax.
Definition sub : number -> number -> number := SFsub prec emax.
Definition mul : number -> number -> number := SFmul prec emax.
Definition div : number -> number -> number := SFdiv prec emax.
(** [Math.sqrt], the correctly rounded square root. *)
Definition sqrt : number -> number := SFsqrt prec emax.

(** [x === y], [x < y] and [x <= y] on numbers. *)
Definition eqb : number -> number -> bool := SFeqb.
Definition ltb : number -> number -> bool := SFltb.
Definition leb : number -> number -> bool := SFleb.

Definition zero : number := S754_zero false.

(** The number an integer literal denotes. *)
Definition of_Z (z : Z) : number := binary_normalize prec emax z 0 false.

Definition is_nan (x : number) : bool :=
  match x with S754_nan => true | _ => false end.

End Number.
Import Number.

(* ================================================================== *)
(** * The retriever: [cosineSimilarity] and [findRelevantChunks] *)

(** [DocumentChunk] of [types.ts]: a chunk with its embedding, as
    [{ ...raw, embedding }] builds it. *)
Record DocumentChunk : Type := {
  raw :> RawChunk;
  embedding : list number
}.

(** A thrown [Error] with its message. *)
Inductive exn : Type :=
| Error (message : jsstring).

(** The one error of this module, raised by [cosineSimilarity] on vectors
    of different lengths (the spec's DimensionMismatch). *)
Definition DimensionMismatch : exn :=
  Error (js "Vectors must have the same length").

(** The result of a call that may throw. *)
Definition result (A : Type) : Type := (exn + A)%type.

(** One iteration of the loop of [cosineSimilarity] on the accumulators
    [(dotProduct, normA, normB)]. *)
Definition accumulate (acc : number * number * number) (ab : number * number)
  : number * number * number :=
  let '(dotProduct, normA, normB) := acc in
  let '(a, b) := ab in
  (add dotProduct (mul a b), add normA (mul a a), add normB (mul b b)).

Definition cosineSimilarity (vecA vecB : list number) : result number :=
  if negb (List.length vecA =? List.length vecB)%nat then inl DimensionMismatch
  else
    let '(dotProduct, normA, normB) :=
      fold_left accumulate (combine vecA vecB) (zero, zero, zero) in
    if eqb normA zero || eqb normB zero then inr zero
    else inr (div dotProduct (mul (sqrt normA) (sqrt normB))).

(** An element of [scoredChunks]: [{ chunk, score }]. *)
Record Scored : Type := {
  chunk : DocumentChunk;
  score : number
}.

(** [chunks.map(chunk => ({ chunk, score: cosineSimilarity(queryEmbedding,
    chunk.embedding) }))]: the first throw ends the map. *)
Fixpoint scoreChunks (queryEmbedding : list number) (chunks : list DocumentChunk)
  : result (list Scored) :=
  match chunks with
  | [] => inr []
  | c :: rest =>
      match cosineSimilarity queryEmbedding (embedding c) with
      | inl e => inl e
      | inr s =>
          match scoreChunks queryEmbedding rest with
          | inl e => inl e
          | inr l => inr ({| chunk := c; score := s |} :: l)
          end
      end
  end.

(** [Array.prototype.sort]: the comparator's result [v], with NaN read as
    +0, orders [x] before [y] when [v < 0] and after it when [v > 0]; the
    sort is stable.  For a comparator that is consistent every conforming
    engine returns the list below (an insertion sort); for one that is not,
    ECMAScript leaves the order to the engine. *)
Section Sort.
Variable A : Type.
Variable comparefn : A -> A -> number.

(** [comparefn(x, y) > 0] *)
Definition after (x y : A) : bool := ltb zero (comparefn x y).

Fixpoint insert (x : A) (l : list A) : list A :=
  match l with
  | [] => [x]
  | y :: l' => if after x y then y :: insert x l' else x :: l
  end.

Definition sort (l : list A) : list A := fold_right insert [] l.
End Sort.

(** [(a, b) => b.score - a.score] *)
Definition byScoreDescending (a b : Scored) : number := sub (score b) (score a).

Definition findRelevantChunks (queryEmbedding : list number)
  (chunks : list DocumentChunk) (topK : Z) : result (list DocumentChunk) :=
  match scoreChunks queryEmbedding chunks with
  | inl e => inl e
  | inr scoredChunks =>
      inr (List.map chunk (slice (sort byScoreDescending scoredChunks) 0 topK))
  end.

(* ================================================================== *)
(** * The vocabulary of the statements

    What the lemmas and theorems below speak about, beside the program
    itself. *)

(** ** Texts *)

(** The length of every unit plus one separator each. *)
Fixpoint total_len (us : list jsstring) : Z :=
  match us with
  | [] => 0
  | u :: rest => len u + 1 + total_len rest
  end.

(** The characters of a text that are not white space, in order. *)
Definition visible (s : jsstring) : jsstring :=
  filter (fun c => negb (is_space c)) s.

(** [s] is [t] with some characters left out. *)
Fixpoint subsequence (s t : jsstring) : bool :=
  match t with
  | [] => match s with [] => true | _ :: _ => false end
  | d :: t' =>
      match s with
      | [] => true
      | c :: s' => if (c =? d)%N then subsequence s' t' else subsequence s t'
      end
  end.

(** ** Regular expressions *)

(** What a regular expression can match, whatever the order in which the
    matcher tries the alternatives: [m] is the text matched and [rest]
    the input after it. *)
Fixpoint matches (r : regex) (m rest : jsstring) : Prop :=
  match r with
  | Class p => exists c, m = [c] /\ p c = true
  | Seq r1 r2 =>
      exists m1 m2, m = m1 ++ m2 /\ matches r1 m1 (m2 ++ rest) /\ matches r2 m2 rest
  | Alt r1 r2 => matches r1 m rest \/ matches r2 m rest
  | Star p => forallb p m = true
  | Plus p => m <> [] /\ forallb p m = true
  | EndOfInput => m = [] /\ rest = []
  end.

(** A regular expression that only ever matches white space. *)
Definition blank (r : regex) : Prop :=
  forall m rest, matches r m rest -> forallb is_space m = true.

(** What [split_loop] still has to do: two steps for each character left,
    and one more when a piece is open. *)
Definition split_work (piece s : jsstring) : nat :=
  2 * List.length s + match piece with [] => 0 | _ :: _ => 1 end.

(** ** Units and chunks *)

(** A unit as the chunker wants it: not empty, at most [chunkSize]. *)
Definition fits (chunkSize : Z) (u : jsstring) : Prop :=
  u <> [] /\ len u <= chunkSize.

(** The units of a closed chunk that seed the next one. *)
Definition keptUnits (overlap : Z) (g : list jsstring) : list jsstring :=
  fst (overlapLoop overlap (rev g) [] 0).

(** The chunk emitted as the [i]-th one for the units [g]. *)
Definition chunkOf (now : clock) (sourceFile_ : jsstring) (i : nat)
  (g : list jsstring) : RawChunk :=
  {| id := sourceFile_ ++ js "-" ++ decimal (Z.of_nat i) ++ js "-"
             ++ decimal (now i);
     sourceFile := sourceFile_;
     content := join (js " ") g |}.

Fixpoint chunksOf (now : clock) (sourceFile_ : jsstring) (i : nat)
  (gs : list (list jsstring)) : list RawChunk :=
  match gs with
  | [] => []
  | g :: gs' => chunkOf now sourceFile_ i g :: chunksOf now sourceFile_ (S i) gs'
  end.

(** A chunk starts with the units kept from the one before it, and adds
    at least one fresh unit. *)
Definition follows (overlap : Z) (g1 g2 : list jsstring) : Prop :=
  exists fresh, fresh <> [] /\ g2 = keptUnits overlap g1 ++ fresh.

Definition linked (overlap : Z) (gs : list (list jsstring)) : Prop :=
  forall i g1 g2,
    nth_error gs i = Some g1 -> nth_error gs (S i) = Some g2 ->
    follows overlap g1 g2.

(** A chunk is within [chunkSize], or it is what was kept of the chunk
    before it, followed by one unit. *)
Definition within (chunkSize overlap : Z) (seen g : list jsstring) : Prop :=
  len (join (js " ") g) <= chunkSize
  \/ exists kept u,
       kept <> [] /\ len (join (js " ") kept) <= overlap /\ In u seen
       /\ g = kept ++ [u].

(** The state of the chunk-building loop after the units [seen]: the
    closed chunks hold the unit lists [gs]. *)
Record packed (now : clock) (sourceFile_ : jsstring) (chunkSize overlap : Z)
  (seen : list jsstring) (b : build) (gs : list (list jsstring)) : Prop := {
  packed_chunks : chunks b = chunksOf now sourceFile_ 0 gs;
  packed_calls : calls b = List.length gs;
  packed_length : currentChunkLength b = total_len (currentChunkUnits b);
  packed_current : currentChunkUnits b = [] -> gs = [] /\ seen = [];
  packed_nonempty : Forall (fun g => g <> []) gs;
  packed_linked : linked overlap (gs ++ [currentChunkUnits b]);
  packed_units : Forall (fun g => incl g seen) (gs ++ [currentChunkUnits b]);
  packed_bound :
    0 < chunkSize -> Forall (fun u => len u <= chunkSize) seen ->
    Forall (within chunkSize overlap seen) (gs ++ [currentChunkUnits b])
}.

(** A chunk without its identifier. *)
Definition tagged (c : RawChunk) : jsstring * jsstring := (sourceFile c, content c).

(** Two states of the chunk-building loop that differ in identifiers
    only. *)
Definition alike (b1 b2 : build) : Prop :=
  List.map tagged (chunks b1) = List.map tagged (chunks b2)
  /\ currentChunkUnits b1 = currentChunkUnits b2
  /\ currentChunkLength b1 = currentChunkLength b2.

(** ** Numbers *)

(** A number that is a well-formed binary64 value and not NaN. *)
Definition ordinary (x : number) : Prop :=
  valid_binary prec emax x = true /\ is_nan x = false.

(** A mantissa that is not negative sits at the exponent its digits ask
    for. *)
Definition settled (m e : Z) : Prop :=
  0 <= m /\ fexp prec emax (Zdigits2 m + e) = e.

(** A number that is not NaN, as a triple that orders as the number does:
    the sign class, then the exponent, then the mantissa. *)
Definition rank (x : number) : Z * Z * Z :=
  match x with
  | S754_infinity true => (-2, 0, 0)
  | S754_finite true m e => (-1, - e, Zneg m)
  | S754_zero _ => (0, 0, 0)
  | S754_nan => (0, 0, 0)
  | S754_finite false m e => (1, e, Zpos m)
  | S754_infinity false => (2, 0, 0)
  end.

Definition lex (a b : Z * Z * Z) : comparison :=
  let '(a1, a2, a3) := a in
  let '(b1, b2, b3) := b in
  match a1 ?= b1 with
  | Eq => match a2 ?= b2 with
          | Eq => a3 ?= b3
          | c => c
          end
  | c => c
  end.

Definition lexlt (a b : Z * Z * Z) : Prop :=
  let '(a1, a2, a3) := a in
  let '(b1, b2, b3) := b in
  a1 < b1 \/ (a1 = b1 /\ (a2 < b2 \/ (a2 = b2 /\ a3 < b3))).

(** A vector of numbers has Euclidean norm zero exactly when each of its
    components is [+0] or [-0], that is, [=== 0]. *)
Definition zero_vector (v : list number) : bool :=
  forallb (fun x => eqb x zero) v.

(** The vector of the numbers that integer literals denote. *)
Definition vec (v : list Z) : list number := List.map of_Z v.

(** ** Ranked chunks *)

(** [x] is ranked no lower than [y]. *)
Definition outranks (x y : Scored) : Prop := leb (score y) (score x) = true.

(** A scored chunk whose score is an ordinary number. *)
Definition well_scored (x : Scored) : Prop := ordinary (score x).

(** The elements with a score equal to [s]. *)
Definition tied (s : number) (l : list Scored) : list Scored :=
  filter (fun x => eqb (score x) s) l.

Definition number_eq_dec (x y : number) : {x = y} + {x <> y}.
Proof.
  decide equality; try apply Bool.bool_dec; try apply Z.eq_dec; apply Pos.eq_dec.
Defined.

Definition jsstring_eq_dec (x y : jsstring) : {x = y} + {x <> y} :=
  list_eq_dec N.eq_dec x y.

Definition RawChunk_eq_dec (x y : RawChunk) : {x = y} + {x <> y}.
Proof. decide equality; apply jsstring_eq_dec. Defined.

Definition DocumentChunk_eq_dec (x y : DocumentChunk) : {x = y} + {x <> y}.
Proof.
  decide equality; [apply (list_eq_dec number_eq_dec) | apply RawChunk_eq_dec].
Defined.

(** How often [c] occurs in a list of chunks. *)
Definition occurrences (l : list DocumentChunk) (c : DocumentChunk) : nat :=
  count_occ DocumentChunk_eq_dec l c.

(** ** Inputs of the examples *)

Definition clock0 : clock := fun _ => 1700000000000.

(** Two paragraphs: a short one, and one that is a single sentence. *)
Definition text_two_paragraphs : jsstring :=
  js "abcd" ++ [10; 10]%N ++ js "abcdefghi.".

Definition text_long_units : jsstring :=
  js "aaaa." ++ [10; 10]%N ++ js "bbbbbbbb.".

Definition long_paragraph : jsstring :=
  List.concat (repeat (js "Pi is about 3.14 in value. ") 20).

Definition chunk_a : RawChunk :=
  {| id := js "doc.txt-0-1700000000000"; sourceFile := js "doc.txt";
     content := js "abcd" |}.

Definition chunk_b : RawChunk :=
  {| id := js "doc.txt-1-1700000000000"; sourceFile := js "doc.txt";
     content := js "abcd abcdefghi." |}.

Definition chunk_x : DocumentChunk :=
  {| raw := {| id := js "doc.txt-0-1700000000000"; sourceFile := js "doc.txt";
               content := js "x axis" |};
     embedding := vec [1; 0] |}.

Definition chunk_y : DocumentChunk :=
  {| raw := {| id := js "doc.txt-1-1700000000000"; sourceFile := js "doc.txt";
               content := js "y axis" |};
     embedding := vec [0; 1] |}.

Definition chunk_xy : DocumentChunk :=
  {| raw := {| id := js "doc.txt-2-1700000000000"; sourceFile := js "doc.txt";
               content := js "diagonal" |};
     embedding := vec [1; 1] |}.

(** The double nearest to 1e200: its square is beyond the largest
    double. *)
Definition huge : number := of_Z (10 ^ 200).

Definition chunk_huge : DocumentChunk :=
  {| raw := {| id := js "doc.txt-0-1700000000000"; sourceFile := js "doc.txt";
               content := js "huge" |};
     embedding := [huge] |}.

Definition chunk_one : DocumentChunk :=
  {| raw := {| id := js "doc.txt-1-1700000000000"; sourceFile := js "doc.txt";
               content := js "one" |};
     embedding := vec [1] |}.

(** ** Chunks and the units they add *)

(** The unit lists of the chunks that the runs of fresh units [fs] make:
    each chunk starts with what is kept of the chunk before it ([prev]
    for the first one) and goes on with its own run. *)
Fixpoint regroup (overlap : Z) (prev : list jsstring) (fs : list (list jsstring))
  : list (list jsstring) :=
  match fs with
  | [] => []
  | f :: fs' =>
      let g := keptUnits overlap prev ++ f in
      g :: regroup overlap g fs'
  end.

(** [s] is [t] with some elements left out, the others in their order. *)
Inductive scattered (A : Type) : list A -> list A -> Prop :=
| scattered_nil : scattered [] []
| scattered_skip x s t : scattered s t -> scattered s (x :: t)
| scattered_keep x s t : scattered s t -> scattered (x :: s) (x :: t).

(** A text whose only white space is the space character U+0020. *)
Definition plain_spaces (s : jsstring) : Prop :=
  forall c, In c s -> is_space c = true -> c = 32%N.

(** One of the decimal digits. *)
Definition is_digit (c : char) : bool := ((48 <=? c) && (c <=? 57))%N.

(** No two elements of [l] have equal scores. *)
Fixpoint distinct_scores (l : list Scored) : bool :=
  match l with
  | [] => true
  | x :: t => forallb (fun y => negb (eqb (score x) (score y))) t && distinct_scores t
  end.

(** ** More inputs of the examples *)

(** The two paragraphs of the spec's scenario. *)
Definition text_short_paragraphs : jsstring :=
  js "Paragraph one is short." ++ [10; 10]%N ++ js "Paragraph two is also short.".

(** "a", a tab, "b", a blank line of spaces, "c". *)
Definition text_with_tab : jsstring :=
  js "a" ++ [9]%N ++ js "b" ++ [10; 32; 32; 13; 10]%N ++ js "c".

(* ================================================================== *)
(** * The application around the chunker and the retriever

    [services/geminiService.ts], the handlers of [App.tsx] and
    [processFile] of [components/KnowledgeManager.tsx]: the callers of
    [chunkText] and [findRelevantChunks], and what they call.

    - The remote models are outside the program.  They are three
      functions of an unknown state [Remote], each returning what the
      call resolves or rejects with and the state it leaves.
    - An [async] function is a function of the world that returns an
      outcome and the world it leaves; [await] is sequencing.  Other
      handlers that run while one is waiting are not part of it: a
      handler is given, as arguments, the values of the state variables
      its closure was created with.
    - A state setter called with a function applies it to the state; one
      called with a value stores it.
    - An [async function*] is embedded together with the [for await] loop
      that drives it: it takes the body of the loop, which cannot throw,
      and the variables the body updates. *)

Module App.

(** ** More of JavaScript's strings *)

(** [s.startsWith(t)] *)
Fixpoint startsWith (s t : jsstring) : bool :=
  match t, s with
  | [], _ => true
  | _ :: _, [] => false
  | d :: t', c :: s' => (c =? d)%N && startsWith s' t'
  end.


(** [s.includes(t)] *)
Fixpoint includes (s t : jsstring) : bool :=
  startsWith s t
  || match s with
     | [] => false
     | _ :: s' => includes s' t
     end.

(** [s === t] on strings. *)
Definition same (s t : jsstring) : bool :=
  if jsstring_eq_dec s t then true else false.

(** A string that is defined and not empty: what [if (s)], [s || d] and
    [!s] test. *)
Definition truthy (s : option jsstring) : bool :=
  match s with
  | Some (_ :: _) => true
  | _ => false
  end.

(** The line feed that [\n] denotes in a string literal. *)
Definition LF : jsstring := [10%N].

(** ** [types.ts] *)

Inductive Role : Type := user | model.

Record ChatMessage : Type := {
  id : jsstring;
  role : Role;
  text : jsstring;
  timestamp : Z;
  relatedChunks : option (list DocumentChunk);
  isError : option bool;
  isStreaming : option bool
}.

Inductive Status : Type := pending | processing | indexed | error.

Record UploadedFile : Type := {
  name : jsstring;
  size : Z;
  status : Status;
  chunkCount : Z;
  description : option jsstring
}.

(** ** What is thrown, and how a run ends *)

(** A thrown value: an [Error] object, a string, or anything else. *)
Inductive thrown : Type :=
| AnError (e : exn)
| AString (s : jsstring)
| Another.

(** How the run of an [async] function ends: its promise is resolved,
    it is rejected, or it is never settled. *)
Inductive outcome (A : Type) : Type :=
| Resolved (a : A)
| Rejected (e : thrown)
| Pending.
Arguments Rejected {A} e.
Arguments Pending {A}.

(** ** The objects of the browser and of [@google/genai] *)

Module DOM.


End DOM.

Module GenAI.

Record ContentEmbedding : Type := {
  values : list number
}.

(** [EmbedContentResponse]: [embeddings] may be missing. *)
Record EmbedContentResponse : Type := {
  embeddings : option (list ContentEmbedding)
}.

(** [GenerateContentResponse]: [text] may be [undefined]. *)
Record GenerateContentResponse : Type := {
  text : option jsstring
}.

(** [config] of a generation request. *)
Record GenerateContentConfig : Type := {
  systemInstruction : jsstring;
  temperature : option number
}.

(** The stream that [generateContentStream] resolves with: the
    responses it yields, and the value it throws after them if it
    breaks off. *)
Record ResponseStream : Type := {
  responses : list GenerateContentResponse;
  broken : option thrown
}.

(** [ai.models]: each method takes the fields of its request ([model],
    then [config] where there is one, then [contents]) and the state of
    the remote side. *)
Record Models (Remote : Type) : Type := {
  embedContent :
    jsstring -> jsstring -> Remote -> (thrown + EmbedContentResponse) * Remote;
  generateContent :
    jsstring -> GenerateContentConfig -> jsstring -> Remote ->
    (thrown + GenerateContentResponse) * Remote;
  generateContentStream :
    jsstring -> GenerateContentConfig -> jsstring -> Remote ->
    (thrown + ResponseStream) * Remote
}.

End GenAI.

(** ** The console *)

Inductive LogLevel : Type := AtError | AtWarn.

(** An argument of [console.error] or [console.warn]. *)
Inductive LogArg : Type :=
| Text (s : jsstring)
| Value (v : thrown).

Record LogEntry : Type := {
  level : LogLevel;
  args : list LogArg
}.

Section Run.

Variable Remote : Type.

(** [const ai = new GoogleGenAI({ apiKey: API_KEY })] *)
Variable ai : GenAI.Models Remote.

(** [process.env.API_KEY] *)
Variable API_KEY : option jsstring.

(** [Date.now()]: the reading of the n-th call the program makes. *)
Variable now : clock.

(** ** The world

    - [remote]: the part of the outside world the remote calls depend on;
    - [ticks]: how many times [Date.now()] has been called;
    - [console]: what was written to the console, oldest first;
    - [files]: [files] of [App];
    - [chunks]: [chunks] of [App], the knowledge base;
    - [messages]: [messages] of [App];
    - [isProcessingMessage]: [isProcessingMessage] of [App];
    - [isProcessing]: [isProcessing] of [KnowledgeManager];
    - [errorMsg]: [errorMsg] of [KnowledgeManager], [null] being [None];
*)
Record World : Type := {
  remote : Remote;
  ticks : nat;
  console : list LogEntry;
  files : list UploadedFile;
  chunks : list DocumentChunk;
  messages : list ChatMessage;
  isProcessingMessage : bool;
  isProcessing : bool;
  errorMsg : option jsstring
}.

Definition with_remote (x : Remote) (w : World) : World :=
  {| remote := x; ticks := ticks w; console := console w; files := files w; chunks := chunks w; messages := messages w; isProcessingMessage := isProcessingMessage w; isProcessing := isProcessing w; errorMsg := errorMsg w |}.

Definition with_ticks (x : nat) (w : World) : World :=
  {| remote := remote w; ticks := x; console := console w; files := files w; chunks := chunks w; messages := messages w; isProcessingMessage := isProcessingMessage w; isProcessing := isProcessing w; errorMsg := errorMsg w |}.

Definition with_console (x : list LogEntry) (w : World) : World :=
  {| remote := remote w; ticks := ticks w; console := x; files := files w; chunks := chunks w; messages := messages w; isProcessingMessage := isProcessingMessage w; isProcessing := isProcessing w; errorMsg := errorMsg w |}.



Definition with_messages (x : list ChatMessage) (w : World) : World :=
  {| remote := remote w; ticks := ticks w; console := console w; files := files w; chunks := chunks w; messages := x; isProcessingMessage := isProcessingMessage w; isProcessing := isProcessing w; errorMsg := errorMsg w |}.

Definition with_isProcessingMessage (x : bool) (w : World) : World :=
  {| remote := remote w; ticks := ticks w; console := console w; files := files w; chunks := chunks w; messages := messages w; isProcessingMessage := x; isProcessing := isProcessing w; errorMsg := errorMsg w |}.



(** ** Programs *)

Definition M (A : Type) : Type := World -> outcome A * World.

Definition ret {A : Type} (a : A) : M A := fun w => (Resolved a, w).

Definition bind {A B : Type} (m : M A) (f : A -> M B) : M B :=
  fun w =>
    match m w with
    | (Resolved a, w') => f a w'
    | (Rejected e, w') => (Rejected e, w')
    | (Pending, w') => (Pending, w')
    end.

Definition throw {A : Type} (e : thrown) : M A := fun w => (Rejected e, w).

(** [try { body } catch (e) { handler }] *)
Definition try_catch {A : Type} (body : M A) (handler : thrown -> M A) : M A :=
  fun w =>
    match body w with
    | (Rejected e, w') => handler e w'
    | r => r
    end.


(** A synchronous call that may throw. *)
Definition call {A : Type} (r : result A) : M A :=
  match r with
  | inl e => throw (AnError e)
  | inr a => ret a
  end.

(** A change of the world that always succeeds. *)
Definition change (f : World -> World) : M unit := fun w => (Resolved tt, f w).

Local Notation "x <- m ;; k" := (bind m (fun x => k))
  (at level 61, m at next level, right associativity).
Local Notation "m ;; k" := (bind m (fun _ => k))
  (at level 61, right associativity).

(** [Date.now()] *)
Definition Date_now : M Z :=
  fun w => (Resolved (now (ticks w)), with_ticks (S (ticks w)) w).

Definition console_log (l : LogLevel) (a : list LogArg) : M unit :=
  change (fun w => with_console (console w ++ [{| level := l; args := a |}]) w).




Definition setMessages (f : list ChatMessage -> list ChatMessage) : M unit :=
  change (fun w => with_messages (f (messages w)) w).

Definition setIsProcessingMessage (b : bool) : M unit :=
  change (with_isProcessingMessage b).



(** A call of a method of [ai.models]. *)
Definition remotely {A : Type} (method : Remote -> (thrown + A) * Remote) : M A :=
  fun w =>
    match method (remote w) with
    | (inl e, r) => (Rejected e, with_remote r w)
    | (inr a, r) => (Resolved a, with_remote r w)
    end.

(** ** [services/geminiService.ts] *)

Definition EMBEDDING_MODEL : jsstring := js "text-embedding-004".
Definition GENERATION_MODEL : jsstring := js "gemini-2.5-flash".

Definition generateEmbedding (text : jsstring) : M (list number) :=
  if negb (truthy API_KEY) then throw (AnError (Error (js "API Key not found")))
  else
    try_catch
      (response <- remotely (GenAI.embedContent ai EMBEDDING_MODEL text) ;;
       match GenAI.embeddings response with
       | None | Some [] => throw (AnError (Error (js "No embedding returned")))
       | Some (first :: _) => ret (GenAI.values first)
       end)
      (fun error =>
         console_log AtError [Text (js "Error generating embedding:"); Value error] ;;
         throw error).



(** [contextChunks.map(c => `[Source: ${c.sourceFile}]\n${c.content}`)
    .join("\n\n---\n\n")] *)
Definition contextText (contextChunks : list DocumentChunk) : jsstring :=
  join (LF ++ LF ++ js "---" ++ LF ++ LF)
    (List.map (fun c : DocumentChunk => js "[Source: " ++ sourceFile c ++ js "]" ++ LF ++ content c)
       contextChunks).

Definition systemPrompt : jsstring :=
  js "You are an intelligent knowledge assistant. Your goal is to answer the user's question accurately using ONLY the provided context below."
  ++ LF ++ js "  "
  ++ LF ++ js "  Instructions:"
  ++ LF ++ js "  1. Analyze the Context provided."
  ++ LF ++ js "  2. Answer the User Question based on that Context."
  ++ LF ++ js "  3. If the answer is not found in the Context, politely state that you cannot answer based on the available information."
  ++ LF ++ js "  4. Do not make up facts not present in the Context."
  ++ LF ++ js "  5. Cite the source file name if possible."
  ++ LF ++ js "  ".

(** [`Context:\n${contextText}\n\nUser Question: ${query}`] *)
Definition userPrompt (query : jsstring) (contextChunks : list DocumentChunk)
  : jsstring :=
  js "Context:" ++ LF ++ contextText contextChunks ++ LF ++ LF
  ++ js "User Question: " ++ query.

(** [for await (const chunk of response) { if (chunk.text) yield
    chunk.text; }], each [yield] running the body of the loop that
    consumes the generator. *)
Fixpoint yieldTexts {S : Type} (body : jsstring -> S -> World -> S * World)
  (response : list GenAI.GenerateContentResponse) (s : S) (w : World) : S * World :=
  match response with
  | [] => (s, w)
  | chunk :: rest =>
      match GenAI.text chunk with
      | Some (c :: t) =>
          let '(s', w') := body (c :: t) s w in
          yieldTexts body rest s' w'
      | _ => yieldTexts body rest s w
      end
  end.

(** [for await (const x of generateRAGResponse(query, contextChunks))
    body]: the literal [0.3] is the double nearest to 3/10. *)
Definition generateRAGResponse {S : Type} (query : jsstring)
  (contextChunks : list DocumentChunk)
  (body : jsstring -> S -> World -> S * World) (s : S) : M S :=
  if negb (truthy API_KEY) then throw (AnError (Error (js "API Key not found")))
  else
    try_catch
      (response <-
         remotely
           (GenAI.generateContentStream ai GENERATION_MODEL
              {| GenAI.systemInstruction := systemPrompt;
                 GenAI.temperature := Some (div (of_Z 3) (of_Z 10)) |}
              (userPrompt query contextChunks)) ;;
       s' <- (fun w =>
                let '(s', w') := yieldTexts body (GenAI.responses response) s w in
                (Resolved s', w')) ;;
       match GenAI.broken response with
       | Some e => throw e
       | None => ret s'
       end)
      (fun error =>
         console_log AtError [Text (js "Error generating RAG response:"); Value error] ;;
         throw error).

(** ** The handlers of [App.tsx] *)





(** [{ ...msg, text: fullText }] *)
Definition with_text (t : jsstring) (msg : ChatMessage) : ChatMessage :=
  {| id := id msg; role := role msg; text := t; timestamp := timestamp msg;
     relatedChunks := relatedChunks msg; isError := isError msg;
     isStreaming := isStreaming msg |}.

(** [{ ...msg, isStreaming: false }] *)
Definition not_streaming (msg : ChatMessage) : ChatMessage :=
  {| id := id msg; role := role msg; text := text msg; timestamp := timestamp msg;
     relatedChunks := relatedChunks msg; isError := isError msg;
     isStreaming := Some false |}.

(** [{ ...m, isStreaming: false, isError: true,
       text: m.text + `\n\n[Error: ${errorMsg}]` }] *)
Definition with_error (errorMsg_ : jsstring) (m : ChatMessage) : ChatMessage :=
  {| id := id m; role := role m;
     text := text m ++ LF ++ LF ++ js "[Error: " ++ errorMsg_ ++ js "]";
     timestamp := timestamp m;
     relatedChunks := relatedChunks m; isError := Some true;
     isStreaming := Some false |}.

(** The body of the loop over the stream:
    [fullText += chunk; setMessages(prev => prev.map(msg =>
       msg.id === botMsgId ? { ...msg, text: fullText } : msg))] *)
Definition showText (botMsgId chunk fullText : jsstring) (w : World)
  : jsstring * World :=
  let fullText' := fullText ++ chunk in
  (fullText',
   with_messages
     (List.map (fun msg => if same (id msg) botMsgId then with_text fullText' msg else msg)
        (messages w)) w).

(** The message of what was caught, as the chat shows it. *)
Definition shownError (error_ : thrown) : jsstring :=
  let errorMsg_ :=
    match error_ with
    | AnError (Error message) => message
    | AString s => s
    | Another => js "An unexpected error occurred."
    end in
  if includes errorMsg_ (js "429")
  then js "Rate limit exceeded. Please wait a moment and try again."
  else if includes errorMsg_ (js "401") || includes errorMsg_ (js "API key")
  then js "Invalid API Key. Please check your configuration."
  else errorMsg_.

(** The [try] block of [processQuery]. *)
Definition answerQuery (botMsgId : jsstring) (chunks_ : list DocumentChunk)
  (text_ : jsstring) : M unit :=
  queryEmbedding <- generateEmbedding text_ ;;
  relevantChunks <- call (findRelevantChunks queryEmbedding chunks_ 5) ;;
  t' <- Date_now ;;
  let botMessage :=
    {| id := botMsgId; role := model; text := []; timestamp := t';
       relatedChunks := Some relevantChunks; isError := None;
       isStreaming := Some true |} in
  setMessages (fun prev => prev ++ [botMessage]) ;;
  setIsProcessingMessage false ;;
  generateRAGResponse text_ relevantChunks (showText botMsgId) [] ;;
  setMessages
    (List.map (fun msg => if same (id msg) botMsgId then not_streaming msg else msg)).

(** The [catch] block of [processQuery]; the function given to
    [setMessages] reads the clock when there is no message to update. *)
Definition reportError (botMsgId : jsstring) (error_ : thrown) : M unit :=
  console_log AtError [Text (js "Chat error:"); Value error_] ;;
  setIsProcessingMessage false ;;
  let errorMsg_ := shownError error_ in
  prev <- (fun w => (Resolved (messages w), w)) ;;
  match find (fun m => same (id m) botMsgId) prev with
  | Some _ =>
      setMessages
        (List.map (fun m => if same (id m) botMsgId then with_error errorMsg_ m else m))
  | None =>
      t' <- Date_now ;;
      setMessages (fun prev =>
        prev ++ [{| id := botMsgId; role := model;
                    text := js "Error: " ++ errorMsg_; timestamp := t';
                    relatedChunks := None; isError := Some true;
                    isStreaming := None |}])
  end.

(** [chunks] is the knowledge base as the closure of the handler has
    it. *)
Definition processQuery (chunks_ : list DocumentChunk) (text_ : jsstring) : M unit :=
  setIsProcessingMessage true ;;
  t <- Date_now ;;
  let botMsgId := decimal (t + 1) in
  try_catch (answerQuery botMsgId chunks_ text_) (reportError botMsgId).


(** [setMessages(prev => { const lastMsg = prev[prev.length - 1];
      if (lastMsg?.isError) return prev.slice(0, -1); return prev; })] *)
Definition dropLastError (prev : list ChatMessage) : list ChatMessage :=
  match rev prev with
  | lastMsg :: _ =>
      match isError lastMsg with
      | Some true => slice prev 0 (-1)
      | _ => prev
      end
  | [] => prev
  end.

(** [isProcessingMessage], [messages] and [chunks] are the state as the
    closure of the handler has it. *)
Definition handleRetry (isProcessingMessage_ : bool)
  (messages_ : list ChatMessage) (chunks_ : list DocumentChunk) : M unit :=
  if isProcessingMessage_ then ret tt
  else
    setMessages dropLastError ;;
    match find (fun m => match role m with user => true | model => false end)
               (rev messages_) with
    | Some lastUserMessage => processQuery chunks_ (text lastUserMessage)
    | None => ret tt
    end.

(** ** [processFile] of [components/KnowledgeManager.tsx] *)







End Run.

(** ** Words for the statements about the application *)

Section Views.

Variable Remote : Type.

(** What the calls of the services leave as it is: the clock and the
    state of the components. *)
Definition untouched (w w' : World Remote) : Prop :=
  ticks w' = ticks w
  /\ files w' = files w
  /\ chunks w' = chunks w
  /\ messages w' = messages w
  /\ isProcessingMessage w' = isProcessingMessage w
  /\ isProcessing w' = isProcessing w
  /\ errorMsg w' = errorMsg w.

(** What a question leaves as it is: the knowledge base and the state
    of [KnowledgeManager]. *)
Definition same_knowledge (w w' : World Remote) : Prop :=
  files w' = files w
  /\ chunks w' = chunks w
  /\ isProcessing w' = isProcessing w
  /\ errorMsg w' = errorMsg w.

End Views.

(** The message that [processQuery] adds before it asks for the
    answer. *)
Definition botMessage (botMsgId : jsstring) (t' : Z)
  (relevantChunks : list DocumentChunk) : ChatMessage :=
  {| id := botMsgId; role := model; text := []; timestamp := t';
     relatedChunks := Some relevantChunks; isError := None;
     isStreaming := Some true |}.

(** The message that [processQuery] adds for an error caught before
    that. *)
Definition errorMessage (botMsgId : jsstring) (t' : Z) (error_ : thrown)
  : ChatMessage :=
  {| id := botMsgId; role := model; text := js "Error: " ++ shownError error_;
     timestamp := t'; relatedChunks := None; isError := Some true;
     isStreaming := None |}.


(** The whole text of a stream. *)
Definition allText (responses : list GenAI.GenerateContentResponse) : jsstring :=
  List.concat
    (List.map (fun r => match GenAI.text r with Some s => s | None => [] end)
       responses).



(** ** Inputs of the examples *)

(** A remote side that counts the calls made to it: it embeds every
    text as (1, 0), summarises every text in the same words, and
    answers in three parts, the second one without text. *)
Definition example_models : GenAI.Models nat :=
  {| GenAI.embedContent := fun _ _ n =>
       (inr {| GenAI.embeddings := Some [{| GenAI.values := vec [1; 0] |}] |}, S n);
     GenAI.generateContent := fun _ _ _ n =>
       (inr {| GenAI.text := Some (js " Two short paragraphs. ") |}, S n);
     GenAI.generateContentStream := fun _ _ _ n =>
       (inr {| GenAI.responses :=
                 [{| GenAI.text := Some (js "Both are") |};
                  {| GenAI.text := None |};
                  {| GenAI.text := Some (js " short.") |}];
               GenAI.broken := None |}, S n) |}.

(** A remote side that rejects every call. *)
Definition failing_models : GenAI.Models nat :=
  {| GenAI.embedContent := fun _ _ n =>
       (inl (AnError (Error (js "429 Too Many Requests"))), S n);
     GenAI.generateContent := fun _ _ _ n =>
       (inl (AnError (Error (js "429 Too Many Requests"))), S n);
     GenAI.generateContentStream := fun _ _ _ n =>
       (inl (AnError (Error (js "429 Too Many Requests"))), S n) |}.

Definition example_key : option jsstring := Some (js "key").

Definition empty_world : World nat :=
  {| remote := O; ticks := O; console := []; files := []; chunks := [];
     messages := []; isProcessingMessage := false; isProcessing := false;
     errorMsg := None |}.

(** A question, and the message of an error that followed it. *)
Definition example_question : ChatMessage :=
  {| id := js "1700000000000"; role := user; text := js "What is short?";
     timestamp := 1700000000000; relatedChunks := None; isError := None;
     isStreaming := None |}.

Definition example_error : ChatMessage :=
  errorMessage (js "1700000000001") 1700000000000
    (AnError (Error (js "429 Too Many Requests"))).


End App.

(* ================================================================== *)
(** * Lemmas *)

Ltac read_compare H :=
  lazymatch type of H with
  | (_ ?= _) = Eq => apply Z.compare_eq in H
  | (?a ?= ?b) = Lt => change (a < b) in H
  | (?a ?= ?b) = Gt => change (a > b) in H
  end.

(* ------------------------------------------------------------------ *)
(** ** Lengths and joins *)

Module JsStringFacts.

Lemma len_cons (A : Type) (x : A) l : len (x :: l) = len l + 1.
Proof. unfold len. cbn [List.length]. lia. Qed.

Lemma len_app (A : Type) (l1 l2 : list A) : len (l1 ++ l2) = len l1 + len l2.
Proof. unfold len. rewrite length_app. lia. Qed.

Lemma len_nonneg (A : Type) (l : list A) : 0 <= len l.
Proof. unfold len. lia. Qed.

Lemma len_zero (A : Type) (l : list A) : len l = 0 -> l = [].
Proof. destruct l; [reflexivity | rewrite len_cons; pose proof (len_nonneg l); lia]. Qed.

Lemma total_len_app us vs : total_len (us ++ vs) = total_len us + total_len vs.
Proof. induction us as [|u us IH]; cbn [total_len app]; lia. Qed.

Lemma total_len_rev us : total_len (rev us) = total_len us.
Proof.
  induction us as [|u us IH]; [reflexivity|].
  cbn [rev]. rewrite total_len_app, IH. cbn [total_len]. lia.
Qed.

Lemma total_len_nonneg us : 0 <= total_len us.
Proof.
  induction us as [|u us IH]; cbn [total_len]; [lia|].
  pose proof (len_nonneg u). lia.
Qed.

Lemma len_space : len (js " ") = 1.
Proof. reflexivity. Qed.

Lemma join_cons sep u us :
  us <> [] -> join sep (u :: us) = u ++ sep ++ join sep us.
Proof. destruct us; [congruence | reflexivity]. Qed.

Lemma join_len us : us <> [] -> len (join (js " ") us) = total_len us - 1.
Proof.
  induction us as [|u us IH]; [congruence|]. intros _.
  destruct us as [|v us].
  - cbn [join total_len]. lia.
  - rewrite join_cons by congruence. rewrite !len_app, IH by congruence.
    cbn [total_len]. rewrite len_space. lia.
Qed.

Lemma join_app sep us vs :
  us <> [] -> vs <> [] -> join sep (us ++ vs) = join sep us ++ sep ++ join sep vs.
Proof.
  induction us as [|u us IH]; [congruence|]. intros _ Hvs.
  destruct us as [|u' us].
  - cbn [app]. rewrite join_cons by assumption. reflexivity.
  - change ((u :: u' :: us) ++ vs) with (u :: ((u' :: us) ++ vs)).
    rewrite join_cons by (cbn; congruence).
    rewrite IH by congruence.
    rewrite (join_cons sep u (us:=u' :: us)) by congruence.
    rewrite <- !app_assoc. reflexivity.
Qed.

End JsStringFacts.
Import JsStringFacts.

Section Packing.

Variable now : clock.
Variable sf : jsstring.
Variables cs ov : Z.

Lemma overlapLoop_spec rs : forall acc n,
  exists k, (k <= List.length rs)%nat
    /\ overlapLoop ov rs acc n
       = (rev (firstn k rs) ++ acc, n + total_len (firstn k rs))
    /\ ((1 <= k)%nat -> n + total_len (firstn k rs) - 1 <= ov)
    /\ ((k < List.length rs)%nat ->
        n + total_len (firstn k rs) + len (nth k rs []) > ov).
Proof.
  induction rs as [|u rs IH]; intros acc n.
  - exists O. cbn. rewrite Z.add_0_r. repeat split; try lia.
  - cbn [overlapLoop]. destruct (n + len u >? ov) eqn:E.
    + exists O. cbn [firstn rev app total_len nth List.length].
      rewrite Z.add_0_r. repeat split; try lia.
    + destruct (IH (u :: acc) (n + len u + 1)) as (k & Hk & Heq & Hle & Hgt).
      exists (S k). cbn [firstn List.length rev total_len nth].
      rewrite Heq, <- app_assoc. cbn [app].
      split; [lia|]. split; [f_equal; lia|]. split.
      * intros _. destruct k as [|k].
        -- cbn. lia.
        -- specialize (Hle ltac:(lia)). lia.
      * intros H. specialize (Hgt ltac:(lia)). lia.
Qed.

(** What is kept is a run of whole units at the end of the closed chunk,
    as long as fits into [overlap]: with its separators it is at most
    [overlap] long, and the unit before it, if any, no longer fits. *)
Lemma keptUnits_spec g :
  exists before,
    g = before ++ (keptUnits ov) g
    /\ snd (overlapLoop ov (rev g) [] 0) = total_len ((keptUnits ov) g)
    /\ ((keptUnits ov) g <> [] -> len (join (js " ") ((keptUnits ov) g)) <= ov)
    /\ (before <> [] -> total_len ((keptUnits ov) g) + len (last before []) > ov).
Proof.
  unfold keptUnits.
  destruct (overlapLoop_spec (rev g) [] 0) as (k & Hk & Heq & Hle & Hgt).
  rewrite Heq. cbn [fst snd]. rewrite app_nil_r.
  rewrite total_len_rev.
  exists (rev (skipn k (rev g))). split; [|split; [|split]].
  - rewrite <- rev_app_distr, firstn_skipn, rev_involutive. reflexivity.
  - lia.
  - intros Hne. rewrite join_len by assumption. rewrite total_len_rev.
    destruct k as [|k]; [cbn in Hne; congruence|]. specialize (Hle ltac:(lia)). lia.
  - intros Hne.
    assert (Hlt : (k < List.length (rev g))%nat).
    { destruct (Nat.lt_ge_cases k (List.length (rev g))) as [|Hge]; [assumption|].
      rewrite skipn_all2 in Hne by assumption. cbn in Hne. congruence. }
    specialize (Hgt Hlt).
    assert (Hl : last (rev (skipn k (rev g))) [] = nth k (rev g) []).
    { rewrite <- (firstn_skipn k (rev g)) at 2.
      rewrite app_nth2 by (rewrite length_firstn; lia).
      rewrite length_firstn, Nat.min_l by lia. rewrite Nat.sub_diag.
      destruct (skipn k (rev g)) as [|x xs] eqn:Es; [cbn in Hne; congruence|].
      cbn [rev nth]. apply last_last. }
    rewrite Hl. lia.
Qed.

Lemma chunksOf_app gs : forall i hs,
  (chunksOf now sf) i (gs ++ hs) = (chunksOf now sf) i gs ++ (chunksOf now sf) (i + List.length gs) hs.
Proof.
  induction gs as [|g gs IH]; intros i hs; cbn [chunksOf app List.length].
  - rewrite Nat.add_0_r. reflexivity.
  - rewrite IH. do 3 f_equal. lia.
Qed.

Lemma chunksOf_length gs : forall i, List.length ((chunksOf now sf) i gs) = List.length gs.
Proof. induction gs as [|g gs IH]; intros i; cbn; [|rewrite IH]; reflexivity. Qed.

Lemma chunksOf_nth gs : forall i n c,
  nth_error ((chunksOf now sf) i gs) n = Some c ->
  exists g, nth_error gs n = Some g /\ c = (chunkOf now sf) (i + n) g.
Proof.
  induction gs as [|g gs IH]; intros i n c H.
  - destruct n; discriminate.
  - destruct n as [|n]; cbn in H.
    + injection H as <-. exists g. rewrite Nat.add_0_r. split; reflexivity.
    + destruct (IH _ _ _ H) as (g' & Hg & ->). exists g'. split; [assumption|].
      f_equal. lia.
Qed.

Lemma linked_snoc gs g h :
  (linked ov) (gs ++ [g]) -> (follows ov) g h -> (linked ov) ((gs ++ [g]) ++ [h]).
Proof.
  intros HL HF i g1 g2 H1 H2.
  destruct (Nat.lt_ge_cases (S i) (List.length (gs ++ [g]))) as [Hlt|Hge].
  - rewrite nth_error_app1 in H1 by lia. rewrite nth_error_app1 in H2 by lia.
    exact (HL _ _ _ H1 H2).
  - assert (Hi : S i = List.length (gs ++ [g])).
    { assert (S i < List.length ((gs ++ [g]) ++ [h]))%nat
        by (apply nth_error_Some; rewrite H2; discriminate).
      rewrite length_app in H. cbn in H. lia. }
    rewrite nth_error_app2 in H2 by lia.
    replace (S i - List.length (gs ++ [g]))%nat with O in H2 by lia.
    injection H2 as <-.
    rewrite nth_error_app1 in H1 by lia.
    rewrite length_app in Hi. cbn in Hi.
    rewrite nth_error_app2 in H1 by lia.
    replace (i - List.length gs)%nat with O in H1 by lia.
    injection H1 as <-. assumption.
Qed.

Lemma linked_grow gs g u :
  (linked ov) (gs ++ [g]) -> (linked ov) (gs ++ [g ++ [u]]).
Proof.
  intros HL i g1 g2 H1 H2.
  destruct (Nat.lt_ge_cases (S i) (List.length gs)) as [Hlt|Hge].
  - rewrite nth_error_app1 in H1 by lia. rewrite nth_error_app1 in H2 by lia.
    apply (HL i); rewrite nth_error_app1 by lia; assumption.
  - assert (Hi : S i = List.length gs).
    { assert (S i < List.length (gs ++ [g ++ [u]]))%nat
        by (apply nth_error_Some; rewrite H2; discriminate).
      rewrite length_app in H. cbn in H. lia. }
    rewrite nth_error_app2 in H2 by lia.
    replace (S i - List.length gs)%nat with O in H2 by lia.
    injection H2 as <-.
    rewrite nth_error_app1 in H1 by lia.
    destruct (HL i g1 g) as (fresh & Hne & ->).
    + rewrite nth_error_app1 by lia. assumption.
    + rewrite nth_error_app2 by lia.
      replace (S i - List.length gs)%nat with O by lia. reflexivity.
    + exists (fresh ++ [u]). split.
      * destruct fresh; cbn; congruence.
      * rewrite app_assoc. reflexivity.
Qed.

Lemma packed_initial : (packed now sf cs ov) [] initial [].
Proof.
  constructor; cbn; try reflexivity; auto.
  - intros i g1 g2 H1 H2. destruct i; discriminate.
  - repeat constructor. intros x [].
  - intros. constructor; [|constructor]. left.
    change (len (join (js " ") [])) with 0. lia.
Qed.
Lemma incl_keptUnits g : incl ((keptUnits ov) g) g.
Proof.
  destruct (keptUnits_spec g) as (before & Hg & _).
  intros x Hx. rewrite Hg. apply in_or_app. right. assumption.
Qed.

Lemma Forall_snoc (A : Type) (P : A -> Prop) l x :
  Forall P l -> P x -> Forall P (l ++ [x]).
Proof. intros. apply Forall_app. split; [assumption | constructor; auto]. Qed.

Lemma within_kept g u seen :
  0 < cs -> len u <= cs -> In u seen -> (within cs ov) seen ((keptUnits ov) g ++ [u]).
Proof.
  intros Hcs Hu Hin.
  destruct (keptUnits_spec g) as (_ & _ & _ & Hk & _).
  destruct ((keptUnits ov) g) as [|k ks] eqn:E.
  - left. cbn [app join]. assumption.
  - specialize (Hk ltac:(congruence)).
    right. exists (k :: ks), u. split; [congruence|]. auto.
Qed.

Lemma within_more seen seen' g :
  incl seen seen' -> (within cs ov) seen g -> (within cs ov) seen' g.
Proof.
  intros Hi [H|(k & u & Hk & Hl & Hu & ->)]; [left; assumption|].
  right. exists k, u. auto.
Qed.

Lemma packed_step seen b gs u :
  (packed now sf cs ov) seen b gs -> exists gs', (packed now sf cs ov) (seen ++ [u]) (addUnit now sf cs ov b u) gs'.
Proof.
  intros [Hch Hcalls Hlen Hcur Hne Hlink Hunits Hbound].
  unfold addUnit.
  destruct ((currentChunkLength b + len u + 1 >? cs)
            && (len (currentChunkUnits b) >? 0)) eqn:Hcond.
  - apply andb_prop in Hcond as [Hover Hcurne].
    assert (Hcne : currentChunkUnits b <> []).
    { intros E. rewrite E in Hcurne. discriminate. }
    destruct (keptUnits_spec (currentChunkUnits b)) as (before & Hsplit & Hsnd & Hk & _).
    unfold keptUnits in *.
    destruct (overlapLoop ov (rev (currentChunkUnits b)) [] 0)
      as [overlapUnits overlapCurrentLength] eqn:Eloop.
    cbn [fst snd] in *.
    exists (gs ++ [currentChunkUnits b]).
    constructor; cbn [chunks currentChunkUnits currentChunkLength calls].
    + unfold pushChunk. rewrite chunksOf_app, Hch, Hcalls. cbn [chunksOf].
      unfold chunkOf, len. rewrite chunksOf_length. reflexivity.
    + rewrite length_app, Hcalls. cbn. lia.
    + rewrite total_len_app. cbn [total_len]. lia.
    + intros E. destruct overlapUnits; discriminate.
    + apply Forall_snoc; assumption.
    + apply linked_snoc; [assumption|].
      exists [u]. split; [congruence|]. unfold keptUnits. rewrite Eloop. reflexivity.
    + apply Forall_snoc.
      * eapply Forall_impl; [|exact Hunits]. intros g Hg x Hx.
        apply in_or_app. left. auto.
      * intros x Hx. apply in_app_or in Hx as [Hx|Hx]; apply in_or_app.
        -- left. apply Forall_app in Hunits as [_ Hc]. inversion Hc; subst.
           match goal with H : incl _ seen |- _ => apply H end.
           rewrite Hsplit. apply in_or_app. right. assumption.
        -- right. assumption.
    + intros Hcs Hall. apply Forall_app in Hall as [Hall Hu].
      inversion Hu as [|? ? Hu' _]; subst.
      apply Forall_snoc.
      * eapply Forall_impl; [|exact (Hbound Hcs Hall)].
        intros g. apply within_more. apply incl_appl, incl_refl.
      * replace overlapUnits with ((keptUnits ov) (currentChunkUnits b))
          by (unfold keptUnits; rewrite Eloop; reflexivity).
        apply within_kept; [assumption | assumption |].
        apply in_or_app. right. left. reflexivity.
  - exists gs.
    constructor; cbn [chunks currentChunkUnits currentChunkLength calls];
      try assumption.
    + rewrite total_len_app. cbn [total_len]. lia.
    + intros E. destruct (currentChunkUnits b); discriminate.
    + apply linked_grow. assumption.
    + apply Forall_app in Hunits as [Hg Hc]. inversion Hc; subst.
      apply Forall_snoc.
      * eapply Forall_impl; [|exact Hg]. intros g Hg' x Hx.
        apply in_or_app. left. auto.
      * intros x Hx. apply in_app_or in Hx as [Hx|Hx]; apply in_or_app; auto.
    + intros Hcs Hall. apply Forall_app in Hall as [Hall Hu].
      inversion Hu as [|? ? Hu' _]; subst.
      specialize (Hbound Hcs Hall). apply Forall_app in Hbound as [Hgs _].
      apply Forall_snoc.
      { eapply Forall_impl; [|exact Hgs].
        intros g. apply within_more. apply incl_appl, incl_refl. }
      left. apply andb_false_iff in Hcond as [Hfit|Hempty].
      * destruct (currentChunkUnits b) as [|c0 cur] eqn:E; [cbn [app join]; lia|].
        rewrite join_len by (cbn; congruence).
        rewrite total_len_app. cbn [total_len] in *. lia.
      * assert (E : currentChunkUnits b = []).
        { apply len_zero. pose proof (len_nonneg (currentChunkUnits b)). lia. }
        rewrite E. cbn [app join]. lia.
Qed.

Lemma packed_fold units : forall seen b gs,
  (packed now sf cs ov) seen b gs ->
  exists gs', (packed now sf cs ov) (seen ++ units) (fold_left (addUnit now sf cs ov) units b) gs'.
Proof.
  induction units as [|u units IH]; intros seen b gs H.
  - rewrite app_nil_r. exists gs. assumption.
  - cbn [fold_left]. destruct (packed_step u H) as (gs1 & H1).
    destruct (IH _ _ _ H1) as (gs2 & H2).
    exists gs2. rewrite <- app_assoc in H2. assumption.
Qed.

(** What [buildChunks] returns: the chunks of a list of unit lists, each
    made of units of the input, each seeded with what the one before it
    keeps and adding at least one unit to that. *)
Theorem buildChunks_spec units :
  exists gs,
    buildChunks now sf cs ov units = (chunksOf now sf) 0 gs
    /\ (units <> [] -> gs <> [])
    /\ Forall (fun g => g <> [] /\ incl g units) gs
    /\ (linked ov) gs
    /\ (0 < cs -> Forall (fun u => len u <= cs) units ->
        Forall ((within cs ov) units) gs).
Proof.
  destruct (packed_fold units packed_initial) as (gs & H).
  cbn [app] in H. unfold buildChunks, flush.
  destruct H as [Hch Hcalls Hlen Hcur Hne Hlink Hunits Hbound].
  set (b := fold_left (addUnit now sf cs ov) units initial) in *.
  destruct (len (currentChunkUnits b) >? 0) eqn:Hc.
  - assert (Hcne : currentChunkUnits b <> []).
    { intros E. rewrite E in Hc. discriminate. }
    exists (gs ++ [currentChunkUnits b]). split; [|split; [|split; [|split]]].
    + unfold pushChunk. rewrite chunksOf_app, Hch, Hcalls. cbn [chunksOf].
      unfold chunkOf, len. rewrite chunksOf_length. reflexivity.
    + intros _. destruct gs; discriminate.
    + apply Forall_app in Hunits as [Hg Hcu]. apply Forall_snoc.
      * rewrite Forall_forall in *. intros g Hin. split; auto.
      * inversion Hcu; subst. split; assumption.
    + assumption.
    + intros Hcs Hall. exact (Hbound Hcs Hall).
  - assert (E : currentChunkUnits b = []).
    { apply len_zero. pose proof (len_nonneg (currentChunkUnits b)). lia. }
    destruct (Hcur E) as [-> ->].
    exists []. split; [assumption|]. split; [congruence|].
    split; [constructor|]. split; [|intros; constructor].
    intros i g1 g2 H1. destruct i; discriminate.
Qed.

End Packing.

(* ------------------------------------------------------------------ *)
(** ** The matcher *)

Module RegexFacts.

Lemma star_sound p s : forall k x,
  star p s k = Some x ->
  exists m rest, s = m ++ rest /\ forallb p m = true /\ k rest = Some x.
Proof.
  induction s as [|c s IH]; intros k x H; cbn [star] in H.
  - exists [], []. auto.
  - destruct (p c) eqn:Hc.
    + destruct (star p s k) as [r|] eqn:Hs.
      * injection H as ->. destruct (IH _ _ Hs) as (m & rest & -> & Hm & Hk).
        exists (c :: m), rest. cbn [forallb app]. rewrite Hc. auto.
      * exists [], (c :: s). auto.
    + exists [], (c :: s). auto.
Qed.

Lemma star_skip p s k : k s <> None -> star p s k <> None.
Proof.
  destruct s as [|c s]; cbn [star]; [auto|]. intros H.
  destruct (p c); [|assumption].
  destruct (star p s k); [discriminate | assumption].
Qed.

Lemma star_complete p m : forall rest k,
  forallb p m = true -> k rest <> None -> star p (m ++ rest) k <> None.
Proof.
  induction m as [|c m IH]; intros rest k Hm Hk.
  - apply star_skip. assumption.
  - cbn [forallb] in Hm. apply andb_prop in Hm as [Hc Hm].
    cbn [app star]. rewrite Hc.
    specialize (IH rest k Hm Hk).
    destruct (star p (m ++ rest) k); [discriminate | congruence].
Qed.

Lemma run_sound r : forall s k x,
  run r s k = Some x ->
  exists m rest, s = m ++ rest /\ matches r m rest /\ k rest = Some x.
Proof.
  induction r as [p|r1 IH1 r2 IH2|r1 IH1 r2 IH2|p|p|]; intros s k x H; cbn [run] in H.
  - destruct s as [|c s]; [discriminate|]. destruct (p c) eqn:Hc; [|discriminate].
    exists [c], s. cbn. eauto.
  - destruct (IH1 _ _ _ H) as (m1 & rest1 & -> & Hm1 & H2).
    destruct (IH2 _ _ _ H2) as (m2 & rest & -> & Hm2 & Hk).
    exists (m1 ++ m2), rest. rewrite <- app_assoc. cbn. eauto 8.
  - destruct (run r1 s k) as [y|] eqn:E.
    + injection H as ->. destruct (IH1 _ _ _ E) as (m & rest & -> & Hm & Hk).
      exists m, rest. cbn. auto.
    + destruct (IH2 _ _ _ H) as (m & rest & -> & Hm & Hk).
      exists m, rest. cbn. auto.
  - apply star_sound in H as (m & rest & -> & Hm & Hk). exists m, rest. cbn. auto.
  - destruct s as [|c s]; [discriminate|]. destruct (p c) eqn:Hc; [|discriminate].
    apply star_sound in H as (m & rest & -> & Hm & Hk).
    exists (c :: m), rest. cbn. rewrite Hc. split; [reflexivity|].
    split; [split; [discriminate | assumption] | assumption].
  - destruct s; [|discriminate]. exists [], []. cbn. auto.
Qed.

Lemma run_complete r : forall m rest k,
  matches r m rest -> k rest <> None -> run r (m ++ rest) k <> None.
Proof.
  induction r as [p|r1 IH1 r2 IH2|r1 IH1 r2 IH2|p|p|]; intros m rest k Hm Hk;
    cbn [matches] in Hm; cbn [run].
  - destruct Hm as (c & -> & Hc). cbn [app]. rewrite Hc. assumption.
  - destruct Hm as (m1 & m2 & -> & Hm1 & Hm2). rewrite <- app_assoc.
    apply IH1; [assumption|]. apply IH2; assumption.
  - destruct Hm as [Hm|Hm].
    + specialize (IH1 _ _ _ Hm Hk). destruct (run r1 (m ++ rest) k); [discriminate|congruence].
    + destruct (run r1 (m ++ rest) k); [discriminate|]. apply IH2; assumption.
  - apply star_complete; assumption.
  - destruct Hm as [Hne Hm]. destruct m as [|c m]; [congruence|].
    cbn [forallb] in Hm. apply andb_prop in Hm as [Hc Hm].
    cbn [app]. rewrite Hc. apply star_complete; assumption.
  - destruct Hm as [-> ->]. assumption.
Qed.

Lemma consumed_app m rest : consumed (m ++ rest) rest = m.
Proof.
  unfold consumed. rewrite length_app, Nat.add_sub.
  rewrite firstn_app, Nat.sub_diag, firstn_all. cbn. apply app_nil_r.
Qed.

Lemma exec_at_sound r s rest :
  exec_at r s = Some rest ->
  exists m, s = m ++ rest /\ matches r m rest /\ consumed s rest = m.
Proof.
  unfold exec_at. intros H.
  apply run_sound in H as (m & rest' & -> & Hm & Hk). injection Hk as ->.
  exists m. rewrite consumed_app. auto.
Qed.

Lemma exec_at_complete (r : regex) (m rest : jsstring) : matches r m rest -> exec_at r (m ++ rest) <> None.
Proof. intros H. apply run_complete; [assumption | discriminate]. Qed.

Lemma search_sound r s : forall before m rest,
  search r s = Some (before, m, rest) ->
  s = before ++ m ++ rest /\ matches r m rest.
Proof.
  induction s as [|c s IH]; intros before m rest H; cbn [search] in H.
  - destruct (exec_at r []) as [x|] eqn:E; [|discriminate].
    injection H as <- <- <-. apply exec_at_sound in E as (m & E1 & Hm & E2).
    rewrite E2. cbn [app]. auto.
  - destruct (exec_at r (c :: s)) as [x|] eqn:E.
    + injection H as <- <- <-. apply exec_at_sound in E as (m & E1 & Hm & E2).
      rewrite E2. cbn [app]. auto.
    + destruct (search r s) as [[[b' m'] rest']|] eqn:Es; [|discriminate].
      injection H as <- <- <-. destruct (IH _ _ _ eq_refl) as [-> Hm].
      cbn [app]. auto.
Qed.

Lemma search_complete r before : forall m rest,
  matches r m rest -> search r (before ++ m ++ rest) <> None.
Proof.
  induction before as [|c before IH]; intros m rest Hm.
  - cbn [app]. pose proof (exec_at_complete _ _ _ Hm) as H.
    destruct (m ++ rest); cbn [search]; destruct (exec_at r _); congruence.
  - cbn [app search]. destruct (exec_at r (c :: before ++ m ++ rest)); [discriminate|].
    specialize (IH _ _ Hm). destruct (search r _) as [[[? ?] ?]|]; [discriminate|congruence].
Qed.

End RegexFacts.

Import RegexFacts.

Module TextFacts.

Lemma visible_app s t : visible (s ++ t) = visible s ++ visible t.
Proof. apply filter_app. Qed.

Lemma visible_blank m : forallb is_space m = true -> visible m = [].
Proof.
  induction m as [|c m IH]; [reflexivity|]. cbn [forallb visible filter].
  intros H. apply andb_prop in H as [-> H]. cbn. apply IH. assumption.
Qed.

Lemma visible_rev s : visible (rev s) = rev (visible s).
Proof.
  induction s as [|c s IH]; [reflexivity|].
  cbn [rev]. rewrite visible_app, IH. cbn [visible filter].
  destruct (negb (is_space c)); cbn [rev app]; [reflexivity | apply app_nil_r].
Qed.

Lemma visible_trimStart s : visible (trimStart s) = visible s.
Proof.
  induction s as [|c s IH]; [reflexivity|]. cbn [trimStart].
  destruct (is_space c) eqn:E; [|reflexivity].
  rewrite IH. cbn [visible filter]. rewrite E. reflexivity.
Qed.

Lemma visible_trim s : visible (trim s) = visible s.
Proof.
  unfold trim, trimEnd.
  rewrite visible_rev, visible_trimStart, visible_rev, rev_involutive.
  apply visible_trimStart.
Qed.

Lemma trimStart_head s c t : trimStart s = c :: t -> is_space c = false.
Proof.
  induction s as [|d s IH]; cbn [trimStart]; [discriminate|].
  destruct (is_space d) eqn:E; [assumption|]. intros H. injection H as <- _. assumption.
Qed.

Lemma trimStart_visible s : visible s <> [] -> trimStart s <> [].
Proof. rewrite <- (visible_trimStart s). destruct (trimStart s); [cbn; congruence | discriminate]. Qed.

(** A trimmed text that is not empty ends with a visible character. *)
Lemma trim_last s : trim s <> [] ->
  exists t c, trim s = t ++ [c] /\ is_space c = false.
Proof.
  unfold trim, trimEnd. intros H.
  destruct (trimStart (rev (trimStart s))) as [|c t] eqn:E; [cbn in H; congruence|].
  exists (rev t), c. split; [reflexivity|]. eapply trimStart_head. eassumption.
Qed.

Lemma trim_visible s : visible s <> [] -> trim s <> [].
Proof. rewrite <- (visible_trim s). destruct (trim s); [cbn; congruence | discriminate]. Qed.

Lemma trim_nonempty_visible s : trim s <> [] -> visible s <> [].
Proof.
  intros H. destruct (trim_last s H) as (t & c & E & Hc).
  rewrite <- (visible_trim s), E, visible_app. cbn [visible filter]. rewrite Hc.
  cbn. destruct (visible t); discriminate.
Qed.

Lemma visible_concat l : visible (List.concat l) = List.concat (List.map visible l).
Proof.
  induction l as [|x l IH]; [reflexivity|]. cbn [List.concat List.map].
  rewrite visible_app, IH. reflexivity.
Qed.

Lemma visible_concat_some l :
  visible (List.concat l) <> [] -> exists p, In p l /\ visible p <> [].
Proof.
  induction l as [|x l IH]; cbn [List.concat]; [cbn; congruence|].
  rewrite visible_app. intros H.
  destruct (visible x) eqn:E.
  - destruct (IH H) as (p & Hp & Hv). exists p. split; [right|]; assumption.
  - exists x. split; [left; reflexivity | congruence].
Qed.

Lemma blank_crlf : blank re_crlf.
Proof.
  intros m rest (m1 & m2 & -> & (c & -> & Hc) & (d & -> & Hd)).
  unfold is_cr in Hc. unfold is_lf in Hd.
  apply N.eqb_eq in Hc, Hd. subst. reflexivity.
Qed.

Lemma blank_spaces : blank re_spaces.
Proof. intros m rest [_ H]. assumption. Qed.

Lemma blank_paragraph : blank re_paragraph.
Proof.
  intros m rest (m1 & m23 & -> & (c & -> & Hc) & (m2 & m3 & -> & Hm2 & (d & -> & Hd))).
  cbn [matches] in Hm2. unfold is_lf in Hc, Hd. apply N.eqb_eq in Hc, Hd. subst.
  cbn [app forallb]. rewrite forallb_app, Hm2. reflexivity.
Qed.

Lemma visible_replace_loop r rep fuel : forall s,
  blank r -> forallb is_space rep = true ->
  visible (replace_loop fuel r rep s) = visible s.
Proof.
  induction fuel as [|fuel IH]; intros s Hr Hrep; cbn [replace_loop]; [reflexivity|].
  destruct (search r s) as [[[before m] rest]|] eqn:E; [|reflexivity].
  apply search_sound in E as [-> Hm].
  rewrite !visible_app, (visible_blank rep Hrep), (visible_blank m (Hr _ _ Hm)).
  cbn [app]. f_equal.
  destruct m as [|c m]; cbn [advance].
  - destruct rest as [|c rest]; [reflexivity|].
    rewrite visible_app, IH by assumption.
    rewrite <- visible_app. reflexivity.
  - cbn [app]. apply IH; assumption.
Qed.

Lemma visible_replace_g r rep s :
  blank r -> forallb is_space rep = true -> visible (replace_g r rep s) = visible s.
Proof. apply visible_replace_loop. Qed.

Lemma visible_split_loop r fuel : forall piece s,
  blank r -> visible (List.concat (split_loop fuel r piece s)) = visible (piece ++ s).
Proof.
  induction fuel as [|fuel IH]; intros piece s Hr; cbn [split_loop].
  - cbn [List.concat]. rewrite app_nil_r. reflexivity.
  - destruct s as [|c s].
    + cbn [List.concat]. reflexivity.
    + destruct (exec_at r (c :: s)) as [rest|] eqn:E.
      * apply exec_at_sound in E as (m & Es & Hm & Ec). rewrite Ec.
        assert (Hsplit : visible (List.concat (piece :: split_loop fuel r [] rest))
                         = visible (piece ++ c :: s)).
        { cbn [List.concat]. rewrite visible_app, IH by assumption.
          rewrite Es, !visible_app, (visible_blank m (Hr _ _ Hm)). reflexivity. }
        destruct piece as [|p piece]; [|assumption].
        destruct m as [|d m]; [|assumption].
        rewrite IH by assumption. reflexivity.
      * rewrite IH by assumption. rewrite <- app_assoc. reflexivity.
Qed.

Lemma visible_split r s : blank r -> visible (List.concat (split r s)) = visible s.
Proof.
  intros Hr. unfold split. destruct s as [|c s].
  - destruct (exec_at r []); reflexivity.
  - apply (visible_split_loop (2 * List.length (c :: s) + 1) [] (c :: s) Hr).
Qed.

End TextFacts.
Import TextFacts.

(* ------------------------------------------------------------------ *)
(** ** The loops over matches end *)

(** The loops below find their end before the fuel they are given runs
    out: more fuel changes nothing. *)

Lemma advance_shorter (r : regex) s before m rest skipped rest' :
  search r s = Some (before, m, rest) ->
  advance m rest = Some (skipped, rest') ->
  (List.length rest' < List.length s)%nat.
Proof.
  intros Hs Ha. apply search_sound in Hs as [-> _].
  rewrite !length_app. destruct m as [|c m]; cbn [advance] in Ha.
  - destruct rest as [|c rest]; [discriminate|]. injection Ha as _ <-. cbn. lia.
  - injection Ha as _ <-. cbn. lia.
Qed.

Lemma match_loop_fuel r : forall fuel fuel' s,
  (List.length s < fuel)%nat -> (List.length s < fuel')%nat ->
  match_loop fuel r s = match_loop fuel' r s.
Proof.
  induction fuel as [|fuel IH]; intros fuel' s H H'; [lia|].
  destruct fuel' as [|fuel']; [lia|]. cbn [match_loop].
  destruct (search r s) as [[[before m] rest]|] eqn:Es; [|reflexivity].
  destruct (advance m rest) as [[skipped rest']|] eqn:Ea; [|reflexivity].
  pose proof (advance_shorter _ _ Es Ea). f_equal. apply IH; lia.
Qed.

Lemma replace_loop_fuel r rep : forall fuel fuel' s,
  (List.length s < fuel)%nat -> (List.length s < fuel')%nat ->
  replace_loop fuel r rep s = replace_loop fuel' r rep s.
Proof.
  induction fuel as [|fuel IH]; intros fuel' s H H'; [lia|].
  destruct fuel' as [|fuel']; [lia|]. cbn [replace_loop].
  destruct (search r s) as [[[before m] rest]|] eqn:Es; [|reflexivity].
  destruct (advance m rest) as [[skipped rest']|] eqn:Ea; [|reflexivity].
  pose proof (advance_shorter _ _ Es Ea). do 3 f_equal. apply IH; lia.
Qed.

Lemma split_loop_fuel r : forall fuel fuel' piece s,
  (split_work piece s < fuel)%nat -> (split_work piece s < fuel')%nat ->
  split_loop fuel r piece s = split_loop fuel' r piece s.
Proof.
  induction fuel as [|fuel IH]; intros fuel' piece s H H'; [lia|].
  destruct fuel' as [|fuel']; [lia|]. cbn [split_loop].
  destruct s as [|c s]; [reflexivity|].
  unfold split_work in H, H'. cbn [List.length] in H, H'.
  destruct (exec_at r (c :: s)) as [rest|] eqn:E.
  - apply exec_at_sound in E as (m & Es & _ & Ec). rewrite Ec.
    assert (Hl : List.length (c :: s) = (List.length m + List.length rest)%nat)
      by (rewrite Es, length_app; reflexivity).
    cbn [List.length] in Hl.
    destruct piece as [|p piece]; destruct m as [|d m];
      try (f_equal; apply IH; unfold split_work; cbn [List.length] in *; lia).
    apply IH; unfold split_work; cbn [List.length] in *; lia.
  - apply IH; unfold split_work; rewrite ?length_app; cbn [List.length];
      destruct piece; cbn; lia.
Qed.

(* ------------------------------------------------------------------ *)
(** ** Sentences *)

Module SentenceFacts.

Lemma punct_visible c : is_punct c = true -> is_space c = false.
Proof.
  unfold is_punct. intros H.
  apply orb_prop in H as [H|H]; [apply orb_prop in H as [H|H]|];
    apply N.eqb_eq in H; subst; reflexivity.
Qed.

Lemma existsb_punct_visible m : existsb is_punct m = true -> visible m <> [].
Proof.
  induction m as [|c m IH]; cbn [existsb visible filter]; [discriminate|].
  intros H. destruct (is_punct c) eqn:E.
  - rewrite (punct_visible c E). discriminate.
  - destruct (negb (is_space c)); [discriminate|]. apply IH. assumption.
Qed.

(** A match of the sentence expression is not empty, and it holds a
    punctuation mark or runs to the end of the text. *)
Lemma sentence_match_shape m rest :
  matches re_sentence m rest ->
  m <> [] /\ (existsb is_punct m = true \/ rest = []).
Proof.
  intros [H|H]; cbn [matches] in H.
  - destruct H as (m1 & m23 & -> & [Hne1 _] & m2 & m3 & -> & [Hne2 Hp] & _).
    split; [destruct m1; [congruence | discriminate]|].
    left. rewrite !existsb_app.
    destruct m2 as [|c m2]; [congruence|]. cbn [forallb existsb] in *.
    apply andb_prop in Hp as [-> _]. cbn. apply orb_true_r.
  - destruct H as (m1 & m2 & -> & [Hne1 _] & [-> ->]).
    split; [destruct m1; [congruence | discriminate] | right; reflexivity].
Qed.

Lemma forallb_punct_or_not s :
  forallb is_punct s = true \/ existsb not_punct s = true.
Proof.
  induction s as [|c s [IH|IH]]; cbn [forallb existsb]; [left; reflexivity| |].
  - unfold not_punct. destruct (is_punct c); [left; assumption | right; reflexivity].
  - right. rewrite IH. apply orb_true_r.
Qed.

(** A text with a character other than [. ! ?] has a sentence: the last
    such character with the punctuation that follows it. *)
Lemma last_not_punct s :
  existsb not_punct s = true ->
  exists before c marks,
    s = before ++ c :: marks /\ not_punct c = true /\ forallb is_punct marks = true.
Proof.
  induction s as [|c s IH]; cbn [existsb]; [discriminate|]. intros H.
  destruct (forallb_punct_or_not s) as [Hs|Hs].
  - destruct (not_punct c) eqn:E.
    + exists [], c, s. auto.
    + cbn in H. destruct (IH H) as (b & d & mk & -> & Hd & Hmk).
      exists (c :: b), d, mk. auto.
  - destruct (IH Hs) as (b & d & mk & -> & Hd & Hmk).
    exists (c :: b), d, mk. auto.
Qed.

Lemma has_sentence s :
  existsb not_punct s = true ->
  exists before m, s = before ++ m ++ [] /\ matches re_sentence m [].
Proof.
  intros H. destruct (last_not_punct s H) as (before & c & marks & -> & Hc & Hmk).
  exists before, (c :: marks). rewrite app_nil_r. split; [reflexivity|].
  destruct marks as [|d marks].
  - right. exists [c], []. cbn. rewrite Hc. repeat split; congruence.
  - left. exists [c], (d :: marks). split; [reflexivity|]. split.
    + cbn. rewrite Hc. split; [congruence | reflexivity].
    + exists (d :: marks), []. rewrite app_nil_r. split; [reflexivity|].
      split; [split; [congruence | assumption]|]. right. split; reflexivity.
Qed.

Lemma match_g_some r s l :
  match_g r s = Some l ->
  exists before m rest l',
    l = m :: l' /\ s = before ++ m ++ rest /\ matches r m rest.
Proof.
  unfold match_g. cbn [match_loop].
  destruct (search r s) as [[[before m] rest]|] eqn:E; [|discriminate].
  intros H. injection H as <-. apply search_sound in E as [-> Hm].
  eauto 8.
Qed.

Lemma match_g_none r s : match_g r s = None -> search r s = None.
Proof.
  unfold match_g. cbn [match_loop].
  destruct (search r s) as [[[before m] rest]|]; [discriminate | reflexivity].
Qed.

(** The sentence expression finds nothing only in a text made of
    [. ! ?] alone. *)
Lemma no_sentence s :
  match_g re_sentence s = None -> forallb is_punct s = true.
Proof.
  intros H. apply match_g_none in H.
  destruct (forallb_punct_or_not s) as [Hs|Hs]; [assumption|].
  destruct (has_sentence s Hs) as (before & m & E & Hm).
  pose proof (search_complete re_sentence before _ _ Hm) as Hc.
  rewrite <- E in Hc. congruence.
Qed.

(** In a trimmed text the first sentence found has visible text. *)
Lemma first_sentence_visible s l :
  trim s <> [] ->
  match_g re_sentence (trim s) = Some l ->
  exists m l', l = m :: l' /\ trim m <> [].
Proof.
  intros Hne H. apply match_g_some in H as (before & m & rest & l' & -> & E & Hm).
  exists m, l'. split; [reflexivity|]. apply trim_visible.
  apply sentence_match_shape in Hm as [Hmne [Hp| ->]].
  - apply existsb_punct_visible. assumption.
  - rewrite app_nil_r in E.
    destruct (trim_last s Hne) as (t & c & Et & Hc). rewrite Et in E.
    destruct (exists_last Hmne) as (m0 & d & ->).
    rewrite app_assoc in E. apply app_inj_tail in E as [_ <-].
    rewrite visible_app. cbn [visible filter]. rewrite Hc. cbn.
    destruct (visible m0); discriminate.
Qed.

End SentenceFacts.
Import SentenceFacts.

(* ------------------------------------------------------------------ *)
(** ** Units *)

Section UnitFacts.

Variable cs : Z.
Hypothesis cs_pos : 0 < cs.

Lemma firstn_some (A : Type) (t : list A) n :
  (1 <= n)%nat -> t <> [] ->
  firstn n t <> [] /\ (List.length (firstn n t) <= n)%nat.
Proof.
  intros Hn Ht. split.
  - destruct n; [lia|]. destruct t; [congruence | discriminate].
  - rewrite length_firstn. lia.
Qed.

Lemma slice_fits (s : jsstring) i :
  0 <= i < len s -> (fits cs) (slice s i (i + cs)).
Proof.
  intros Hi. unfold fits, slice, clamp_index.
  destruct (i <? 0) eqn:E1; [lia|]. destruct (i + cs <? 0) eqn:E2; [lia|].
  unfold len in *.
  set (n := Z.to_nat (Z.max (Z.min (i + cs) (Z.of_nat (List.length s))
                             - Z.min i (Z.of_nat (List.length s))) 0)).
  assert (Hn : (1 <= n)%nat /\ Z.of_nat n <= cs) by (unfold n; lia).
  clearbody n.
  destruct (@firstn_some _ (skipn (Z.to_nat (Z.min i (Z.of_nat (List.length s)))) s) n)
    as [H1 H2]; [lia | | split; [assumption | lia]].
  intros E. apply (f_equal (@List.length _)) in E.
  rewrite length_skipn in E. cbn [List.length] in E. lia.
Qed.

Lemma hardSplit_total s : forall fuel i,
  0 <= i -> Z.max (len s - i) 0 < Z.of_nat fuel ->
  exists us, hardSplit cs fuel s i = Some us
             /\ Forall (fits cs) us /\ (i < len s -> us <> []).
Proof.
  induction fuel as [|fuel IH]; intros i Hi Hfuel.
  - lia.
  - cbn [hardSplit]. destruct (i <? len s) eqn:E.
    + destruct (IH (i + cs)) as (us & -> & Hus & _); [lia | lia |].
      eexists. split; [reflexivity|]. split; [|discriminate].
      constructor; [apply slice_fits; lia | assumption].
    + exists []. split; [reflexivity|]. split; [constructor | lia].
Qed.

Lemma sentenceUnits_total s :
  exists us, sentenceUnits cs s = Some us
             /\ Forall (fits cs) us /\ (trim s <> [] -> us <> []).
Proof.
  unfold sentenceUnits. destruct (trim s) as [|c t] eqn:E.
  - exists []. split; [reflexivity|]. split; [constructor | congruence].
  - destruct (len (c :: t) >? cs) eqn:Hlong.
    + destruct (@hardSplit_total (c :: t) (S (List.length (c :: t))) 0) as (us & -> & Hus & Hne).
      * lia.
      * unfold len. lia.
      * exists us. split; [reflexivity|]. split; [assumption|]. intros _.
        apply Hne. rewrite len_cons. pose proof (len_nonneg t). lia.
    + exists [c :: t]. split; [reflexivity|]. split; [|discriminate].
      constructor; [|constructor]. split; [discriminate | lia].
Qed.

Lemma sentencesUnits_total sentences :
  exists us, sentencesUnits cs sentences = Some us
             /\ Forall (fits cs) us
             /\ ((exists s, In s sentences /\ trim s <> []) -> us <> []).
Proof.
  induction sentences as [|s rest (us' & E' & Hus' & Hne')]; cbn [sentencesUnits].
  - exists []. split; [reflexivity|]. split; [constructor|]. intros (s & [] & _).
  - destruct (sentenceUnits_total s) as (us & -> & Hus & Hne). rewrite E'.
    exists (us ++ us'). split; [reflexivity|]. split; [apply Forall_app; auto|].
    intros (s0 & [<-|Hin] & Hs0).
    + specialize (Hne Hs0). destruct us; [congruence | discriminate].
    + assert (us' <> []) by (apply Hne'; eauto).
      destruct us; [assumption | discriminate].
Qed.

Lemma visible_trimmedP p : visible (trimmedP_of p) = visible p.
Proof.
  unfold trimmedP_of. rewrite visible_trim.
  apply visible_replace_g; [apply blank_spaces | reflexivity].
Qed.

(** The units of one paragraph: there are some as soon as the paragraph
    has visible text, none is empty, and none is longer than [chunkSize]
    unless the paragraph is taken whole because the sentence expression
    found nothing in it. *)
Lemma paragraphUnits_total p :
  exists us, paragraphUnits cs p = Some us
    /\ Forall (fun u => u <> []) us
    /\ (visible p <> [] -> us <> [])
    /\ ((forallb is_punct (trimmedP_of p) = true -> len (trimmedP_of p) <= cs) ->
        Forall (fits cs) us).
Proof.
  unfold paragraphUnits.
  assert (Hv : visible p <> [] -> trimmedP_of p <> []).
  { intros H E. rewrite <- visible_trimmedP, E in H. apply H. reflexivity. }
  destruct (trimmedP_of p) as [|c t] eqn:Ep.
  - exists []. split; [reflexivity|]. split; [constructor|].
    split; [intros H; destruct (Hv H eq_refl) | constructor].
  - destruct (2 * len (c :: t) <? cs) eqn:Hshort.
    + exists [c :: t]. split; [reflexivity|].
      split; [constructor; [discriminate | constructor]|].
      split; [discriminate|]. intros _.
      constructor; [|constructor]. split; [discriminate|].
      pose proof (len_nonneg (c :: t)). lia.
    + destruct (match_g re_sentence (c :: t)) as [sentences|] eqn:Em.
      * destruct (sentencesUnits_total sentences) as (us & -> & Hus & Hne).
        exists us. split; [reflexivity|].
        split; [eapply Forall_impl; [|exact Hus]; intros u [H _]; exact H|].
        split; [|auto]. intros _. apply Hne.
        unfold trimmedP_of in Ep. rewrite <- Ep in Em.
        destruct (first_sentence_visible (replace_g re_spaces (js " ") p)) with (l := sentences)
          as (m & l' & -> & Hm); [rewrite Ep; discriminate | assumption |].
        exists m. split; [left; reflexivity | assumption].
      * exists [c :: t]. split; [reflexivity|].
        split; [constructor; [discriminate | constructor]|].
        split; [discriminate|]. intros H.
        constructor; [|constructor]. split; [discriminate|].
        apply H. apply no_sentence. assumption.
Qed.

Lemma paragraphsUnits_total paragraphs :
  exists us, paragraphsUnits cs paragraphs = Some us
    /\ Forall (fun u => u <> []) us
    /\ ((exists p, In p paragraphs /\ visible p <> []) -> us <> [])
    /\ ((forall p, In p paragraphs ->
           forallb is_punct (trimmedP_of p) = true -> len (trimmedP_of p) <= cs) ->
        Forall (fits cs) us).
Proof.
  induction paragraphs as [|p rest (us' & E' & Hne' & Hv' & Hfit')]; cbn [paragraphsUnits].
  - exists []. split; [reflexivity|]. split; [constructor|].
    split; [intros (p & [] & _) | constructor].
  - destruct (paragraphUnits_total p) as (us & -> & Hne & Hv & Hfit). rewrite E'.
    exists (us ++ us'). split; [reflexivity|]. split; [apply Forall_app; auto|]. split.
    + intros (p0 & [<-|Hin] & Hp0).
      * specialize (Hv Hp0). destruct us; [congruence | discriminate].
      * assert (us' <> []) by (apply Hv'; eauto).
        destruct us; [assumption | discriminate].
    + intros H. apply Forall_app. split.
      * apply Hfit. apply H. left. reflexivity.
      * apply Hfit'. intros p0 Hin. apply H. right. assumption.
Qed.

Lemma visible_paragraphs text :
  visible (List.concat (paragraphs_of text)) = visible text.
Proof.
  unfold paragraphs_of. rewrite visible_split by apply blank_paragraph.
  apply visible_replace_g; [apply blank_crlf | reflexivity].
Qed.

(** [splitIntoUnits] returns; its units are not empty; a text with
    visible characters has at least one unit; and no unit is longer than
    [chunkSize] unless a paragraph longer than that is made of [. ! ?]
    alone. *)
Theorem splitIntoUnits_total text :
  exists units, splitIntoUnits cs text = Some units
    /\ Forall (fun u => u <> []) units
    /\ (visible text <> [] -> units <> [])
    /\ ((forall p, In p (paragraphs_of text) ->
           forallb is_punct (trimmedP_of p) = true -> len (trimmedP_of p) <= cs) ->
        Forall (fits cs) units).
Proof.
  unfold splitIntoUnits.
  destruct (paragraphsUnits_total (paragraphs_of text)) as (us & E & Hne & Hv & Hfit).
  exists us. split; [assumption|]. split; [assumption|]. split; [|assumption].
  intros H. apply Hv. apply visible_concat_some. rewrite visible_paragraphs. assumption.
Qed.

End UnitFacts.

(* ------------------------------------------------------------------ *)
(** ** Chunks *)

(** What [chunkText] returns for a text with visible characters. *)
Lemma chunkText_visible now sf cs ov text :
  visible text <> [] ->
  chunkText now sf cs ov text = option_map (buildChunks now sf cs ov) (splitIntoUnits cs text).
Proof.
  intros H. unfold chunkText. destruct text as [|c t]; [cbn in H; congruence|].
  destruct (len (trim (c :: t)) =? 0) eqn:E; [|reflexivity].
  apply Z.eqb_eq, len_zero in E. apply trim_visible in H. congruence.
Qed.

Lemma chunkText_blank now sf cs ov text :
  visible text = [] -> chunkText now sf cs ov text = Some [].
Proof.
  intros H. unfold chunkText. destruct text as [|c t]; [reflexivity|].
  destruct (trim (c :: t)) eqn:E; [reflexivity|].
  exfalso. apply (@trim_nonempty_visible (c :: t)); [rewrite E; discriminate | assumption].
Qed.

Lemma within_bound cs ov units g :
  0 <= ov -> Forall (fun u => len u <= cs) units ->
  within cs ov units g -> len (join (js " ") g) <= cs + ov + 1.
Proof.
  intros Hov Hall [H|(kept & u & Hk & Hl & Hu & ->)]; [lia|].
  rewrite join_app by (assumption || discriminate).
  rewrite !len_app, len_space. change (join (js " ") [u]) with u.
  rewrite Forall_forall in Hall. specialize (Hall u Hu). lia.
Qed.

Lemma total_len_last us : us <> [] -> len (last us []) + 1 <= total_len us.
Proof.
  induction us as [|u us IH]; [congruence|]. intros _.
  destruct us as [|v us].
  - cbn. lia.
  - change (last (u :: v :: us) []) with (last (v :: us) []).
    specialize (IH ltac:(discriminate)). cbn [total_len] in *.
    pose proof (len_nonneg u). lia.
Qed.

Lemma last_app_nonempty (A : Type) (l1 l2 : list A) d :
  l2 <> [] -> last (l1 ++ l2) d = last l2 d.
Proof.
  intros H. induction l1 as [|x l1 IH]; [reflexivity|].
  cbn [app]. rewrite <- IH. destruct (l1 ++ l2) eqn:E; [|reflexivity].
  apply app_eq_nil in E as [_ ->]. congruence.
Qed.

(** Nothing is kept exactly when the last unit of the closed chunk is
    longer than [overlap]. *)
Lemma keptUnits_nil ov g :
  g <> [] -> (keptUnits ov g = [] <-> ov < len (last g [])).
Proof.
  intros Hg. destruct (keptUnits_spec ov g) as (before & Hsplit & _ & Hk & Hb).
  split.
  - intros E. rewrite E in *. rewrite app_nil_r in Hsplit. subst before.
    specialize (Hb Hg). cbn [total_len] in Hb. lia.
  - intros Hlast. destruct (keptUnits ov g) as [|k ks] eqn:E; [reflexivity|].
    exfalso. specialize (Hk ltac:(discriminate)).
    rewrite join_len in Hk by discriminate.
    pose proof (@total_len_last (k :: ks) ltac:(discriminate)) as Hl.
    rewrite Hsplit in Hlast. rewrite last_app_nonempty in Hlast by discriminate.
    unfold jsstring, char in *. lia.
Qed.

Section TwoClocks.

Variables now1 now2 : clock.
Variable sf : jsstring.
Variables cs ov : Z.

Lemma addUnit_alike b1 b2 u :
  alike b1 b2 -> alike (addUnit now1 sf cs ov b1 u) (addUnit now2 sf cs ov b2 u).
Proof.
  intros (Hc & Hu & Hl). unfold addUnit. rewrite Hu, Hl.
  destruct ((currentChunkLength b2 + len u + 1 >? cs) && (len (currentChunkUnits b2) >? 0)).
  - destruct (overlapLoop ov (rev (currentChunkUnits b2)) [] 0) as [ovu ovl].
    unfold alike. cbn [chunks currentChunkUnits currentChunkLength].
    split; [|split; reflexivity].
    unfold pushChunk. rewrite !map_app, Hc, Hu. reflexivity.
  - unfold alike. cbn [chunks currentChunkUnits currentChunkLength]. auto.
Qed.

Lemma fold_addUnit_alike units : forall b1 b2,
  alike b1 b2 ->
  alike (fold_left (addUnit now1 sf cs ov) units b1)
        (fold_left (addUnit now2 sf cs ov) units b2).
Proof.
  induction units as [|u units IH]; intros b1 b2 H; [assumption|].
  cbn [fold_left]. apply IH, addUnit_alike, H.
Qed.

Lemma buildChunks_alike units :
  List.map tagged (buildChunks now1 sf cs ov units)
  = List.map tagged (buildChunks now2 sf cs ov units).
Proof.
  unfold buildChunks, flush.
  destruct (@fold_addUnit_alike units initial initial) as (Hc & Hu & Hl).
  { repeat split. }
  rewrite Hu. destruct (len (currentChunkUnits _) >? 0); [|assumption].
  unfold pushChunk. rewrite !map_app, Hc, Hu. reflexivity.
Qed.

Lemma addUnit_same_clock b u :
  (forall n, now1 n = now2 n) -> addUnit now1 sf cs ov b u = addUnit now2 sf cs ov b u.
Proof. intros H. unfold addUnit, pushChunk. rewrite H. reflexivity. Qed.

Lemma buildChunks_same_clock units :
  (forall n, now1 n = now2 n) ->
  buildChunks now1 sf cs ov units = buildChunks now2 sf cs ov units.
Proof.
  intros H. unfold buildChunks.
  assert (E : forall b, fold_left (addUnit now1 sf cs ov) units b
                        = fold_left (addUnit now2 sf cs ov) units b).
  { induction units as [|u us IH]; intros b; [reflexivity|].
    cbn [fold_left]. rewrite addUnit_same_clock by assumption. apply IH. }
  rewrite E. unfold flush, pushChunk. rewrite H. reflexivity.
Qed.

End TwoClocks.

(* ------------------------------------------------------------------ *)
(** ** Binary64 arithmetic *)

Module NumberFacts.

(** ** Digits *)

Lemma digits2_pos_bounds p :
  2 ^ (Zpos (digits2_pos p) - 1) <= Zpos p < 2 ^ Zpos (digits2_pos p).
Proof.
  induction p as [p IH|p IH|]; cbn [digits2_pos].
  - rewrite Pos2Z.inj_succ.
    replace (Z.succ (Zpos (digits2_pos p)) - 1) with (Z.succ (Zpos (digits2_pos p) - 1)) by lia.
    rewrite !Z.pow_succ_r by lia. lia.
  - rewrite Pos2Z.inj_succ.
    replace (Z.succ (Zpos (digits2_pos p)) - 1) with (Z.succ (Zpos (digits2_pos p) - 1)) by lia.
    rewrite !Z.pow_succ_r by lia. lia.
  - cbn. lia.
Qed.

Lemma Zdigits2_bounds m :
  0 < m -> 2 ^ (Zdigits2 m - 1) <= m < 2 ^ Zdigits2 m.
Proof. destruct m as [|p|p]; try lia. intros _. apply digits2_pos_bounds. Qed.

Lemma Zdigits2_pos m : 0 < m -> 0 < Zdigits2 m.
Proof. destruct m; cbn; lia. Qed.

(** ** Shifts *)

Lemma iter_xO m d : Zpos (Pos.iter xO m d) = Zpos m * 2 ^ Zpos d.
Proof.
  induction d as [|d IH] using Pos.peano_ind.
  - cbn. lia.
  - rewrite Pos.iter_succ, Pos2Z.inj_succ, Z.pow_succ_r by lia.
    rewrite Pos2Z.inj_xO, IH. lia.
Qed.

Lemma shl_align_value m e ez :
  ez <= e -> Zpos (fst (shl_align m e ez)) = Zpos m * 2 ^ (e - ez).
Proof.
  intros H. unfold shl_align.
  destruct (ez - e) as [|d|d] eqn:E; cbn [fst]; try lia.
  - replace (e - ez) with 0 by lia. lia.
  - rewrite iter_xO. f_equal. f_equal. lia.
Qed.

Lemma shl_align_exponent m e ez :
  snd (shl_align m e ez) = Z.min e ez.
Proof.
  unfold shl_align. destruct (ez - e) as [|d|d] eqn:E; cbn [snd]; lia.
Qed.

Lemma iter_pos_nat (A : Type) (f : A -> A) p : forall x,
  iter_pos f p x = Nat.iter (Pos.to_nat p) f x.
Proof.
  induction p as [p IH|p IH|]; intros x; cbn [iter_pos].
  - rewrite !IH, Pos2Nat.inj_xI.
    replace (S (2 * Pos.to_nat p))%nat
      with (Pos.to_nat p + (Pos.to_nat p + 1))%nat by lia.
    rewrite !Nat.iter_add. reflexivity.
  - rewrite !IH, Pos2Nat.inj_xO.
    replace (2 * Pos.to_nat p)%nat with (Pos.to_nat p + Pos.to_nat p)%nat by lia.
    rewrite Nat.iter_add. reflexivity.
  - reflexivity.
Qed.

Lemma shr_1_m mrs : 0 <= shr_m mrs -> shr_m (shr_1 mrs) = shr_m mrs / 2.
Proof.
  destruct mrs as [m r s]. cbn [shr_m]. intros H.
  destruct m as [|[p|p|]|p]; cbn [shr_1 shr_m]; try lia; try reflexivity.
  - apply Z.div_unique with 1; lia.
  - apply Z.div_unique with 0; lia.
Qed.

Lemma shr_iter_m n : forall mrs,
  0 <= shr_m mrs -> shr_m (Nat.iter n shr_1 mrs) = shr_m mrs / 2 ^ Z.of_nat n.
Proof.
  induction n as [|n IH]; intros mrs H.
  - cbn. rewrite Z.div_1_r. reflexivity.
  - rewrite Nat.iter_succ, shr_1_m.
    + rewrite IH by assumption. rewrite Nat2Z.inj_succ, Z.pow_succ_r by lia.
      rewrite Z.div_div by lia. f_equal. lia.
    + rewrite IH by assumption. apply Z.div_pos; lia.
Qed.

Lemma shr_record_of_loc_m m l : shr_m (shr_record_of_loc m l) = m.
Proof. destruct l as [|[]]; reflexivity. Qed.

(** [shr] on a mantissa that is not negative: a division by a power of
    two. *)
Lemma shr_m_value mrs e n :
  0 <= shr_m mrs ->
  shr_m (fst (shr mrs e n)) = shr_m mrs / 2 ^ Z.max n 0
  /\ snd (shr mrs e n) = e + Z.max n 0.
Proof.
  intros H. unfold shr. destruct n as [|p|p]; cbn [fst snd].
  - cbn. rewrite Z.div_1_r. lia.
  - rewrite iter_pos_nat, shr_iter_m by assumption.
    rewrite positive_nat_Z. rewrite Z.max_l by lia. lia.
  - cbn. rewrite Z.div_1_r. lia.
Qed.

Lemma Zdigits2_nonneg m : 0 <= Zdigits2 m.
Proof. destruct m; cbn; lia. Qed.

Lemma Zdigits2_unique m k :
  2 ^ (k - 1) <= m < 2 ^ k -> 0 < m -> Zdigits2 m = k.
Proof.
  intros [Hlo Hhi] Hm.
  pose proof (Zdigits2_bounds Hm) as [Hl Hu].
  pose proof (Zdigits2_pos Hm) as Hd.
  destruct (Z.lt_trichotomy (Zdigits2 m) k) as [H|[H|H]]; [|assumption|].
  - assert (2 ^ Zdigits2 m <= 2 ^ (k - 1)) by (apply Z.pow_le_mono_r; lia). lia.
  - assert (0 <= k).
    { destruct (Z.le_gt_cases 0 k); [assumption|].
      rewrite (Z.pow_neg_r 2 k) in Hhi by lia. lia. }
    assert (2 ^ k <= 2 ^ (Zdigits2 m - 1)) by (apply Z.pow_le_mono_r; lia). lia.
Qed.

Lemma Zdigits2_mono a b : 0 <= a <= b -> Zdigits2 a <= Zdigits2 b.
Proof.
  intros [Ha Hab]. destruct (Z.eq_dec a 0) as [->|Hne]; [apply Zdigits2_nonneg|].
  pose proof (@Zdigits2_bounds a ltac:(lia)) as [Hl _].
  pose proof (@Zdigits2_bounds b ltac:(lia)) as [_ Hu].
  pose proof (@Zdigits2_pos b ltac:(lia)).
  destruct (Z.le_gt_cases (Zdigits2 a) (Zdigits2 b)) as [|H']; [assumption|].
  assert (2 ^ Zdigits2 b <= 2 ^ (Zdigits2 a - 1)) by (apply Z.pow_le_mono_r; lia). lia.
Qed.

(** The digits of a quotient by a power of two. *)
Lemma Zdigits2_shr m n :
  0 < m -> 0 <= n ->
  Zdigits2 (m / 2 ^ n) = Z.max (Zdigits2 m - n) 0.
Proof.
  intros Hm Hn.
  pose proof (Zdigits2_bounds Hm) as [Hl Hu].
  pose proof (Zdigits2_pos Hm) as Hd.
  assert (Hp : 0 < 2 ^ n) by (apply Z.pow_pos_nonneg; lia).
  destruct (Z.le_gt_cases (Zdigits2 m) n) as [H|H].
  - assert (Hle : 2 ^ Zdigits2 m <= 2 ^ n) by (apply Z.pow_le_mono_r; lia).
    rewrite Z.div_small by lia. rewrite Z.max_r by lia. reflexivity.
  - rewrite Z.max_l by lia.
    assert (E1 : 2 ^ (Zdigits2 m - 1) = 2 ^ (Zdigits2 m - n - 1) * 2 ^ n).
    { rewrite <- Z.pow_add_r by lia. f_equal. lia. }
    assert (E2 : 2 ^ Zdigits2 m = 2 ^ (Zdigits2 m - n) * 2 ^ n).
    { rewrite <- Z.pow_add_r by lia. f_equal. lia. }
    assert (Hq1 : 2 ^ (Zdigits2 m - n - 1) <= m / 2 ^ n).
    { apply Z.div_le_lower_bound; [assumption|]. lia. }
    assert (Hq2 : m / 2 ^ n < 2 ^ (Zdigits2 m - n)).
    { apply Z.div_lt_upper_bound; [assumption|]. lia. }
    apply Zdigits2_unique; [lia|].
    assert (0 < 2 ^ (Zdigits2 m - n - 1)) by (apply Z.pow_pos_nonneg; lia). lia.
Qed.

(** ** Rounding keeps the sign *)

Lemma shr_fexp_value m e l :
  0 <= m ->
  shr_m (fst (shr_fexp prec emax m e l))
  = m / 2 ^ Z.max (fexp prec emax (Zdigits2 m + e) - e) 0
  /\ snd (shr_fexp prec emax m e l)
     = e + Z.max (fexp prec emax (Zdigits2 m + e) - e) 0.
Proof.
  intros H. unfold shr_fexp.
  pose proof (@shr_m_value (shr_record_of_loc m l) e
                (fexp prec emax (Zdigits2 m + e) - e)) as Hs.
  rewrite shr_record_of_loc_m in Hs. apply Hs. assumption.
Qed.

Lemma shr_fexp_pos m e l :
  0 < m -> emin prec emax <= e ->
  0 < shr_m (fst (shr_fexp prec emax m e l))
  /\ emin prec emax <= snd (shr_fexp prec emax m e l).
Proof.
  intros Hm He.
  destruct (@shr_fexp_value m e l) as [-> ->]; [lia|].
  pose proof (Zdigits2_bounds Hm) as [Hlo _].
  pose proof (Zdigits2_pos Hm) as Hd.
  set (n := Z.max (fexp prec emax (Zdigits2 m + e) - e) 0).
  assert (Hn : 0 <= n <= Zdigits2 m - 1).
  { unfold n, fexp, emin, prec, emax in *. lia. }
  split; [|lia].
  apply Z.div_str_pos. split; [apply Z.pow_pos_nonneg; lia|].
  etransitivity; [|exact Hlo]. apply Z.pow_le_mono_r; lia.
Qed.

Lemma round_nearest_even_bounds m l :
  m <= round_nearest_even m l <= m + 1.
Proof.
  unfold round_nearest_even. destruct l as [|[]]; try lia.
  destruct (Z.even m); lia.
Qed.

Lemma binary_round_aux_pos m e l :
  0 < m -> emin prec emax <= e ->
  ltb zero (binary_round_aux prec emax false m e l) = true.
Proof.
  intros Hm He. unfold binary_round_aux.
  pose proof (@shr_fexp_pos m e l Hm He) as [H1 H2].
  destruct (shr_fexp prec emax m e l) as [mrs' e']. cbn [fst snd] in H1, H2.
  pose proof (round_nearest_even_bounds (shr_m mrs') (loc_of_shr_record mrs')) as Hr.
  pose proof (@shr_fexp_pos (round_nearest_even (shr_m mrs') (loc_of_shr_record mrs'))
                e' loc_Exact ltac:(lia) H2) as [H3 _].
  destruct (shr_fexp prec emax _ e' loc_Exact) as [mrs'' e'']. cbn [fst] in H3.
  destruct (shr_m mrs'') as [|p|p]; try lia.
  destruct (e'' <=? emax - prec); reflexivity.
Qed.

Lemma binary_normalize_pos d e :
  0 < d -> emin prec emax <= e ->
  ltb zero (binary_normalize prec emax d e false) = true.
Proof.
  intros Hd He. destruct d as [|m|m]; try lia.
  cbn [binary_normalize]. unfold binary_round.
  pose proof (shl_align_exponent m e (fexp prec emax (Zpos (digits2_pos m) + e))) as Hs.
  destruct (shl_align m e _) as [mz ez]. cbn [snd] in Hs.
  apply binary_round_aux_pos; [lia|].
  unfold fexp, emin, prec, emax in *. lia.
Qed.

Lemma binary_normalize_nonpos d e :
  d <= 0 -> ltb zero (binary_normalize prec emax d e false) = false.
Proof.
  intros Hd. destruct d as [|m|m]; try lia; [reflexivity|].
  cbn [binary_normalize]. unfold binary_round, binary_round_aux.
  destruct (shl_align m e _) as [mz ez].
  destruct (shr_fexp prec emax (Zpos mz) ez loc_Exact) as [mrs' e'].
  destruct (shr_fexp prec emax _ e' loc_Exact) as [mrs'' e''].
  destruct (shr_m mrs''); [reflexivity | | reflexivity].
  destruct (e'' <=? emax - prec); reflexivity.
Qed.

(** ** Rounding returns well-formed numbers *)

Lemma shr_fexp_settled m e l :
  0 <= m -> e <= fexp prec emax (Zdigits2 m + e) ->
  settled (shr_m (fst (shr_fexp prec emax m e l))) (snd (shr_fexp prec emax m e l)).
Proof.
  intros Hm He.
  destruct (@shr_fexp_value m e l Hm) as [-> ->].
  rewrite Z.max_l by lia.
  set (n := fexp prec emax (Zdigits2 m + e) - e) in *.
  assert (Hn : 0 <= n) by (unfold n; lia).
  split; [apply Z.div_pos; [lia | apply Z.pow_pos_nonneg; lia]|].
  destruct (Z.eq_dec m 0) as [->|Hne].
  - rewrite Z.div_0_l by (apply Z.pow_nonzero; lia).
    unfold n, fexp, emin, prec, emax in *. cbn [Zdigits2] in *. lia.
  - rewrite Zdigits2_shr by lia.
    pose proof (@Zdigits2_pos m ltac:(lia)).
    unfold n, fexp, emin, prec, emax in *. lia.
Qed.

Lemma binary_round_aux_valid s m e l :
  0 <= m -> e <= fexp prec emax (Zdigits2 m + e) ->
  valid_binary prec emax (binary_round_aux prec emax s m e l) = true.
Proof.
  intros Hm He. unfold binary_round_aux.
  pose proof (@shr_fexp_settled m e l Hm He) as [H1 H2].
  destruct (shr_fexp prec emax m e l) as [mrs' e']. cbn [fst snd] in H1, H2.
  pose proof (round_nearest_even_bounds (shr_m mrs') (loc_of_shr_record mrs')) as Hr.
  set (m2 := round_nearest_even (shr_m mrs') (loc_of_shr_record mrs')) in *.
  assert (Hd : Zdigits2 (shr_m mrs') <= Zdigits2 m2) by (apply Zdigits2_mono; lia).
  pose proof (@shr_fexp_settled m2 e' loc_Exact ltac:(lia)) as [H3 H4].
  { unfold fexp, emin, prec, emax in *. lia. }
  destruct (shr_fexp prec emax m2 e' loc_Exact) as [mrs'' e'']. cbn [fst snd] in H3, H4.
  destruct (shr_m mrs'') as [|p|p] eqn:Ep; try reflexivity.
  destruct (e'' <=? emax - prec) eqn:El; [|reflexivity].
  cbn [valid_binary]. unfold bounded, canonical_mantissa.
  cbn [Zdigits2] in H4. rewrite H4, Z.eqb_refl, El. reflexivity.
Qed.

Lemma div_valid x y : valid_binary prec emax (div x y) = true.
Proof.
  destruct x as [sx|sx| |sx mx ex]; destruct y as [sy|sy| |sy my ey]; try reflexivity.
  unfold div, SFdiv, SFdiv_core_binary.
  set (d1 := Zdigits2 (Zpos mx)). set (d2 := Zdigits2 (Zpos my)).
  set (e' := Z.min (fexp prec emax (d1 + ex - (d2 + ey))) (ex - ey)).
  set (m' := match ex - ey - e' with
             | 0 => Zpos mx
             | Zpos _ => Z.shiftl (Zpos mx) (ex - ey - e')
             | Zneg _ => 0
             end).
  assert (Hs : 0 <= ex - ey - e') by (unfold e'; lia).
  assert (Hm' : m' = Zpos mx * 2 ^ (ex - ey - e')).
  { unfold m'. destruct (ex - ey - e') as [|p|p] eqn:E; try lia.
    rewrite Z.shiftl_mul_pow2 by lia. reflexivity. }
  pose proof (Z_div_mod m' (Zpos my) ltac:(lia)) as Hdm.
  assert (Hq : fst (Z.div_eucl m' (Zpos my)) = m' / Zpos my) by reflexivity.
  destruct (Z.div_eucl m' (Zpos my)) as [q r]. cbn [fst] in Hq. subst q.
  assert (Hpow : 0 < 2 ^ (ex - ey - e')) by (apply Z.pow_pos_nonneg; lia).
  assert (Hq0 : 0 <= m' / Zpos my) by (apply Z.div_pos; nia).
  apply binary_round_aux_valid; [assumption|].
  destruct (Z.le_gt_cases e' (emin prec emax)) as [Hlow|Hhigh].
  { unfold fexp, emin, prec, emax in *. lia. }
  assert (Hsh : prec + d2 - d1 <= ex - ey - e').
  { unfold e', fexp, emin, prec, emax in *. lia. }
  pose proof (digits2_pos_bounds mx) as [Hlx _].
  pose proof (digits2_pos_bounds my) as [_ Huy].
  fold (Zdigits2 (Zpos mx)) in Hlx. fold (Zdigits2 (Zpos my)) in Huy.
  fold d1 in Hlx. fold d2 in Huy.
  assert (Hd1 : 0 < d1) by (unfold d1; cbn; lia).
  assert (Hd2 : 0 < d2) by (unfold d2; cbn; lia).
  assert (Hbig : 2 ^ (prec - 1) <= m' / Zpos my).
  { apply Z.div_le_lower_bound; [lia|].
    assert (Hle : 2 ^ (prec - 1 + d2) <= 2 ^ (d1 - 1 + (ex - ey - e')))
      by (apply Z.pow_le_mono_r; lia).
    rewrite Z.pow_add_r in Hle by (unfold prec; lia).
    rewrite Z.pow_add_r in Hle by lia.
    assert (0 < 2 ^ (prec - 1)) by (apply Z.pow_pos_nonneg; unfold prec; lia).
    rewrite Hm'. nia. }
  assert (Hdq : prec <= Zdigits2 (m' / Zpos my)).
  { change prec with (Zdigits2 (2 ^ (prec - 1))) at 1. apply Zdigits2_mono.
    split; [apply Z.pow_nonneg; lia | assumption]. }
  unfold fexp, emin, prec, emax in *. lia.
Qed.

(** ** Canonical mantissas and the order of finite numbers *)

Lemma bounded_canonical m e :
  bounded prec emax m e = true ->
  emin prec emax <= e
  /\ Zpos (digits2_pos m) <= prec
  /\ (emin prec emax < e -> Zpos (digits2_pos m) = prec).
Proof.
  unfold bounded, canonical_mantissa. intros H.
  apply andb_prop in H as [H _]. apply Z.eqb_eq in H.
  unfold fexp, emin, prec, emax in *. lia.
Qed.

(** Two canonical mantissas brought to the smaller exponent compare as the
    exponents do, and as the mantissas when the exponents are equal. *)
Lemma aligned_compare mx ex my ey :
  bounded prec emax mx ex = true -> bounded prec emax my ey = true ->
  (Zpos mx * 2 ^ (ex - Z.min ex ey) ?= Zpos my * 2 ^ (ey - Z.min ex ey))
  = match ex ?= ey with
    | Lt => Lt
    | Gt => Gt
    | Eq => Pos.compare_cont Eq mx my
    end.
Proof.
  intros Hx Hy.
  apply bounded_canonical in Hx as (Hex & Hdx & Hnx).
  apply bounded_canonical in Hy as (Hey & Hdy & Hny).
  pose proof (digits2_pos_bounds mx) as [Hlx Hux].
  pose proof (digits2_pos_bounds my) as [Hly Huy].
  assert (Hp : forall d, Zpos d <= prec -> 2 ^ Zpos d <= 2 ^ prec).
  { intros d Hd. apply Z.pow_le_mono_r; lia. }
  destruct (Z.compare_spec ex ey) as [E|E|E].
  - subst ey. rewrite Z.min_id, Z.sub_diag. cbn [Z.pow]. rewrite !Z.mul_1_r.
    reflexivity.
  - rewrite Z.min_l, Z.sub_diag by lia. cbn [Z.pow]. rewrite Z.mul_1_r.
    apply Z.compare_lt_iff. specialize (Hny ltac:(lia)). rewrite Hny in Hly.
    specialize (Hp _ Hdx).
    assert (H2 : 2 ^ 1 <= 2 ^ (ey - ex)) by (apply Z.pow_le_mono_r; lia).
    replace (2 ^ prec) with (2 ^ (prec - 1) * 2) in Hp by reflexivity.
    change (2 ^ 1) with 2 in H2. nia.
  - rewrite Z.min_r, Z.sub_diag by lia. cbn [Z.pow]. rewrite Z.mul_1_r.
    apply Z.compare_gt_iff. specialize (Hnx ltac:(lia)). rewrite Hnx in Hlx.
    specialize (Hp _ Hdy).
    assert (H2 : 2 ^ 1 <= 2 ^ (ex - ey)) by (apply Z.pow_le_mono_r; lia).
    replace (2 ^ prec) with (2 ^ (prec - 1) * 2) in Hp by reflexivity.
    change (2 ^ 1) with 2 in H2. nia.
Qed.

(** [y - x > 0] exactly when [x < y]: the comparator of the sort reads
    the order of the scores off the sign of their difference. *)
Lemma sub_positive x y :
  ordinary x -> ordinary y -> ltb zero (sub y x) = ltb x y.
Proof.
  intros [Vx Nx] [Vy Ny].
  destruct x as [sx|sx| |sx mx ex]; try discriminate;
    destruct y as [sy|sy| |sy my ey]; try discriminate;
    try (destruct sx; destruct sy; reflexivity);
    try (destruct sx; reflexivity); try (destruct sy; reflexivity).
  cbn [valid_binary] in Vx, Vy.
  pose proof (aligned_compare _ _ _ _ Vx Vy) as Hc.
  pose proof (bounded_canonical _ _ Vx) as (Hex & _).
  pose proof (bounded_canonical _ _ Vy) as (Hey & _).
  unfold sub, SFsub.
  rewrite !shl_align_value by lia.
  rewrite (Z.min_comm ey ex).
  set (X := Zpos mx * 2 ^ (ex - Z.min ex ey)) in *.
  set (Y := Zpos my * 2 ^ (ey - Z.min ex ey)) in *.
  assert (HX : 0 < X) by (apply Z.mul_pos_pos; [lia | apply Z.pow_pos_nonneg; lia]).
  assert (HY : 0 < Y) by (apply Z.mul_pos_pos; [lia | apply Z.pow_pos_nonneg; lia]).
  clearbody X Y.
  assert (Hd : (0 <? cond_Zopp sy Y - cond_Zopp sx X)
               = ltb (S754_finite sx mx ex) (S754_finite sy my ey)).
  { unfold ltb, SFltb, SFcompare.
    destruct sx, sy; cbn [cond_Zopp].
    - destruct (ex ?= ey); [destruct (Pos.compare_cont Eq mx my)| |];
        cbn [CompOpp];
        read_compare Hc; lia.
    - lia.
    - lia.
    - destruct (ex ?= ey); [destruct (Pos.compare_cont Eq mx my)| |];
        read_compare Hc; lia. }
  rewrite <- Hd.
  destruct (0 <? cond_Zopp sy Y - cond_Zopp sx X) eqn:E.
  - apply binary_normalize_pos; lia.
  - apply binary_normalize_nonpos; lia.
Qed.

(** ** The order of numbers *)

Lemma lex_spec a b : CompareSpec (a = b) (lexlt a b) (lexlt b a) (lex a b).
Proof.
  destruct a as [[a1 a2] a3], b as [[b1 b2] b3]. unfold lex, lexlt.
  destruct (Z.compare_spec a1 b1); [|constructor; lia|constructor; lia].
  destruct (Z.compare_spec a2 b2); [|constructor; lia|constructor; lia].
  destruct (Z.compare_spec a3 b3); constructor; try lia. congruence.
Qed.

Lemma SFcompare_rank x y :
  SFcompare x y
  = if is_nan x || is_nan y then None else Some (lex (rank x) (rank y)).
Proof.
  destruct x as [sx|sx| |sx mx ex]; destruct y as [sy|sy| |sy my ey];
    try reflexivity;
    try (destruct sx; destruct sy; reflexivity);
    try (destruct sx; reflexivity); try (destruct sy; reflexivity).
  destruct sx, sy; cbn [SFcompare is_nan orb rank lex]; try reflexivity.
  rewrite Z.compare_opp, (Z.compare_antisym ex ey).
  change (-1 ?= -1) with Eq. cbn match.
  destruct (ex ?= ey); reflexivity.
Qed.

Lemma ltb_rank x y :
  ltb x y = true <-> is_nan x = false /\ is_nan y = false /\ lexlt (rank x) (rank y).
Proof.
  unfold ltb, SFltb. rewrite SFcompare_rank.
  destruct (is_nan x), (is_nan y); cbn [orb];
    try (split; [discriminate | intros (? & ? & _); discriminate]).
  destruct (lex_spec (rank x) (rank y)) as [E|L|G].
  - split; [discriminate|]. intros (_ & _ & H). rewrite E in H.
    destruct (rank y) as [[? ?] ?]. cbn in H. lia.
  - tauto.
  - split; [discriminate|]. intros (_ & _ & H).
    destruct (rank x) as [[? ?] ?], (rank y) as [[? ?] ?]. cbn in *. lia.
Qed.

Lemma leb_rank x y :
  leb x y = true
  <-> is_nan x = false /\ is_nan y = false /\ ~ lexlt (rank y) (rank x).
Proof.
  unfold leb, SFleb. rewrite SFcompare_rank.
  destruct (is_nan x), (is_nan y); cbn [orb];
    try (split; [discriminate | intros (? & ? & _); discriminate]).
  destruct (lex_spec (rank x) (rank y)) as [E|L|G].
  - split; [|reflexivity]. intros _. split; [reflexivity|]. split; [reflexivity|].
    rewrite E. destruct (rank y) as [[? ?] ?]. cbn. lia.
  - split; [|reflexivity]. intros _. split; [reflexivity|]. split; [reflexivity|].
    destruct (rank x) as [[? ?] ?], (rank y) as [[? ?] ?]. cbn in *. lia.
  - split; [discriminate|]. intros (_ & _ & H). contradiction.
Qed.

Lemma eqb_rank x y :
  eqb x y = true <-> is_nan x = false /\ is_nan y = false /\ rank x = rank y.
Proof.
  unfold eqb, SFeqb. rewrite SFcompare_rank.
  destruct (is_nan x), (is_nan y); cbn [orb];
    try (split; [discriminate | intros (? & ? & _); discriminate]).
  destruct (lex_spec (rank x) (rank y)) as [E|L|G].
  - tauto.
  - split; [discriminate|]. intros (_ & _ & E). rewrite E in L.
    destruct (rank y) as [[? ?] ?]. cbn in L. lia.
  - split; [discriminate|]. intros (_ & _ & E). rewrite E in G.
    destruct (rank y) as [[? ?] ?]. cbn in G. lia.
Qed.

(** Of two numbers that are not NaN, one is at most the other. *)
Lemma leb_total x y :
  is_nan x = false -> is_nan y = false -> ltb x y = false -> leb y x = true.
Proof.
  intros Nx Ny H. apply leb_rank. split; [assumption|]. split; [assumption|].
  intros L. assert (ltb x y = true) by (apply ltb_rank; auto). congruence.
Qed.

Lemma ltb_leb x y : ltb x y = true -> leb x y = true.
Proof.
  unfold ltb, leb, SFltb, SFleb. destruct (SFcompare x y) as [[]|]; congruence.
Qed.

Lemma leb_trans x y z : leb x y = true -> leb y z = true -> leb x z = true.
Proof.
  rewrite !leb_rank. intros (Nx & Ny & H1) (_ & Nz & H2).
  split; [assumption|]. split; [assumption|].
  destruct (rank x) as [[? ?] ?], (rank y) as [[? ?] ?], (rank z) as [[? ?] ?].
  cbn in *. lia.
Qed.

(** A number below another is not equal to what the other is equal to. *)
Lemma ltb_not_eqb x y s : ltb x y = true -> eqb x s = true -> eqb y s = false.
Proof.
  rewrite ltb_rank, eqb_rank. intros (_ & _ & L) (_ & _ & E).
  destruct (eqb y s) eqn:H; [|reflexivity].
  apply eqb_rank in H as (_ & _ & E'). rewrite E, E' in L.
  destruct (rank s) as [[? ?] ?]. cbn in L. lia.
Qed.

End NumberFacts.
Import NumberFacts.

(* ------------------------------------------------------------------ *)
(** ** Scoring, sorting and slicing *)

Lemma cosineSimilarity_mismatch vecA vecB :
  List.length vecA <> List.length vecB ->
  cosineSimilarity vecA vecB = inl DimensionMismatch.
Proof.
  intros H. unfold cosineSimilarity.
  apply Nat.eqb_neq in H. rewrite H. reflexivity.
Qed.

Lemma cosineSimilarity_returns vecA vecB :
  List.length vecA = List.length vecB ->
  exists s, cosineSimilarity vecA vecB = inr s.
Proof.
  intros H. unfold cosineSimilarity.
  apply Nat.eqb_eq in H. rewrite H. cbn [negb].
  destruct (fold_left accumulate (combine vecA vecB) (zero, zero, zero)) as [[d na] nb].
  destruct (eqb na zero || eqb nb zero); eauto.
Qed.

Lemma scoreChunks_mismatch q chunks c :
  In c chunks -> List.length (embedding c) <> List.length q ->
  scoreChunks q chunks = inl DimensionMismatch.
Proof.
  induction chunks as [|d chunks IH]; intros Hin Hlen; [destruct Hin|].
  cbn [scoreChunks].
  destruct (Nat.eq_dec (List.length q) (List.length (embedding d))) as [E|E].
  - destruct (cosineSimilarity_returns _ _ E) as (s & ->).
    destruct Hin as [->|Hin]; [congruence|]. rewrite (IH Hin Hlen). reflexivity.
  - rewrite (cosineSimilarity_mismatch _ _ E). reflexivity.
Qed.

(** What [scoreChunks] returns: the chunks in order, each with its score. *)
Lemma scoreChunks_spec q chunks scored :
  scoreChunks q chunks = inr scored ->
  List.map chunk scored = chunks
  /\ Forall (fun x => cosineSimilarity q (embedding (chunk x)) = inr (score x)) scored.
Proof.
  revert scored. induction chunks as [|c chunks IH]; intros scored H; cbn [scoreChunks] in H.
  - injection H as <-. split; constructor.
  - destruct (cosineSimilarity q (embedding c)) as [e|s] eqn:Es; [discriminate|].
    destruct (scoreChunks q chunks) as [e|l]; [discriminate|].
    injection H as <-. destruct (IH l eq_refl) as [Hm Hf].
    cbn [List.map chunk]. rewrite Hm. split; [reflexivity|].
    constructor; [cbn; assumption | assumption].
Qed.

Lemma scoreChunks_returns q chunks :
  (forall c, In c chunks -> List.length (embedding c) = List.length q) ->
  exists scored, scoreChunks q chunks = inr scored.
Proof.
  induction chunks as [|c chunks IH]; intros H; cbn [scoreChunks]; [eauto|].
  destruct (@cosineSimilarity_returns q (embedding c)) as (s & ->).
  { symmetry. apply H. left. reflexivity. }
  destruct IH as (l & ->); [intros d Hd; apply H; right; assumption|]. eauto.
Qed.

Lemma scoreChunks_dimension q chunks scored c :
  scoreChunks q chunks = inr scored -> In c chunks ->
  List.length (embedding c) = List.length q.
Proof.
  intros H Hin.
  destruct (Nat.eq_dec (List.length (embedding c)) (List.length q)) as [E|E]; [assumption|].
  rewrite (scoreChunks_mismatch _ _ _ Hin E) in H. discriminate.
Qed.

Section SortFacts.
Variable A : Type.
Variable comparefn : A -> A -> number.

Lemma insert_perm x l : Permutation (insert comparefn x l) (x :: l).
Proof.
  induction l as [|y l IH]; cbn [insert]; [reflexivity|].
  destruct (after comparefn x y); [|reflexivity].
  rewrite IH. apply perm_swap.
Qed.

Lemma sort_perm l : Permutation (sort comparefn l) l.
Proof.
  induction l as [|x l IH]; cbn [sort fold_right]; [reflexivity|].
  rewrite insert_perm. constructor. exact IH.
Qed.
End SortFacts.

(** [slice(0, k)] is a prefix; for [k >= 0] it holds the first [k]
    elements. *)
Lemma slice_prefix (A : Type) (l : list A) k :
  exists n, slice l 0 k = firstn n l.
Proof.
  unfold slice, clamp_index. cbn [Z.ltb Z.compare].
  rewrite (Z.min_l 0) by apply len_nonneg. cbn [Z.to_nat skipn].
  eexists. reflexivity.
Qed.

Lemma slice_firstn (A : Type) (l : list A) k :
  0 <= k -> slice l 0 k = firstn (Z.to_nat k) l.
Proof.
  intros Hk. unfold slice, clamp_index.
  destruct (k <? 0) eqn:E; [lia|]. cbn [Z.ltb Z.compare].
  rewrite (Z.min_l 0) by apply len_nonneg. cbn [Z.to_nat skipn].
  rewrite Z.sub_0_r. pose proof (len_nonneg l) as Hl. unfold len in *.
  destruct (Z.le_ge_cases k (Z.of_nat (List.length l))) as [H|H].
  - rewrite Z.min_l, Z.max_l by lia. reflexivity.
  - rewrite Z.min_r, Z.max_l by lia. rewrite Nat2Z.id.
    rewrite firstn_all, firstn_all2 by lia. reflexivity.
Qed.

Lemma findRelevantChunks_prefix q base k res :
  findRelevantChunks q base k = inr res ->
  exists n perm, Permutation perm base /\ res = firstn n perm.
Proof.
  unfold findRelevantChunks. intros H.
  destruct (scoreChunks q base) as [e|scored] eqn:Es; [discriminate|].
  injection H as <-. apply scoreChunks_spec in Es as [Hm _].
  destruct (slice_prefix (sort byScoreDescending scored) k) as (n & ->).
  exists n, (List.map chunk (sort byScoreDescending scored)). split.
  - rewrite <- Hm. apply Permutation_map, sort_perm.
  - symmetry. apply firstn_map.
Qed.

Lemma in_firstn (A : Type) (x : A) n l : In x (firstn n l) -> In x l.
Proof.
  intros H. rewrite <- (firstn_skipn n l). apply in_or_app. left. assumption.
Qed.

Lemma occurrences_firstn n l c : (occurrences (firstn n l) c <= occurrences l c)%nat.
Proof.
  unfold occurrences. rewrite <- (firstn_skipn n l) at 2.
  rewrite count_occ_app. lia.
Qed.

Lemma eqb_zero x : eqb x zero = true -> exists s, x = S754_zero s.
Proof.
  destruct x as [s|s| |s m e]; cbn; try discriminate; eauto; destruct s; discriminate.
Qed.

Lemma square_zero x : eqb x zero = true -> add zero (mul x x) = zero.
Proof. intros H. apply eqb_zero in H as (s & ->). destruct s; reflexivity. Qed.

Lemma norms_of_zero_vectors l : forall d na nb,
  let '(_, na', nb') := fold_left accumulate l (d, na, nb) in
  (forallb (fun ab => eqb (fst ab) zero) l = true -> na = zero -> na' = zero)
  /\ (forallb (fun ab => eqb (snd ab) zero) l = true -> nb = zero -> nb' = zero).
Proof.
  induction l as [|[a b] l IH]; intros d na nb; cbn [fold_left].
  - split; auto.
  - cbn [accumulate]. specialize (IH (add d (mul a b)) (add na (mul a a)) (add nb (mul b b))).
    destruct (fold_left accumulate l _) as [[d' na'] nb'].
    cbn [forallb fst snd]. destruct IH as [IHa IHb]. split.
    + intros H ->. apply andb_prop in H as [Ha Hl]. apply IHa; [assumption|].
      apply square_zero. assumption.
    + intros H ->. apply andb_prop in H as [Hb Hl]. apply IHb; [assumption|].
      apply square_zero. assumption.
Qed.

Lemma forallb_combine_fst (A B : Type) (p : A -> bool) (l : list A) : forall (l' : list B),
  forallb p l = true -> forallb (fun ab => p (fst ab)) (combine l l') = true.
Proof.
  induction l as [|x l IH]; intros l' H; [reflexivity|].
  destruct l' as [|y l']; [reflexivity|]. cbn [forallb combine fst] in *.
  apply andb_prop in H as [-> H]. cbn. apply IH. assumption.
Qed.

Lemma forallb_combine_snd (A B : Type) (p : B -> bool) (l : list A) : forall (l' : list B),
  forallb p l' = true -> forallb (fun ab => p (snd ab)) (combine l l') = true.
Proof.
  induction l as [|x l IH]; intros l' H; [reflexivity|].
  destruct l' as [|y l']; [reflexivity|]. cbn [forallb combine snd] in *.
  apply andb_prop in H as [-> H]. cbn. apply IH. assumption.
Qed.

Lemma cosineSimilarity_valid vecA vecB s :
  cosineSimilarity vecA vecB = inr s -> valid_binary prec emax s = true.
Proof.
  unfold cosineSimilarity.
  destruct (negb (List.length vecA =? List.length vecB)%nat); [discriminate|].
  destruct (fold_left accumulate (combine vecA vecB) (zero, zero, zero)) as [[d na] nb].
  destruct (eqb na zero || eqb nb zero); intros H; injection H as <-.
  - reflexivity.
  - apply div_valid.
Qed.

(** [x] sorts after [y] exactly when its score is the smaller one. *)
Lemma after_byScoreDescending x y :
  ordinary (score x) -> ordinary (score y) ->
  after byScoreDescending x y = ltb (score x) (score y).
Proof. intros Hx Hy. unfold after, byScoreDescending. apply sub_positive; assumption. Qed.

Section SortedByScore.

Lemma insert_good x l : well_scored x -> Forall well_scored l -> Forall well_scored (insert byScoreDescending x l).
Proof.
  intros Hx Hl. apply Forall_forall. intros y Hy.
  apply (Permutation_in _ (insert_perm byScoreDescending x l)) in Hy.
  destruct Hy as [<-|Hy]; [assumption|]. rewrite Forall_forall in Hl. auto.
Qed.

Lemma sort_good l : Forall well_scored l -> Forall well_scored (sort byScoreDescending l).
Proof.
  intros H. apply Forall_forall. intros y Hy.
  apply (Permutation_in _ (sort_perm byScoreDescending l)) in Hy.
  rewrite Forall_forall in H. auto.
Qed.

Lemma insert_sorted x l :
  well_scored x -> Forall well_scored l ->
  StronglySorted outranks l -> StronglySorted outranks (insert byScoreDescending x l).
Proof.
  intros Hx Hl Hs. induction l as [|y l IH]; cbn [insert].
  - repeat constructor.
  - inversion Hl as [|? ? Hy Hl']; subst. inversion Hs as [|? ? Hs' Hall]; subst.
    rewrite after_byScoreDescending by assumption.
    destruct (ltb (score x) (score y)) eqn:E.
    + constructor; [apply IH; assumption|].
      apply Forall_forall. intros z Hz.
      apply (Permutation_in _ (insert_perm byScoreDescending x l)) in Hz.
      destruct Hz as [<-|Hz].
      * apply ltb_leb. assumption.
      * rewrite Forall_forall in Hall. auto.
    + assert (Hxy : outranks x y).
      { apply leb_total; [apply Hx | apply Hy | assumption]. }
      constructor; [assumption|]. constructor; [assumption|].
      eapply Forall_impl; [|exact Hall]. intros z Hz. unfold outranks in *.
      eapply leb_trans; eassumption.
Qed.

Lemma sort_sorted l :
  Forall well_scored l -> StronglySorted outranks (sort byScoreDescending l).
Proof.
  induction l as [|x l IH]; intros H; [constructor|].
  change (sort byScoreDescending (x :: l))
    with (insert byScoreDescending x (sort byScoreDescending l)).
  inversion H; subst. apply insert_sorted; [assumption | apply sort_good; assumption|].
  apply IH. assumption.
Qed.

Lemma insert_tied s x l :
  well_scored x -> Forall well_scored l ->
  tied s (insert byScoreDescending x l) = tied s (x :: l).
Proof.
  intros Hx Hl. induction l as [|y l IH]; cbn [insert]; [reflexivity|].
  inversion Hl as [|? ? Hy Hl']; subst.
  rewrite after_byScoreDescending by assumption.
  destruct (ltb (score x) (score y)) eqn:E; [|reflexivity].
  unfold tied in *. cbn [filter]. rewrite (IH Hl'). cbn [filter].
  destruct (eqb (score x) s) eqn:Ex; [|reflexivity].
  rewrite (ltb_not_eqb _ _ _ E Ex). reflexivity.
Qed.

Lemma sort_tied s l :
  Forall well_scored l -> tied s (sort byScoreDescending l) = tied s l.
Proof.
  induction l as [|x l IH]; intros H; [reflexivity|].
  change (sort byScoreDescending (x :: l))
    with (insert byScoreDescending x (sort byScoreDescending l)).
  inversion H; subst.
  rewrite insert_tied by (assumption || apply sort_good; assumption).
  unfold tied in *. cbn [filter]. rewrite IH by assumption. reflexivity.
Qed.

End SortedByScore.

(* ================================================================== *)
(** * The claims *)

(** The scenario of the spec: two short paragraphs make one chunk, joined
    by a single space. *)
Example two_short_paragraphs :
  option_map (List.map content)
    (chunkText clock0 (js "doc.txt") defaultChunkSize defaultOverlap
       (js "Paragraph one is short." ++ [10; 10]%N ++ js "Paragraph two is also short."))
  = Some [js "Paragraph one is short. Paragraph two is also short."].
Proof. vm_compute. reflexivity. Qed.

(** C1, counterexample.  With [chunkSize = 10] and [overlap = 5] the
    units are "abcd" and "abcdefghi.", both within [chunkSize]; the second
    chunk is the kept unit "abcd", a space and "abcdefghi.": 15
    characters, and no single unit. *)
Lemma overlap_prefix_exceeds_chunkSize :
  splitIntoUnits 10 text_two_paragraphs = Some [js "abcd"; js "abcdefghi."]
  /\ option_map (List.map content) (chunkText clock0 (js "doc.txt") 10 5 text_two_paragraphs)
     = Some [js "abcd"; js "abcd abcdefghi."]
  /\ len (js "abcd abcdefghi.") = 15
  /\ ~ In (js "abcd abcdefghi.") [js "abcd"; js "abcdefghi."].
Proof.
  split; [vm_compute; reflexivity|]. split; [vm_compute; reflexivity|].
  split; [reflexivity|]. intros [H|[H|[]]]; discriminate H.
Qed.

(** C1, as amended.  For [chunkSize > 0] and [0 <= overlap < chunkSize],
    when no paragraph longer than [chunkSize] is made of the characters
    [. ! ?] alone: [splitIntoUnits] returns units none of which is longer
    than [chunkSize], and [chunkText] returns chunks whose content is at
    most [chunkSize + overlap + 1] long; a content longer than [chunkSize]
    is the units kept from the chunk before (at most [overlap] characters
    with their separators), a space, and one unit. *)
Theorem chunk_length_bound now sf cs ov text :
  0 < cs -> 0 <= ov < cs ->
  (forall p, In p (paragraphs_of text) ->
     forallb is_punct (trimmedP_of p) = true -> len (trimmedP_of p) <= cs) ->
  exists units chunks,
    splitIntoUnits cs text = Some units
    /\ Forall (fun u => len u <= cs) units
    /\ chunkText now sf cs ov text = Some chunks
    /\ Forall (fun c =>
         len (content c) <= cs + ov + 1
         /\ (len (content c) <= cs
             \/ exists kept u,
                  kept <> [] /\ len (join (js " ") kept) <= ov /\ In u units
                  /\ content c = join (js " ") (kept ++ [u]))) chunks.
Proof.
  intros Hcs Hov Hpar.
  destruct (splitIntoUnits_total Hcs text) as (units & Eu & _ & _ & Hfit).
  specialize (Hfit Hpar).
  assert (Hall : Forall (fun u => len u <= cs) units).
  { eapply Forall_impl; [|exact Hfit]. intros u [_ H]. exact H. }
  exists units.
  destruct (visible text) as [|v vs] eqn:Ev.
  - exists []. rewrite chunkText_blank by assumption. auto.
  - rewrite chunkText_visible by congruence. rewrite Eu. cbn [option_map].
    destruct (buildChunks_spec now sf cs ov units) as (gs & -> & _ & _ & _ & Hw).
    specialize (Hw Hcs Hall).
    eexists. split; [reflexivity|]. split; [assumption|]. split; [reflexivity|].
    apply Forall_forall. intros c Hc.
    apply In_nth_error in Hc as (n & Hn).
    apply chunksOf_nth in Hn as (g & Hg & ->). cbn [content chunkOf].
    apply nth_error_In in Hg. rewrite Forall_forall in Hw. specialize (Hw g Hg).
    split; [apply (within_bound (units:=units)); [lia | assumption | assumption]|].
    destruct Hw as [H|(kept & u & Hk & Hl & Hu & ->)]; [left; assumption|].
    right. exists kept, u. auto.
Qed.

(** C1, witness: the two paragraphs of the counterexample. *)
Lemma chunk_length_bound_witness :
  exists units chunks,
    splitIntoUnits 10 text_two_paragraphs = Some units
    /\ Forall (fun u => len u <= 10) units
    /\ chunkText clock0 (js "doc.txt") 10 5 text_two_paragraphs = Some chunks
    /\ Forall (fun c =>
         len (content c) <= 10 + 5 + 1
         /\ (len (content c) <= 10
             \/ exists kept u,
                  kept <> [] /\ len (join (js " ") kept) <= 5 /\ In u units
                  /\ content c = join (js " ") (kept ++ [u]))) chunks.
Proof.
  apply chunk_length_bound; [lia | lia |].
  intros p Hp. vm_compute in Hp.
  destruct Hp as [<-|[<-|[]]]; vm_compute; intros; discriminate.
Defined.

(** What the amended C1 leaves out: a paragraph made of [. ! ?] alone has
    no sentence, is taken whole, and is not split when it is longer than
    [chunkSize]. *)
Example punctuation_paragraph_is_not_split :
  splitIntoUnits 2 (js "!!!!") = Some [js "!!!!"]
  /\ option_map (List.map content) (chunkText clock0 (js "doc.txt") 2 1 (js "!!!!"))
     = Some [js "!!!!"].
Proof. vm_compute. split; reflexivity. Qed.

(** C2, at the failing input.  The sentence expression finds no match
    that starts at "3.": the full stop is followed by neither white space
    nor the end of the text.  The only chunk reads "14 is pi.", and the
    visible characters of the input are no subsequence of it. *)
Theorem decimal_point_loses_text :
  option_map (List.map content)
    (chunkText clock0 (js "doc.txt") 10 2 (js "3.14 is pi."))
  = Some [js "14 is pi."]
  /\ subsequence (visible (js "3.14 is pi.")) (List.concat [js "14 is pi."]) = false.
Proof. split; vm_compute; reflexivity. Qed.

(** The same loss with the default sizes (800 and 100), in a paragraph
    of 540 characters: every "Pi is about 3." is left out. *)
Example default_sizes_lose_text :
  len long_paragraph = 540
  /\ option_map (List.map content)
       (chunkText clock0 (js "doc.txt") defaultChunkSize defaultOverlap long_paragraph)
     = Some [join (js " ") (repeat (js "14 in value.") 20)].
Proof. split; vm_compute; reflexivity. Qed.

(** C3, counterexample.  Each chunk returned is the element of the base
    itself, vector included. *)
Lemma result_carries_embeddings :
  findRelevantChunks (vec [1; 0]) [chunk_x; chunk_y; chunk_xy] 2
  = inr [chunk_x; chunk_xy]
  /\ embedding chunk_x = vec [1; 0]
  /\ embedding chunk_xy = vec [1; 1]
  /\ embedding chunk_x <> [].
Proof. split; [vm_compute; reflexivity|]. repeat split. discriminate. Qed.

(** C3, as amended.  Every element of the sequence [findRelevantChunks]
    returns is an element of the base as it stands there, with its
    embedding, which has the dimension of the query. *)
Theorem result_keeps_embeddings q base k res :
  findRelevantChunks q base k = inr res ->
  forall c, In c res ->
    In c base /\ List.length (embedding c) = List.length q.
Proof.
  intros H c Hc.
  destruct (findRelevantChunks_prefix _ _ _ H) as (n & perm & Hp & ->).
  assert (Hin : In c base).
  { apply (Permutation_in _ Hp). eapply in_firstn; eassumption. }
  split; [assumption|].
  unfold findRelevantChunks in H.
  destruct (scoreChunks q base) as [e|scored] eqn:Es; [discriminate|].
  eapply scoreChunks_dimension; eassumption.
Qed.

(** C3, witness: the scenario of the spec. *)
Lemma result_keeps_embeddings_witness :
  In chunk_xy [chunk_x; chunk_y; chunk_xy]
  /\ List.length (embedding chunk_xy) = List.length (vec [1; 0]).
Proof.
  apply (@result_keeps_embeddings (vec [1; 0]) [chunk_x; chunk_y; chunk_xy] 2
           [chunk_x; chunk_xy]);
    [vm_compute; reflexivity | right; left; reflexivity].
Defined.

(** C4, counterexample.  The same arguments under two readings of the
    clock give chunks with different identifiers. *)
Lemma ids_follow_the_clock :
  chunkText (fun _ => 0) (js "doc.txt") defaultChunkSize defaultOverlap (js "a")
  <> chunkText (fun _ => 1) (js "doc.txt") defaultChunkSize defaultOverlap (js "a").
Proof. vm_compute. intros H. discriminate H. Qed.

(** C4, as amended.  Two calls of [chunkText] with the same arguments
    return the same sequence of source tags and contents; the identifier of
    the chunk at position [i] is the source file, the position and the
    reading of the clock at its emission, joined by hyphens; and two calls
    that read the same clock return the same chunks. *)
Theorem chunkText_deterministic_up_to_clock now1 now2 sf cs ov text :
  option_map (List.map tagged) (chunkText now1 sf cs ov text)
  = option_map (List.map tagged) (chunkText now2 sf cs ov text)
  /\ (forall chunks i c,
        chunkText now1 sf cs ov text = Some chunks ->
        nth_error chunks i = Some c ->
        id c = sf ++ js "-" ++ decimal (Z.of_nat i) ++ js "-" ++ decimal (now1 i)
        /\ sourceFile c = sf)
  /\ ((forall n, now1 n = now2 n) ->
      chunkText now1 sf cs ov text = chunkText now2 sf cs ov text).
Proof.
  split; [|split].
  - unfold chunkText. destruct text as [|c t]; [reflexivity|].
    destruct (len (trim (c :: t)) =? 0); [reflexivity|].
    destruct (splitIntoUnits cs (c :: t)) as [units|]; [|reflexivity].
    cbn [option_map]. f_equal. apply buildChunks_alike.
  - intros chunks i c Hch Hn.
    assert (Hex : exists gs, chunks = chunksOf now1 sf 0 gs).
    { unfold chunkText in Hch. destruct text as [|d t].
      - injection Hch as <-. exists []. reflexivity.
      - destruct (len (trim (d :: t)) =? 0).
        + injection Hch as <-. exists []. reflexivity.
        + destruct (splitIntoUnits cs (d :: t)) as [units|]; [|discriminate].
          cbn [option_map] in Hch. injection Hch as <-.
          destruct (buildChunks_spec now1 sf cs ov units) as (gs & E & _).
          exists gs. assumption. }
    destruct Hex as (gs & ->). apply chunksOf_nth in Hn as (g & _ & ->).
    cbn [id sourceFile chunkOf Nat.add]. split; reflexivity.
  - intros H. unfold chunkText. destruct text as [|c t]; [reflexivity|].
    destruct (len (trim (c :: t)) =? 0); [reflexivity|].
    destruct (splitIntoUnits cs (c :: t)) as [units|]; [|reflexivity].
    cbn [option_map]. f_equal. apply buildChunks_same_clock. assumption.
Qed.

(** C5, counterexample.  The query and the first embedding hold 1e200,
    whose square overflows: the first score is NaN, the second is 0, and
    NaN is neither at least nor at most 0, so the scores of the result are
    in no order, whichever way the engine leaves the two chunks. *)
Lemma nan_score_is_not_ordered :
  cosineSimilarity [huge] (embedding chunk_huge) = inr S754_nan
  /\ cosineSimilarity [huge] (embedding chunk_one) = inr zero
  /\ findRelevantChunks [huge] [chunk_huge; chunk_one] 2 = inr [chunk_huge; chunk_one]
  /\ leb zero S754_nan = false
  /\ leb S754_nan zero = false.
Proof. vm_compute. repeat split. Qed.

(** C5, as amended.  For [k >= 0] and a base whose embeddings have the
    dimension of the query, when no score is NaN: [findRelevantChunks]
    returns the chunks of the first [k] elements of a permutation of the
    scored chunks in which every element is ranked no lower than those
    after it and elements with equal scores keep the order of the base; the
    result has [min k |base|] elements and is empty when the base is. *)
Theorem top_k_sorted_without_nan q base k :
  0 <= k ->
  (forall c, In c base -> List.length (embedding c) = List.length q) ->
  (forall c s, In c base -> cosineSimilarity q (embedding c) = inr s -> is_nan s = false) ->
  exists scored sorted res,
    scoreChunks q base = inr scored
    /\ List.map chunk scored = base
    /\ Forall (fun x => cosineSimilarity q (embedding (chunk x)) = inr (score x)) scored
    /\ Permutation sorted scored
    /\ StronglySorted outranks sorted
    /\ (forall s, tied s sorted = tied s scored)
    /\ findRelevantChunks q base k = inr res
    /\ res = List.map chunk (firstn (Z.to_nat k) sorted)
    /\ len res = Z.min k (len base)
    /\ (base = [] -> res = []).
Proof.
  intros Hk Hdim Hnan.
  destruct (scoreChunks_returns q base Hdim) as (scored & Es).
  pose proof (scoreChunks_spec _ _ Es) as [Hmap Hscores].
  assert (Hgood : Forall (fun x => ordinary (score x)) scored).
  { apply Forall_forall. intros x Hx. rewrite Forall_forall in Hscores.
    specialize (Hscores x Hx). split.
    - eapply cosineSimilarity_valid. eassumption.
    - apply (Hnan (chunk x)); [|assumption]. rewrite <- Hmap. apply in_map. assumption. }
  exists scored, (sort byScoreDescending scored),
    (List.map chunk (firstn (Z.to_nat k) (sort byScoreDescending scored))).
  split; [assumption|]. split; [assumption|]. split; [assumption|].
  split; [apply sort_perm|]. split; [apply sort_sorted; assumption|].
  split; [intros s; apply sort_tied; assumption|].
  split; [unfold findRelevantChunks; rewrite Es, slice_firstn by assumption; reflexivity|].
  split; [reflexivity|]. split.
  - unfold len. rewrite length_map, length_firstn.
    rewrite (Permutation_length (sort_perm byScoreDescending scored)).
    rewrite <- Hmap, length_map. lia.
  - intros ->. destruct scored; [|discriminate]. destruct (Z.to_nat k); reflexivity.
Qed.

(** C5, witness: the scenario of the spec. *)
Lemma top_k_sorted_without_nan_witness :
  exists scored sorted res,
    scoreChunks (vec [1; 0]) [chunk_x; chunk_y; chunk_xy] = inr scored
    /\ List.map chunk scored = [chunk_x; chunk_y; chunk_xy]
    /\ Forall (fun x => cosineSimilarity (vec [1; 0]) (embedding (chunk x))
                        = inr (score x)) scored
    /\ Permutation sorted scored
    /\ StronglySorted outranks sorted
    /\ (forall s, tied s sorted = tied s scored)
    /\ findRelevantChunks (vec [1; 0]) [chunk_x; chunk_y; chunk_xy] 2 = inr res
    /\ res = List.map chunk (firstn (Z.to_nat 2) sorted)
    /\ len res = Z.min 2 (len [chunk_x; chunk_y; chunk_xy])
    /\ ([chunk_x; chunk_y; chunk_xy] = [] -> res = []).
Proof.
  apply top_k_sorted_without_nan.
  - lia.
  - intros c [<-|[<-|[<-|[]]]]; reflexivity.
  - intros c s [<-|[<-|[<-|[]]]] H; vm_compute in H; injection H as <-; reflexivity.
Defined.

(** C6.  [cosineSimilarity] throws exactly when the lengths of its
    arguments differ, what it throws then is the dimension mismatch, and
    [findRelevantChunks] passes it on to its caller. *)
Theorem dimension_mismatch_iff vecA vecB :
  ((exists e, cosineSimilarity vecA vecB = inl e)
   <-> List.length vecA <> List.length vecB)
  /\ (List.length vecA <> List.length vecB ->
      cosineSimilarity vecA vecB = inl DimensionMismatch)
  /\ (forall chunks topK c,
        In c chunks -> List.length (embedding c) <> List.length vecA ->
        findRelevantChunks vecA chunks topK = inl DimensionMismatch).
Proof.
  split; [split|split].
  - intros (e & He) E. destruct (cosineSimilarity_returns _ _ E) as (s & Hs). congruence.
  - intros H. eexists. apply cosineSimilarity_mismatch. assumption.
  - apply cosineSimilarity_mismatch.
  - intros chunks topK c Hin Hlen. unfold findRelevantChunks.
    rewrite (scoreChunks_mismatch _ _ _ Hin Hlen). reflexivity.
Qed.

(** C7, counterexample.  With [chunkSize = 10] and [overlap = 2] the
    chunks are "aaaa." and "bbbbbbbb.": the unit "aaaa." is longer than
    [overlap], nothing is kept, and no text that is not empty ends the
    first chunk and starts the second. *)
Lemma adjacent_chunks_without_overlap :
  option_map (List.map content) (chunkText clock0 (js "doc.txt") 10 2 text_long_units)
  = Some [js "aaaa."; js "bbbbbbbb."]
  /\ ~ (exists w, w <> [] /\ len w <= 2
                  /\ (exists x, js "aaaa." = x ++ w)
                  /\ (exists y, js "bbbbbbbb." = w ++ y)).
Proof.
  split; [vm_compute; reflexivity|].
  intros (w & Hne & _ & (x & Hx) & (y & Hy)).
  destruct w as [|c w]; [congruence|].
  injection Hy as <- _.
  assert (Hin : In 98%N (js "aaaa.")) by (rewrite Hx; apply in_or_app; right; left; reflexivity).
  vm_compute in Hin. repeat (destruct Hin as [Hin|Hin]; [discriminate|]). exact Hin.
Qed.

(** C7, as amended.  Two adjacent chunks are made of units of the text:
    the earlier one ends with the units [kept], the later one starts with
    them and goes on with at least one unit.  [kept] with its separators is
    at most [overlap] long and cannot be extended by the unit before it, it
    is the end of the earlier content and the start of the later one, and
    it is empty exactly when the last unit of the earlier chunk is longer
    than [overlap]. *)
Theorem adjacent_chunks_overlap now sf cs ov text chunks units :
  0 < cs -> 0 <= ov < cs ->
  chunkText now sf cs ov text = Some chunks ->
  splitIntoUnits cs text = Some units ->
  forall i c1 c2,
    nth_error chunks i = Some c1 -> nth_error chunks (S i) = Some c2 ->
    exists before kept fresh,
      content c1 = join (js " ") (before ++ kept)
      /\ content c2 = join (js " ") (kept ++ fresh)
      /\ fresh <> []
      /\ incl (before ++ kept ++ fresh) units
      /\ len (join (js " ") kept) <= ov
      /\ (kept = [] <-> ov < len (last (before ++ kept) []))
      /\ (before <> [] -> ov < len (join (js " ") (last before [] :: kept)))
      /\ (exists x, content c1 = x ++ join (js " ") kept)
      /\ (exists y, content c2 = join (js " ") kept ++ y).
Proof.
  intros Hcs Hov Hchunks Hunits i c1 c2 H1 H2.
  destruct (visible text) as [|v vs] eqn:Ev.
  { rewrite chunkText_blank in Hchunks by assumption. injection Hchunks as <-.
    destruct i; discriminate. }
  rewrite chunkText_visible, Hunits in Hchunks by congruence.
  cbn [option_map] in Hchunks. injection Hchunks as <-.
  destruct (buildChunks_spec now sf cs ov units) as (gs & E & _ & Hgs & Hlink & _).
  rewrite E in H1, H2.
  apply chunksOf_nth in H1 as (g1 & Hg1 & ->).
  apply chunksOf_nth in H2 as (g2 & Hg2 & ->).
  destruct (Hlink _ _ _ Hg1 Hg2) as (fresh & Hfresh & ->).
  rewrite Forall_forall in Hgs.
  destruct (Hgs g1 (nth_error_In _ _ Hg1)) as [Hne1 Hin1].
  destruct (Hgs _ (nth_error_In _ _ Hg2)) as [_ Hin2].
  pose proof (keptUnits_nil ov Hne1) as Hnil.
  destruct (keptUnits_spec ov g1) as (before & Hsplit & _ & Hk & Hmax).
  remember (keptUnits ov g1) as kept eqn:Ekept. clear Ekept. subst g1.
  exists before, kept, fresh. cbn [content chunkOf].
  split; [reflexivity|]. split; [reflexivity|]. split; [assumption|].
  split; [|split; [|split; [|split; [|split]]]].
  - intros x Hx. apply in_app_or in Hx as [Hx|Hx].
    + apply Hin1. apply in_or_app. left. assumption.
    + apply Hin2. assumption.
  - destruct kept; [cbn; lia | apply Hk; discriminate].
  - assumption.
  - intros Hb. specialize (Hmax Hb). rewrite join_len by discriminate.
    cbn [total_len]. lia.
  - destruct before as [|b bs]; [exists []; reflexivity|].
    destruct kept as [|k ks].
    + eexists. rewrite app_nil_r. cbn [join]. rewrite app_nil_r. reflexivity.
    + rewrite join_app by discriminate. eexists. rewrite app_assoc. reflexivity.
  - destruct kept as [|k ks]; [eexists; reflexivity|].
    rewrite join_app by (assumption || discriminate). eexists. reflexivity.
Qed.

(** C7, witness: the two chunks of the text of C1 share "abcd". *)
Lemma adjacent_chunks_overlap_witness :
  exists before kept fresh,
    content chunk_a = join (js " ") (before ++ kept)
    /\ content chunk_b = join (js " ") (kept ++ fresh)
    /\ fresh <> []
    /\ incl (before ++ kept ++ fresh) [js "abcd"; js "abcdefghi."]
    /\ len (join (js " ") kept) <= 5
    /\ (kept = [] <-> 5 < len (last (before ++ kept) []))
    /\ (before <> [] -> 5 < len (join (js " ") (last before [] :: kept)))
    /\ (exists x, content chunk_a = x ++ join (js " ") kept)
    /\ (exists y, content chunk_b = join (js " ") kept ++ y).
Proof.
  apply (@adjacent_chunks_overlap clock0 (js "doc.txt") 10 5 text_two_paragraphs
           [chunk_a; chunk_b] [js "abcd"; js "abcdefghi."]) with (i := O);
    [lia | lia | vm_compute; reflexivity | vm_compute; reflexivity
    | reflexivity | reflexivity].
Defined.

(** C8, counterexample.  A text of one space is not empty and has no
    chunk. *)
Lemma blank_text_has_no_chunks :
  js " " <> []
  /\ chunkText clock0 (js "doc.txt") defaultChunkSize defaultOverlap (js " ") = Some [].
Proof. split; [discriminate | reflexivity]. Qed.

(** C8, as amended.  For [chunkSize > 0], [chunkText] returns, and what it
    returns is not empty exactly when the text has a character that is not
    white space. *)
Theorem chunkText_nonempty now sf cs ov text :
  0 < cs ->
  exists chunks,
    chunkText now sf cs ov text = Some chunks
    /\ (chunks <> [] <-> visible text <> []).
Proof.
  intros Hcs. destruct (visible text) as [|v vs] eqn:Ev.
  - exists []. split; [apply chunkText_blank; assumption|]. split; congruence.
  - assert (Hv : visible text <> []) by congruence.
    rewrite chunkText_visible by assumption.
    destruct (splitIntoUnits_total Hcs text) as (units & -> & _ & Hne & _).
    cbn [option_map].
    destruct (buildChunks_spec now sf cs ov units) as (gs & -> & Hgs & _).
    eexists. split; [reflexivity|]. split; [discriminate|]. intros _.
    specialize (Hgs (Hne Hv)). destruct gs; [congruence | discriminate].
Qed.

(** C8, witness. *)
Lemma chunkText_nonempty_witness :
  exists chunks,
    chunkText clock0 (js "doc.txt") defaultChunkSize defaultOverlap
      (js "Paragraph one is short.") = Some chunks
    /\ (chunks <> [] <-> visible (js "Paragraph one is short.") <> []).
Proof. apply chunkText_nonempty. reflexivity. Defined.

(** C9.  For vectors of equal length of which one has zero norm,
    [cosineSimilarity] returns [0]. *)
Theorem zero_norm_similarity vecA vecB :
  List.length vecA = List.length vecB ->
  zero_vector vecA = true \/ zero_vector vecB = true ->
  cosineSimilarity vecA vecB = inr zero.
Proof.
  intros Hlen Hz. unfold cosineSimilarity.
  apply Nat.eqb_eq in Hlen. rewrite Hlen. cbn [negb].
  pose proof (norms_of_zero_vectors (combine vecA vecB) zero zero zero) as H.
  destruct (fold_left accumulate (combine vecA vecB) (zero, zero, zero)) as [[d na] nb].
  destruct H as [Ha Hb]. destruct Hz as [Hz|Hz].
  - rewrite (Ha (forallb_combine_fst _ _ vecB Hz) eq_refl). reflexivity.
  - rewrite (Hb (forallb_combine_snd _ vecA _ Hz) eq_refl).
    rewrite orb_true_r. reflexivity.
Qed.

(** C9, witness: a vector of the two zeros against (3, 4). *)
Lemma zero_norm_similarity_witness :
  cosineSimilarity [S754_zero false; S754_zero true] (vec [3; 4]) = inr zero.
Proof.
  apply zero_norm_similarity; [reflexivity | left; reflexivity].
Defined.

(** The scenario of the spec: of the chunks with embeddings (1, 0),
    (0, 1) and (1, 1), the query (1, 0) with [k = 2] selects the first and
    the third, in that order. *)
Example top_two_of_three :
  findRelevantChunks (vec [1; 0]) [chunk_x; chunk_y; chunk_xy] 2
  = inr [chunk_x; chunk_xy].
Proof. vm_compute. reflexivity. Qed.

(** C10.  What [findRelevantChunks] returns is the start of a
    permutation of the base: each of its chunks is in the base, and none
    occurs more often in it than in the base. *)
Theorem result_selects_from_base q base k res :
  findRelevantChunks q base k = inr res ->
  (forall c, In c res -> In c base)
  /\ (forall c, (occurrences res c <= occurrences base c)%nat)
  /\ exists n perm, Permutation perm base /\ res = firstn n perm.
Proof.
  intros H. destruct (findRelevantChunks_prefix _ _ _ H) as (n & perm & Hp & ->).
  split; [|split].
  - intros c Hc. apply (Permutation_in _ Hp). eapply in_firstn; eassumption.
  - intros c. etransitivity; [apply occurrences_firstn|].
    unfold occurrences. rewrite (Permutation_count_occ DocumentChunk_eq_dec) in Hp.
    rewrite Hp. reflexivity.
  - eauto.
Qed.

(** C10, witness: the scenario of the spec. *)
Lemma result_selects_from_base_witness :
  (forall c, In c [chunk_x; chunk_xy] -> In c [chunk_x; chunk_y; chunk_xy])
  /\ (forall c, (occurrences [chunk_x; chunk_xy] c
                 <= occurrences [chunk_x; chunk_y; chunk_xy] c)%nat)
  /\ exists n perm,
       Permutation perm [chunk_x; chunk_y; chunk_xy]
       /\ [chunk_x; chunk_xy] = firstn n perm.
Proof.
  apply (@result_selects_from_base (vec [1; 0]) [chunk_x; chunk_y; chunk_xy] 2).
  vm_compute. reflexivity.
Defined.


(* ================================================================== *)
(** * Further lemmas *)

(* ------------------------------------------------------------------ *)
(** ** The hard split *)

Lemma firstn_long (A : Type) (l : list A) n m :
  (List.length l <= n)%nat -> (List.length l <= m)%nat -> firstn n l = firstn m l.
Proof. intros Hn Hm. rewrite !firstn_all2 by assumption. reflexivity. Qed.

(** [s.slice(i, i + n)] for an index that is not negative: the [n]
    elements from [i] on, or as many as there are. *)
Lemma slice_window (A : Type) (s : list A) i n :
  0 <= i -> 0 <= n ->
  slice s i (i + n) = firstn (Z.to_nat n) (skipn (Z.to_nat i) s).
Proof.
  intros Hi Hn. unfold slice, clamp_index.
  destruct (i <? 0) eqn:E1; [lia|]. destruct (i + n <? 0) eqn:E2; [lia|].
  unfold len. destruct (Z_le_gt_dec i (Z.of_nat (List.length s))) as [Hle|Hgt].
  - replace (Z.to_nat (Z.min i (Z.of_nat (List.length s)))) with (Z.to_nat i) by lia.
    destruct (Z_le_gt_dec (i + n) (Z.of_nat (List.length s))) as [Hle'|Hgt'].
    + f_equal. lia.
    + apply firstn_long; rewrite length_skipn; lia.
  - rewrite !skipn_all2 by lia. rewrite !firstn_nil. reflexivity.
Qed.

Lemma hardSplit_tiles cs s :
  0 < cs -> forall fuel i us,
  0 <= i -> hardSplit cs fuel s i = Some us ->
  List.concat us = skipn (Z.to_nat i) s
  /\ Forall (fun u => len u = cs) (removelast us)
  /\ Forall (fun u => 0 < len u <= cs) us.
Proof.
  intros Hcs. induction fuel as [|fuel IH]; intros i us Hi H; [discriminate|].
  cbn [hardSplit] in H. destruct (i <? len s) eqn:E.
  - destruct (hardSplit cs fuel s (i + cs)) as [us'|] eqn:E'; [|discriminate].
    cbn [option_map] in H. injection H as <-.
    destruct (IH (i + cs) us' ltac:(lia) E') as (Hc & Hfull & Hfit).
    rewrite slice_window by lia. apply Z.ltb_lt in E. unfold len in E.
    split; [|split].
    + cbn [List.concat]. rewrite Hc.
      replace (Z.to_nat (i + cs)) with (Z.to_nat cs + Z.to_nat i)%nat by lia.
      rewrite <- skipn_skipn. apply firstn_skipn.
    + destruct us' as [|u us']; [constructor|].
      change (removelast (?x :: u :: us')) with (x :: removelast (u :: us')).
      constructor; [|assumption].
      destruct fuel as [|fuel]; [discriminate|]. cbn [hardSplit] in E'.
      destruct (i + cs <? len s) eqn:E2; [|discriminate].
      apply Z.ltb_lt in E2. unfold len in *.
      rewrite length_firstn, length_skipn. lia.
    + constructor; [|assumption]. unfold len.
      rewrite length_firstn, length_skipn. lia.
  - injection H as <-. apply Z.ltb_ge in E. unfold len in E.
    rewrite skipn_all2 by lia. repeat constructor.
Qed.

(* ------------------------------------------------------------------ *)
(** ** The similarity of two vectors, either way round *)

Lemma mul_comm x y : mul x y = mul y x.
Proof.
  unfold mul, SFmul.
  destruct x as [sx|sx| |sx mx ex], y as [sy|sy| |sy my ey];
    try reflexivity; try (rewrite (xorb_comm sx sy); reflexivity).
  rewrite (xorb_comm sx sy), (Pos.mul_comm mx my), (Z.add_comm ex ey). reflexivity.
Qed.

Lemma fold_accumulate_swap a : forall b d na nb,
  fold_left accumulate (combine b a) (d, nb, na)
  = let '(d', na', nb') := fold_left accumulate (combine a b) (d, na, nb) in
    (d', nb', na').
Proof.
  induction a as [|x a IH]; intros b d na nb.
  - destruct b; reflexivity.
  - destruct b as [|y b]; [reflexivity|].
    cbn [combine fold_left accumulate]. rewrite (mul_comm y x). apply IH.
Qed.

(* ------------------------------------------------------------------ *)
(** ** Slices from the start *)

Lemma slice_0_firstn (A : Type) (l : list A) k :
  slice l 0 k = firstn (Z.to_nat (clamp_index (len l) k)) l.
Proof.
  unfold slice. change (clamp_index (len l) 0) with (Z.min 0 (len l)).
  pose proof (len_nonneg l). rewrite Z.min_l by assumption.
  cbn [Z.to_nat skipn]. f_equal. unfold clamp_index.
  destruct (k <? 0) eqn:E; lia.
Qed.

Lemma slice_0_map (A B : Type) (f : A -> B) (l : list A) k :
  slice (List.map f l) 0 k = List.map f (slice l 0 k).
Proof.
  rewrite !slice_0_firstn. unfold len. rewrite length_map. apply firstn_map.
Qed.

Lemma slice_0_len (A : Type) (l : list A) k :
  len (slice l 0 k) = if k <? 0 then Z.max (len l + k) 0 else Z.min k (len l).
Proof.
  rewrite slice_0_firstn. unfold len, clamp_index. rewrite length_firstn.
  destruct (k <? 0) eqn:E; lia.
Qed.

Lemma slice_0_all (A : Type) (l : list A) : slice l 0 (len l) = l.
Proof.
  rewrite slice_0_firstn. unfold clamp_index, len.
  destruct (Z.ltb_spec (Z.of_nat (List.length l)) 0) as [E|E]; [lia|].
  rewrite Z.min_id, Nat2Z.id. apply firstn_all.
Qed.

Lemma sort_length (A : Type) (f : A -> A -> number) (l : list A) :
  List.length (sort f l) = List.length l.
Proof. apply Permutation_length, sort_perm. Qed.

(* ------------------------------------------------------------------ *)
(** ** Every unit goes into a chunk *)

Lemma last_cons_default (A : Type) (l : list A) x d : last (x :: l) d = last l x.
Proof.
  revert x d. induction l as [|y l IH]; intros x d; [reflexivity|].
  change (last (x :: y :: l) d) with (last (y :: l) d).
  rewrite (IH y d), (IH y x). reflexivity.
Qed.

Lemma regroup_snoc ov fs : forall prev f,
  regroup ov prev (fs ++ [f])
  = regroup ov prev fs ++ [keptUnits ov (last (regroup ov prev fs) prev) ++ f].
Proof.
  induction fs as [|f0 fs IH]; intros prev f; cbn [regroup app]; [reflexivity|].
  rewrite IH, last_cons_default. reflexivity.
Qed.

Lemma regroup_length ov fs : forall prev,
  List.length (regroup ov prev fs) = List.length fs.
Proof. induction fs as [|f fs IH]; intros prev; cbn; [|rewrite IH]; reflexivity. Qed.

Lemma concat_nonempty_nil (A : Type) (fs : list (list A)) (cur : list A) :
  Forall (fun f => f <> []) fs -> List.concat fs ++ cur = [] -> fs = [] /\ cur = [].
Proof.
  intros Hne H. apply app_eq_nil in H as [Hc ->]. split; [|reflexivity].
  destruct fs as [|f fs]; [reflexivity|]. inversion Hne; subst.
  cbn in Hc. apply app_eq_nil in Hc as [-> _]. congruence.
Qed.

Section Covering.

Variable now : clock.
Variable sf : jsstring.
Variables cs ov : Z.

(** The state of the chunk-building loop after the units [seen]: the
    closed chunks are made of the runs [fs], the open one has added the
    run [cur], and the runs put end to end are the units seen. *)
Lemma covering_step seen b u fs cur :
  chunks b = chunksOf now sf 0 (regroup ov [] fs) ->
  calls b = List.length fs ->
  currentChunkUnits b = keptUnits ov (last (regroup ov [] fs) []) ++ cur ->
  Forall (fun f => f <> []) fs ->
  (seen <> [] -> cur <> []) ->
  List.concat fs ++ cur = seen ->
  exists fs' cur',
    chunks (addUnit now sf cs ov b u) = chunksOf now sf 0 (regroup ov [] fs')
    /\ calls (addUnit now sf cs ov b u) = List.length fs'
    /\ currentChunkUnits (addUnit now sf cs ov b u)
       = keptUnits ov (last (regroup ov [] fs') []) ++ cur'
    /\ Forall (fun f => f <> []) fs'
    /\ cur' <> []
    /\ List.concat fs' ++ cur' = seen ++ [u].
Proof.
  intros Hch Hcalls Hcur Hne Hseen Hcat. unfold addUnit.
  destruct ((currentChunkLength b + len u + 1 >? cs) && (len (currentChunkUnits b) >? 0))
    eqn:Hover.
  - assert (Hc : cur <> []).
    { intros ->. destruct seen as [|x seen]; [|apply Hseen; [discriminate | reflexivity]].
      destruct (@concat_nonempty_nil _ fs [] Hne Hcat) as [-> _].
      rewrite Hcur in Hover. cbn in Hover. rewrite andb_false_r in Hover. discriminate. }
    destruct (overlapLoop ov (rev (currentChunkUnits b)) [] 0) as [overlapUnits n] eqn:Eo.
    exists (fs ++ [cur]), [u]. cbn [chunks calls currentChunkUnits].
    rewrite regroup_snoc, <- Hcur.
    split; [|split; [|split; [|split; [|split]]]].
    + unfold pushChunk. rewrite chunksOf_app, Hch, Hcalls. cbn [chunksOf].
      unfold chunkOf, len. rewrite chunksOf_length, regroup_length. reflexivity.
    + rewrite length_app. cbn. lia.
    + rewrite last_last. unfold keptUnits. rewrite Eo. reflexivity.
    + apply Forall_app. split; [assumption|]. constructor; [assumption | constructor].
    + discriminate.
    + rewrite concat_app. cbn [List.concat]. rewrite app_nil_r, Hcat. reflexivity.
  - exists fs, (cur ++ [u]). cbn [chunks calls currentChunkUnits].
    split; [assumption|]. split; [assumption|].
    split; [rewrite Hcur, app_assoc; reflexivity|].
    split; [assumption|]. split; [destruct cur; discriminate|].
    rewrite app_assoc, Hcat. reflexivity.
Qed.

Lemma covering_fold units : forall seen b fs cur,
  chunks b = chunksOf now sf 0 (regroup ov [] fs) ->
  calls b = List.length fs ->
  currentChunkUnits b = keptUnits ov (last (regroup ov [] fs) []) ++ cur ->
  Forall (fun f => f <> []) fs ->
  (seen <> [] -> cur <> []) ->
  List.concat fs ++ cur = seen ->
  exists fs' cur',
    chunks (fold_left (addUnit now sf cs ov) units b)
    = chunksOf now sf 0 (regroup ov [] fs')
    /\ calls (fold_left (addUnit now sf cs ov) units b) = List.length fs'
    /\ currentChunkUnits (fold_left (addUnit now sf cs ov) units b)
       = keptUnits ov (last (regroup ov [] fs') []) ++ cur'
    /\ Forall (fun f => f <> []) fs'
    /\ (seen ++ units <> [] -> cur' <> [])
    /\ List.concat fs' ++ cur' = seen ++ units.
Proof.
  induction units as [|u units IH]; intros seen b fs cur Hch Hcalls Hcur Hne Hseen Hcat.
  - exists fs, cur. rewrite app_nil_r. cbn [fold_left]. auto 7.
  - destruct (@covering_step seen b u fs cur Hch Hcalls Hcur Hne Hseen Hcat)
      as (fs1 & cur1 & H1 & H2 & H3 & H4 & H5 & H6).
    cbn [fold_left].
    destruct (IH (seen ++ [u]) _ fs1 cur1 H1 H2 H3 H4 (fun _ => H5) H6)
      as (fs' & cur' & K).
    exists fs', cur'. rewrite <- app_assoc in K. exact K.
Qed.

(** The chunks of [buildChunks] are the units cut into consecutive runs,
    none of them empty, each run preceded by what is kept of the chunk
    before it. *)
Lemma buildChunks_covers units :
  exists fs,
    buildChunks now sf cs ov units = chunksOf now sf 0 (regroup ov [] fs)
    /\ List.concat fs = units
    /\ Forall (fun f => f <> []) fs.
Proof.
  destruct (@covering_fold units [] initial [] [])
    as (fs & cur & Hch & Hcalls & Hcur & Hne & Hseen & Hcat);
    try reflexivity; [constructor | congruence |].
  cbn [app] in Hseen, Hcat. unfold buildChunks, flush.
  set (b := fold_left (addUnit now sf cs ov) units initial) in *.
  destruct (len (currentChunkUnits b) >? 0) eqn:Hc.
  - assert (Hcne : cur <> []).
    { intros ->. destruct units as [|x units]; [|apply Hseen; [discriminate | reflexivity]].
      destruct (@concat_nonempty_nil _ fs [] Hne Hcat) as [-> _].
      rewrite Hcur in Hc. discriminate. }
    exists (fs ++ [cur]). rewrite regroup_snoc, <- Hcur. split; [|split].
    + unfold pushChunk. rewrite chunksOf_app, Hch, Hcalls. cbn [chunksOf].
      unfold chunkOf, len. rewrite chunksOf_length, regroup_length. reflexivity.
    + rewrite concat_app. cbn [List.concat]. rewrite app_nil_r. assumption.
    + apply Forall_app. split; [assumption|]. constructor; [assumption | constructor].
  - assert (E : currentChunkUnits b = []).
    { apply len_zero. pose proof (len_nonneg (currentChunkUnits b)). lia. }
    rewrite Hcur in E. apply app_eq_nil in E as [_ ->].
    rewrite app_nil_r in Hcat. exists fs. auto.
Qed.

End Covering.

(** The early return for a text without visible characters changes
    nothing: [splitIntoUnits] finds no unit in such a text. *)
Lemma paragraphUnits_blank cs p : visible p = [] -> paragraphUnits cs p = Some [].
Proof.
  intros H. unfold paragraphUnits.
  destruct (trimmedP_of p) as [|c t] eqn:E; [reflexivity|].
  exfalso. unfold trimmedP_of in E.
  apply (@trim_nonempty_visible (replace_g re_spaces (js " ") p)).
  - rewrite E. discriminate.
  - rewrite visible_replace_g; [assumption | apply blank_spaces | reflexivity].
Qed.

Lemma visible_concat_nil l :
  visible (List.concat l) = [] -> forall p, In p l -> visible p = [].
Proof.
  induction l as [|x l IH]; intros H p Hp; [destruct Hp|].
  cbn [List.concat] in H. rewrite visible_app in H.
  apply app_eq_nil in H as [Hx Hl]. destruct Hp as [<-|Hp]; auto.
Qed.

Lemma paragraphsUnits_blank cs l :
  (forall p, In p l -> visible p = []) -> paragraphsUnits cs l = Some [].
Proof.
  induction l as [|p l IH]; intros H; [reflexivity|]. cbn [paragraphsUnits].
  rewrite paragraphUnits_blank by (apply H; left; reflexivity).
  rewrite IH by (intros q Hq; apply H; right; assumption). reflexivity.
Qed.

Lemma splitIntoUnits_blank cs text :
  visible text = [] -> splitIntoUnits cs text = Some [].
Proof.
  intros H. unfold splitIntoUnits. apply paragraphsUnits_blank.
  apply visible_concat_nil. rewrite visible_paragraphs. assumption.
Qed.

Lemma chunkText_unfold now sf cs ov text :
  chunkText now sf cs ov text
  = option_map (buildChunks now sf cs ov) (splitIntoUnits cs text).
Proof.
  destruct (visible text) as [|v vs] eqn:Ev.
  - rewrite chunkText_blank, splitIntoUnits_blank by assumption. reflexivity.
  - apply chunkText_visible. congruence.
Qed.

(* ------------------------------------------------------------------ *)
(** ** Texts with characters left out *)

Lemma scattered_refl (A : Type) (s : list A) : scattered s s.
Proof. induction s; [constructor | apply scattered_keep; assumption]. Qed.

Lemma scattered_nil_l (A : Type) (t : list A) : scattered [] t.
Proof. induction t; constructor; assumption. Qed.

Lemma scattered_app (A : Type) (s1 t1 s2 t2 : list A) :
  scattered s1 t1 -> scattered s2 t2 -> scattered (s1 ++ s2) (t1 ++ t2).
Proof.
  intros H1 H2. induction H1; cbn [app];
    [assumption | apply scattered_skip | apply scattered_keep]; assumption.
Qed.

Lemma scattered_trans (A : Type) (s t u : list A) :
  scattered s t -> scattered t u -> scattered s u.
Proof.
  intros Hst Htu. revert s Hst.
  induction Htu as [|x t u Htu IH|x t u Htu IH]; intros s Hst.
  - assumption.
  - constructor. apply IH. assumption.
  - inversion Hst; subst.
    + apply scattered_skip. apply IH. assumption.
    + apply scattered_keep. apply IH. assumption.
Qed.

Lemma scattered_filter (A : Type) (p : A -> bool) (s t : list A) :
  scattered s t -> scattered (filter p s) (filter p t).
Proof.
  intros H. induction H as [|x s t H IH|x s t H IH]; cbn [filter].
  - constructor.
  - destruct (p x); [apply scattered_skip|]; assumption.
  - destruct (p x); [apply scattered_keep|]; assumption.
Qed.

Lemma filter_scattered (A : Type) (p : A -> bool) (t : list A) :
  scattered (filter p t) t.
Proof.
  induction t as [|x t IH]; cbn [filter]; [constructor|].
  destruct (p x); [apply scattered_keep | apply scattered_skip]; assumption.
Qed.

Lemma scattered_in (A : Type) (s t : list A) x :
  scattered s t -> In x s -> In x t.
Proof.
  intros H. induction H as [|y s t H IH|y s t H IH]; intros Hx.
  - assumption.
  - right. auto.
  - destruct Hx as [->|Hx]; [left; reflexivity | right; auto].
Qed.

Lemma scattered_nil_r (A : Type) (s : list A) : scattered s [] -> s = [].
Proof. intros H. inversion H. reflexivity. Qed.

Lemma scattered_length (A : Type) (s t : list A) :
  scattered s t -> (List.length s <= List.length t)%nat.
Proof. intros H. induction H; cbn [List.length]; lia. Qed.

(** The test [subsequence] finds every scattering. *)
Lemma subsequence_tail t : forall c s,
  subsequence (c :: s) t = true -> subsequence s t = true.
Proof.
  induction t as [|d t IH]; intros c s H; [discriminate|].
  assert (Hskip : forall s', subsequence s' t = true -> subsequence s' (d :: t) = true).
  { intros [|c' s'] Hs'; [reflexivity|]. cbn [subsequence].
    destruct (c' =? d)%N; [apply (IH c'); assumption | assumption]. }
  cbn [subsequence] in H. destruct (c =? d)%N.
  - apply Hskip. assumption.
  - apply Hskip. apply (IH c). assumption.
Qed.

Lemma subsequence_complete s t : scattered s t -> subsequence s t = true.
Proof.
  intros H. induction H as [|x s t H IH|x s t H IH].
  - reflexivity.
  - destruct s as [|c s]; [reflexivity|]. cbn [subsequence].
    destruct (c =? x)%N; [apply (subsequence_tail _ _ _ IH) | assumption].
  - cbn [subsequence]. rewrite N.eqb_refl. assumption.
Qed.

Lemma subsequence_sound s : forall t, subsequence t s = true -> scattered t s.
Proof.
  induction s as [|d s IH]; intros t H.
  - destruct t; [constructor | discriminate].
  - destruct t as [|c t]; [apply scattered_nil_l|]. cbn [subsequence] in H.
    destruct (N.eqb_spec c d) as [->|Hcd].
    + apply scattered_keep. apply IH. assumption.
    + apply scattered_skip. apply IH. assumption.
Qed.

(* ------------------------------------------------------------------ *)
(** ** What the matches of an expression are made of *)

Lemma match_loop_scattered r : forall fuel s,
  scattered (List.concat (match_loop fuel r s)) s.
Proof.
  induction fuel as [|fuel IH]; intros s; [apply scattered_nil_l|].
  cbn [match_loop].
  destruct (search r s) as [[[before m] rest]|] eqn:Es; [|apply scattered_nil_l].
  apply search_sound in Es as [-> _]. cbn [List.concat].
  change (m ++ ?x) with ([] ++ m ++ x) at 1.
  apply scattered_app; [apply scattered_nil_l|].
  apply scattered_app; [apply scattered_refl|].
  destruct m as [|c m]; cbn [advance].
  - destruct rest as [|c rest]; [constructor|]. constructor. apply IH.
  - apply IH.
Qed.

Lemma match_g_scattered r s l :
  match_g r s = Some l -> scattered (List.concat l) s.
Proof.
  unfold match_g. intros H.
  pose proof (match_loop_scattered r (S (List.length s)) s) as Hs.
  destruct (match_loop (S (List.length s)) r s); [discriminate|].
  injection H as <-. assumption.
Qed.

(* ------------------------------------------------------------------ *)
(** ** Trimming *)

Lemma trimStart_suffix s : exists blanks, s = blanks ++ trimStart s.
Proof.
  induction s as [|c s (b & IH)]; [exists []; reflexivity|].
  cbn [trimStart]. destruct (is_space c).
  - exists (c :: b). cbn [app]. f_equal. assumption.
  - exists []. reflexivity.
Qed.

Lemma trim_middle s : exists before after, s = before ++ trim s ++ after.
Proof.
  unfold trim, trimEnd.
  destruct (trimStart_suffix s) as (b & Hb).
  destruct (trimStart_suffix (rev (trimStart s))) as (a & Ha).
  exists b, (rev a). rewrite <- rev_app_distr, <- Ha, rev_involutive. assumption.
Qed.

Lemma trim_scattered s : scattered (trim s) s.
Proof.
  destruct (trim_middle s) as (b & a & H). rewrite H at 2.
  change (trim s) with ([] ++ trim s) at 1.
  apply scattered_app; [apply scattered_nil_l|].
  rewrite <- (app_nil_r (trim s)) at 1.
  apply scattered_app; [apply scattered_refl | apply scattered_nil_l].
Qed.

(* ------------------------------------------------------------------ *)
(** ** What the units are made of *)

Section UnitsOfText.

Variable cs : Z.
Hypothesis cs_pos : 0 < cs.

Lemma sentenceUnits_concat s us :
  sentenceUnits cs s = Some us -> List.concat us = trim s.
Proof.
  unfold sentenceUnits. destruct (trim s) as [|c t] eqn:E.
  - intros H. injection H as <-. reflexivity.
  - destruct (len (c :: t) >? cs).
    + intros H. apply (@hardSplit_tiles cs (c :: t) cs_pos) in H as [H _]; [|lia]. exact H.
    + intros H. injection H as <-. cbn [List.concat]. apply app_nil_r.
Qed.

Lemma sentencesUnits_concat sentences : forall us,
  sentencesUnits cs sentences = Some us ->
  List.concat us = List.concat (List.map trim sentences).
Proof.
  induction sentences as [|s rest IH]; intros us H; cbn [sentencesUnits] in H.
  - injection H as <-. reflexivity.
  - destruct (sentenceUnits cs s) as [us1|] eqn:E1; [|discriminate].
    destruct (sentencesUnits cs rest) as [us2|] eqn:E2; [|discriminate].
    injection H as <-. cbn [List.map List.concat].
    rewrite concat_app, (sentenceUnits_concat _ E1), (IH _ eq_refl). reflexivity.
Qed.

Lemma concat_trim_scattered l :
  scattered (List.concat (List.map trim l)) (List.concat l).
Proof.
  induction l as [|s l IH]; cbn [List.map List.concat]; [constructor|].
  apply scattered_app; [apply trim_scattered | assumption].
Qed.

(** The units of a paragraph, put end to end, are its normalised text
    with some characters left out. *)
Lemma paragraphUnits_scattered p us :
  paragraphUnits cs p = Some us -> scattered (List.concat us) (trimmedP_of p).
Proof.
  unfold paragraphUnits. destruct (trimmedP_of p) as [|c t] eqn:E.
  - intros H. injection H as <-. constructor.
  - destruct (2 * len (c :: t) <? cs).
    + intros H. injection H as <-. cbn [List.concat]. rewrite app_nil_r.
      apply scattered_refl.
    + destruct (match_g re_sentence (c :: t)) as [sentences|] eqn:Em.
      * intros H. rewrite (sentencesUnits_concat _ H).
        eapply scattered_trans; [apply concat_trim_scattered|].
        apply match_g_scattered with (r := re_sentence). assumption.
      * intros H. injection H as <-. cbn [List.concat]. rewrite app_nil_r.
        apply scattered_refl.
Qed.

Lemma paragraphsUnits_scattered l : forall us,
  paragraphsUnits cs l = Some us ->
  scattered (List.concat us) (List.concat (List.map trimmedP_of l)).
Proof.
  induction l as [|p l IH]; intros us H; cbn [paragraphsUnits] in H.
  - injection H as <-. constructor.
  - destruct (paragraphUnits cs p) as [us1|] eqn:E1; [|discriminate].
    destruct (paragraphsUnits cs l) as [us2|] eqn:E2; [|discriminate].
    injection H as <-. cbn [List.map List.concat]. rewrite concat_app.
    apply scattered_app; [apply paragraphUnits_scattered; assumption | apply IH; reflexivity].
Qed.

Lemma visible_trimmed_paragraphs l :
  visible (List.concat (List.map trimmedP_of l)) = visible (List.concat l).
Proof.
  induction l as [|p l IH]; [reflexivity|]. cbn [List.map List.concat].
  rewrite !visible_app, IH, (visible_trimmedP p). reflexivity.
Qed.

Lemma splitIntoUnits_scattered text units :
  splitIntoUnits cs text = Some units ->
  scattered (visible (List.concat units)) (visible text).
Proof.
  intros H. unfold splitIntoUnits in H. apply paragraphsUnits_scattered in H.
  apply (scattered_filter (fun c => negb (is_space c))) in H.
  fold (visible (List.concat units)) in H.
  fold (visible (List.concat (List.map trimmedP_of (paragraphs_of text)))) in H.
  rewrite visible_trimmed_paragraphs, visible_paragraphs in H. exact H.
Qed.

(** *** Texts without [. ! ?] *)

Lemma star_fails (p q : char -> bool) (k : cont) s :
  forallb q s = true -> (forall t, forallb q t = true -> k t = None) ->
  star p s k = None.
Proof.
  intros Hs Hk. induction s as [|c s IH]; cbn [star]; [apply Hk; reflexivity|].
  pose proof Hs as Hs'. cbn [forallb] in Hs'. apply andb_prop in Hs' as [_ Hs'].
  rewrite (IH Hs'), (Hk _ Hs). destruct (p c); reflexivity.
Qed.

Lemma star_to_the_end (p : char -> bool) s :
  forallb p s = true ->
  star p s (fun s' => run EndOfInput s' (fun rest => Some rest)) = Some [].
Proof.
  induction s as [|c s IH]; cbn [star forallb]; [reflexivity|].
  intros H. apply andb_prop in H as [-> H]. rewrite (IH H). reflexivity.
Qed.

Lemma consumed_all s : consumed s [] = s.
Proof. unfold consumed. cbn [List.length]. rewrite Nat.sub_0_r. apply firstn_all. Qed.

Lemma sentence_of_plain_text s :
  s <> [] -> forallb not_punct s = true -> match_g re_sentence s = Some [s].
Proof.
  intros Hne Hs. destruct s as [|c s]; [congruence|].
  pose proof Hs as Hs'. cbn [forallb] in Hs'. apply andb_prop in Hs' as [Hc Hs'].
  assert (He : exec_at re_sentence (c :: s) = Some []).
  { unfold exec_at, re_sentence. cbn [run]. rewrite Hc.
    rewrite (@star_fails not_punct not_punct _ s Hs').
    - apply star_to_the_end. assumption.
    - intros [|d t] Ht; [reflexivity|]. cbn [forallb] in Ht.
      apply andb_prop in Ht as [Hd _]. unfold not_punct in Hd.
      destruct (is_punct d); [discriminate | reflexivity]. }
  unfold match_g. cbn [List.length match_loop search]. rewrite He.
  rewrite consumed_all. reflexivity.
Qed.

Lemma paragraphUnits_lossless p us :
  2 * len (trimmedP_of p) < cs \/ forallb not_punct (trimmedP_of p) = true ->
  paragraphUnits cs p = Some us ->
  visible (List.concat us) = visible p.
Proof.
  intros Hp. rewrite <- (visible_trimmedP p). unfold paragraphUnits.
  destruct (trimmedP_of p) as [|c t] eqn:E.
  - intros H. injection H as <-. reflexivity.
  - destruct (2 * len (c :: t) <? cs) eqn:Hshort.
    + intros H. injection H as <-. cbn [List.concat]. rewrite app_nil_r. reflexivity.
    + destruct Hp as [Hp|Hp]; [lia|].
      rewrite sentence_of_plain_text by (assumption || discriminate).
      cbn [sentencesUnits].
      destruct (sentenceUnits cs (c :: t)) as [us1|] eqn:E1; [|discriminate].
      intros H. injection H as <-. rewrite app_nil_r.
      rewrite (sentenceUnits_concat _ E1). apply visible_trim.
Qed.

Lemma paragraphsUnits_lossless l : forall us,
  (forall p, In p l ->
     2 * len (trimmedP_of p) < cs \/ forallb not_punct (trimmedP_of p) = true) ->
  paragraphsUnits cs l = Some us ->
  visible (List.concat us) = visible (List.concat l).
Proof.
  induction l as [|p l IH]; intros us Hl H; cbn [paragraphsUnits] in H.
  - injection H as <-. reflexivity.
  - destruct (paragraphUnits cs p) as [us1|] eqn:E1; [|discriminate].
    destruct (paragraphsUnits cs l) as [us2|] eqn:E2; [|discriminate].
    injection H as <-. cbn [List.concat]. rewrite concat_app, !visible_app.
    rewrite (paragraphUnits_lossless p (Hl p (or_introl eq_refl)) E1).
    rewrite (IH us2) by (auto using in_cons). reflexivity.
Qed.

End UnitsOfText.

(* ------------------------------------------------------------------ *)
(** ** White space after normalisation *)

Lemma plain_spaces_app s t : plain_spaces s -> plain_spaces t -> plain_spaces (s ++ t).
Proof.
  intros Hs Ht c Hc. apply in_app_or in Hc as [Hc|Hc]; [apply Hs | apply Ht]; assumption.
Qed.

Lemma plain_spaces_visible s :
  forallb (fun c => negb (is_space c)) s = true -> plain_spaces s.
Proof.
  intros H c Hc Hsp. rewrite forallb_forall in H. specialize (H c Hc).
  rewrite Hsp in H. discriminate.
Qed.

Lemma plain_spaces_space : plain_spaces (js " ").
Proof. intros c [<-|[]] _. reflexivity. Qed.

Lemma plain_spaces_incl s t : incl s t -> plain_spaces t -> plain_spaces s.
Proof. intros Hi Ht c Hc. apply Ht, Hi, Hc. Qed.

Lemma plain_spaces_join us :
  Forall plain_spaces us -> plain_spaces (join (js " ") us).
Proof.
  induction us as [|u us IH]; intros H; [intros c []|].
  inversion H as [|? ? Hu Hus]; subst. destruct us as [|v us]; [exact Hu|].
  rewrite join_cons by discriminate.
  apply plain_spaces_app; [assumption|].
  apply plain_spaces_app; [apply plain_spaces_space | apply IH; assumption].
Qed.

Lemma exec_at_spaces c s : is_space c = true -> exec_at re_spaces (c :: s) <> None.
Proof.
  intros H. unfold exec_at, re_spaces. cbn [run]. rewrite H.
  apply star_skip. discriminate.
Qed.

Lemma search_spaces s : forall before m rest,
  search re_spaces s = Some (before, m, rest) ->
  forallb (fun c => negb (is_space c)) before = true /\ m <> [].
Proof.
  induction s as [|c s IH]; intros before m rest H; cbn [search] in H.
  - destruct (exec_at re_spaces []) eqn:E; discriminate.
  - destruct (exec_at re_spaces (c :: s)) as [x|] eqn:E.
    + injection H as <- <- <-. split; [reflexivity|].
      apply exec_at_sound in E as (m & _ & [Hm _] & ->). assumption.
    + destruct (search re_spaces s) as [[[b' m'] rest']|] eqn:Es; [|discriminate].
      injection H as <- <- <-. destruct (IH _ _ _ eq_refl) as [Hb Hm].
      split; [|assumption]. cbn [forallb]. rewrite Hb.
      destruct (is_space c) eqn:Hc; [|reflexivity].
      exfalso. apply (@exec_at_spaces c s Hc). assumption.
Qed.

Lemma search_spaces_none s :
  search re_spaces s = None -> forallb (fun c => negb (is_space c)) s = true.
Proof.
  induction s as [|c s IH]; intros H; [reflexivity|]. cbn [search] in H.
  destruct (exec_at re_spaces (c :: s)) as [x|] eqn:E; [discriminate|].
  destruct (search re_spaces s) as [[[b' m'] rest']|] eqn:Es; [discriminate|].
  cbn [forallb]. rewrite (IH eq_refl).
  destruct (is_space c) eqn:Hc; [|reflexivity].
  exfalso. apply (@exec_at_spaces c s Hc). assumption.
Qed.

Lemma replace_spaces_plain : forall fuel s,
  (List.length s < fuel)%nat ->
  plain_spaces (replace_loop fuel re_spaces (js " ") s).
Proof.
  induction fuel as [|fuel IH]; intros s Hfuel; [lia|]. cbn [replace_loop].
  destruct (search re_spaces s) as [[[before m] rest]|] eqn:Es.
  - destruct (search_spaces _ Es) as [Hb Hm].
    apply plain_spaces_app; [apply plain_spaces_visible; assumption|].
    apply plain_spaces_app; [apply plain_spaces_space|].
    destruct (advance m rest) as [[skipped rest']|] eqn:Ea; [|intros c []].
    pose proof (advance_shorter _ _ Es Ea) as Hlt.
    destruct m as [|d m]; [congruence|]. cbn [advance] in Ea. injection Ea as <- <-.
    cbn [app]. apply IH. lia.
  - apply plain_spaces_visible, search_spaces_none. assumption.
Qed.

Lemma trimmedP_plain p : plain_spaces (trimmedP_of p).
Proof.
  unfold trimmedP_of.
  apply plain_spaces_incl with (t := replace_g re_spaces (js " ") p).
  - intros c Hc. eapply scattered_in; [apply trim_scattered | exact Hc].
  - apply replace_spaces_plain. lia.
Qed.

Lemma in_concat_incl (A : Type) (l : list (list A)) u : In u l -> incl u (List.concat l).
Proof. intros Hu x Hx. apply in_concat. eauto. Qed.

Lemma paragraphsUnits_plain cs : 0 < cs -> forall l us,
  paragraphsUnits cs l = Some us -> Forall plain_spaces us.
Proof.
  intros Hcs l us H. apply Forall_forall. intros u Hu.
  apply (paragraphsUnits_scattered Hcs) in H.
  apply plain_spaces_incl with (t := List.concat (List.map trimmedP_of l)).
  - intros c Hc. eapply scattered_in; [exact H|]. apply (in_concat_incl _ _ Hu). assumption.
  - intros c Hc. apply in_concat in Hc as (t & Ht & Hc).
    apply in_map_iff in Ht as (p & <- & _). apply (trimmedP_plain p). assumption.
Qed.

Lemma join_nonempty sep us :
  us <> [] -> Forall (fun u => u <> []) us -> join sep us <> [].
Proof.
  intros Hne H. destruct us as [|u us]; [congruence|].
  inversion H; subst. destruct us as [|v us]; [assumption|].
  rewrite join_cons by discriminate. destruct u; [congruence | discriminate].
Qed.

(* ------------------------------------------------------------------ *)
(** ** Units that fit into one chunk, and units that do not *)

Section OneChunk.

Variable now : clock.
Variable sf : jsstring.
Variables cs ov : Z.

Lemma addUnit_length b u :
  currentChunkLength b = total_len (currentChunkUnits b) ->
  currentChunkLength (addUnit now sf cs ov b u)
  = total_len (currentChunkUnits (addUnit now sf cs ov b u)).
Proof.
  intros H. unfold addUnit.
  destruct ((currentChunkLength b + len u + 1 >? cs) && (len (currentChunkUnits b) >? 0)).
  - destruct (keptUnits_spec ov (currentChunkUnits b)) as (before & _ & Hsnd & _).
    unfold keptUnits in Hsnd.
    destruct (overlapLoop ov (rev (currentChunkUnits b)) [] 0) as [overlapUnits n].
    cbn [fst snd] in Hsnd. cbn [currentChunkLength currentChunkUnits].
    rewrite total_len_app. cbn [total_len]. lia.
  - cbn [currentChunkLength currentChunkUnits].
    rewrite total_len_app. cbn [total_len]. lia.
Qed.

Lemma addUnit_grows b u :
  (List.length (chunks b) <= List.length (chunks (addUnit now sf cs ov b u)))%nat
  /\ currentChunkUnits (addUnit now sf cs ov b u) <> [].
Proof.
  unfold addUnit.
  destruct ((currentChunkLength b + len u + 1 >? cs) && (len (currentChunkUnits b) >? 0)).
  - destruct (overlapLoop ov (rev (currentChunkUnits b)) [] 0) as [overlapUnits n].
    cbn [chunks currentChunkUnits]. unfold pushChunk. rewrite length_app.
    split; [lia | destruct overlapUnits; discriminate].
  - cbn [chunks currentChunkUnits].
    split; [lia | destruct (currentChunkUnits b); discriminate].
Qed.

Lemma fold_addUnit_grows units : forall b,
  currentChunkUnits b <> [] ->
  (List.length (chunks b)
   <= List.length (chunks (fold_left (addUnit now sf cs ov) units b)))%nat
  /\ currentChunkUnits (fold_left (addUnit now sf cs ov) units b) <> [].
Proof.
  induction units as [|u units IH]; intros b Hb; cbn [fold_left]; [auto|].
  destruct (addUnit_grows b u) as [H1 H2]. destruct (IH _ H2) as [H3 H4].
  split; [lia | assumption].
Qed.

(** Units that fit are all added to the open chunk. *)
Lemma fold_addUnit_fits units : forall b,
  currentChunkLength b = total_len (currentChunkUnits b) ->
  total_len (currentChunkUnits b) + total_len units <= cs ->
  fold_left (addUnit now sf cs ov) units b
  = {| chunks := chunks b;
       currentChunkUnits := currentChunkUnits b ++ units;
       currentChunkLength := total_len (currentChunkUnits b ++ units);
       calls := calls b |}.
Proof.
  induction units as [|u units IH]; intros b Hlen Hfit; cbn [fold_left].
  - rewrite app_nil_r, <- Hlen. destruct b; reflexivity.
  - cbn [total_len] in Hfit. pose proof (total_len_nonneg units).
    assert (E : addUnit now sf cs ov b u
                = {| chunks := chunks b;
                     currentChunkUnits := currentChunkUnits b ++ [u];
                     currentChunkLength := currentChunkLength b + len u + 1;
                     calls := calls b |}).
    { unfold addUnit.
      destruct (Z.gtb_spec (currentChunkLength b + len u + 1) cs) as [Hgt|Hle]; [lia|].
      reflexivity. }
    rewrite E, IH; cbn [chunks currentChunkUnits currentChunkLength calls].
    + rewrite <- app_assoc. reflexivity.
    + rewrite total_len_app. cbn [total_len]. lia.
    + rewrite total_len_app. cbn [total_len]. lia.
Qed.

(** Units that do not fit close a chunk. *)
Lemma fold_addUnit_overflows units : forall b,
  currentChunkUnits b <> [] ->
  currentChunkLength b = total_len (currentChunkUnits b) ->
  cs < total_len (currentChunkUnits b) + total_len units ->
  units <> [] ->
  (S (List.length (chunks b))
   <= List.length (chunks (fold_left (addUnit now sf cs ov) units b)))%nat
  /\ currentChunkUnits (fold_left (addUnit now sf cs ov) units b) <> [].
Proof.
  induction units as [|u units IH]; intros b Hne Hlen Hbig Hunits; [congruence|].
  cbn [fold_left]. cbn [total_len] in Hbig.
  pose proof (addUnit_length b u Hlen) as Hlen'.
  destruct (addUnit_grows b u) as [Hg1 Hg2].
  destruct (Z.gtb_spec (currentChunkLength b + len u + 1) cs) as [Hgt|Hle].
  - assert (Hpush : (S (List.length (chunks b))
                     <= List.length (chunks (addUnit now sf cs ov b u)))%nat).
    { unfold addUnit.
      destruct (Z.gtb_spec (currentChunkLength b + len u + 1) cs) as [_|Hle]; [|lia].
      destruct (Z.gtb_spec (len (currentChunkUnits b)) 0) as [_|Hz].
      - cbn [andb]. destruct (overlapLoop ov (rev (currentChunkUnits b)) [] 0).
        cbn [chunks]. unfold pushChunk. rewrite length_app. cbn. lia.
      - destruct (currentChunkUnits b); [congruence|]. rewrite len_cons in Hz.
        pose proof (len_nonneg l). lia. }
    destruct (fold_addUnit_grows units _ Hg2) as [H1 H2].
    split; [lia | assumption].
  - assert (E : addUnit now sf cs ov b u
                = {| chunks := chunks b;
                     currentChunkUnits := currentChunkUnits b ++ [u];
                     currentChunkLength := currentChunkLength b + len u + 1;
                     calls := calls b |}).
    { unfold addUnit.
      destruct (Z.gtb_spec (currentChunkLength b + len u + 1) cs) as [Hgt|_]; [lia|].
      reflexivity. }
    destruct units as [|v units]; [cbn [total_len] in Hbig; lia|].
    rewrite E in Hg2, Hlen' |- *.
    match goal with |- context [fold_left _ _ ?b0] => set (b' := b0) in * end.
    destruct (IH b') as [H1 H2]; subst b';
      cbn [chunks currentChunkUnits currentChunkLength] in *;
      [assumption | assumption | | discriminate | split; assumption].
    rewrite total_len_app. cbn [total_len] in *. lia.
Qed.

Lemma buildChunks_fits units :
  units <> [] -> total_len units <= cs ->
  buildChunks now sf cs ov units = [chunkOf now sf 0 units].
Proof.
  intros Hne Hfit. unfold buildChunks.
  rewrite fold_addUnit_fits by (cbn; lia || reflexivity).
  unfold flush. cbn [initial chunks currentChunkUnits calls app].
  destruct units as [|u units]; [congruence|]. rewrite len_cons.
  pose proof (len_nonneg units).
  destruct (Z.gtb_spec (len units + 1) 0); [|lia]. reflexivity.
Qed.

Lemma buildChunks_single u :
  buildChunks now sf cs ov [u] = [chunkOf now sf 0 [u]].
Proof.
  unfold buildChunks, flush. cbn [fold_left]. unfold addUnit.
  cbn [initial currentChunkUnits currentChunkLength chunks calls len List.length].
  rewrite andb_false_r. cbn [currentChunkUnits chunks calls app len List.length].
  reflexivity.
Qed.

Lemma buildChunks_overflows u v units :
  cs < total_len (u :: v :: units) ->
  (2 <= List.length (buildChunks now sf cs ov (u :: v :: units)))%nat.
Proof.
  intros Hbig. unfold buildChunks.
  replace (fold_left (addUnit now sf cs ov) (u :: v :: units) initial)
    with (fold_left (addUnit now sf cs ov) (v :: units) (addUnit now sf cs ov initial u))
    by reflexivity.
  assert (E : addUnit now sf cs ov initial u
              = {| chunks := []; currentChunkUnits := [u];
                   currentChunkLength := 0 + len u + 1; calls := O |}).
  { unfold addUnit. cbn [initial currentChunkUnits len List.length].
    rewrite andb_false_r. reflexivity. }
  rewrite E.
  match goal with |- context [fold_left _ _ ?b0] => set (b := b0) end.
  destruct (@fold_addUnit_overflows (v :: units) b) as [H1 H2].
  { subst b. cbn [currentChunkUnits]. discriminate. }
  { subst b. cbn [currentChunkUnits currentChunkLength total_len]. lia. }
  { subst b. cbn [currentChunkUnits total_len] in *. lia. }
  { discriminate. }
  unfold flush.
  destruct (Z.gtb_spec (len (currentChunkUnits (fold_left (addUnit now sf cs ov) (v :: units) b))) 0)
    as [_|Hz].
  - unfold pushChunk. rewrite length_app. subst b. cbn [chunks List.length] in *. lia.
  - destruct (currentChunkUnits (fold_left (addUnit now sf cs ov) (v :: units) b));
      [congruence|]. rewrite len_cons in Hz. pose proof (len_nonneg l). lia.
Qed.

End OneChunk.

(* ------------------------------------------------------------------ *)
(** ** A chunk size that is not positive *)



Section NotPositive.

Variable cs : Z.
Hypothesis cs_le : cs <= 0.




End NotPositive.

(* ------------------------------------------------------------------ *)
(** ** Decimal numerals and identifiers *)

Lemma js_inj s t : js s = js t -> s = t.
Proof.
  unfold js. intros H.
  rewrite <- (string_of_list_ascii_of_string s), <- (string_of_list_ascii_of_string t).
  f_equal. revert H. generalize (list_ascii_of_string s) (list_ascii_of_string t).
  induction l as [|a l IH]; intros [|b l'] H; try discriminate; [reflexivity|].
  injection H as Hab Hl. f_equal; [|apply IH; assumption].
  rewrite <- (ascii_N_embedding a), <- (ascii_N_embedding b). f_equal. assumption.
Qed.

Lemma digits_of_uint d :
  forallb is_digit (js (NilEmpty.string_of_uint d)) = true.
Proof. induction d; cbn [NilEmpty.string_of_uint]; try reflexivity; exact IHd. Qed.

Lemma decimal_digits z : 0 <= z -> forallb is_digit (decimal z) = true.
Proof.
  intros Hz. unfold decimal. destruct z as [|p|p]; [reflexivity| |lia].
  cbn [Z.to_int NilZero.string_of_int]. unfold NilZero.string_of_uint.
  pose proof (digits_of_uint (Pos.to_uint p)) as H.
  destruct (Pos.to_uint p); [reflexivity | exact H ..].
Qed.

Lemma decimal_inj z z' : decimal z = decimal z' -> z = z'.
Proof.
  unfold decimal. intros H. apply js_inj in H.
  apply DecimalZ.to_int_inj.
  assert (Hn : forall z, Z.to_int z <> Decimal.Pos Decimal.Nil
                         /\ Z.to_int z <> Decimal.Neg Decimal.Nil).
  { intros [|p|p]; cbn [Z.to_int]; split; try discriminate;
      intros E; injection E as E; exact (DecimalPos.Unsigned.to_uint_nonnil p E). }
  assert (E : Some (Z.to_int z) = Some (Z.to_int z')).
  { rewrite <- (NilZero.isi (Z.to_int z)) by apply Hn.
    rewrite <- (NilZero.isi (Z.to_int z')) by apply Hn.
    rewrite H. reflexivity. }
  injection E as E. exact E.
Qed.

(** Two texts that start with digits and go on with a hyphen are equal
    only when the digits are. *)
Lemma digits_then_hyphen a : forall b x y,
  forallb is_digit a = true -> forallb is_digit b = true ->
  a ++ js "-" ++ x = b ++ js "-" ++ y -> a = b.
Proof.
  induction a as [|c a IH]; intros [|d b] x y Ha Hb H; cbn [app forallb] in *.
  - reflexivity.
  - injection H as <- _. discriminate.
  - injection H as -> _. discriminate.
  - apply andb_prop in Ha as [_ Ha]. apply andb_prop in Hb as [_ Hb].
    injection H as -> H. f_equal. apply (IH b x y); assumption.
Qed.

Lemma chunkOf_id_inj now sf i j g h :
  id (chunkOf now sf i g) = id (chunkOf now sf j h) -> i = j.
Proof.
  cbn [id chunkOf]. intros H. apply app_inv_head in H.
  change (js "-" ++ ?x) with ([] ++ js "-" ++ x) in H. apply app_inv_head in H.
  cbn [app] in H. injection H as H.
  apply digits_then_hyphen in H; try (apply decimal_digits; lia).
  apply decimal_inj in H. lia.
Qed.

Lemma chunksOf_ids now sf gs : forall i c,
  In c (chunksOf now sf i gs) -> exists j g, (i <= j)%nat /\ c = chunkOf now sf j g.
Proof.
  induction gs as [|g gs IH]; intros i c H; [destruct H|].
  cbn [chunksOf] in H. destruct H as [<-|H]; [exists i, g; auto|].
  destruct (IH _ _ H) as (j & h & Hj & ->). exists j, h. split; [lia | reflexivity].
Qed.

Lemma chunksOf_NoDup now sf gs : forall i,
  NoDup (List.map id (chunksOf now sf i gs)).
Proof.
  induction gs as [|g gs IH]; intros i; cbn [chunksOf List.map]; constructor; [|apply IH].
  intros H. apply in_map_iff in H as (c & Hid & Hc).
  apply chunksOf_ids in Hc as (j & h & Hj & ->).
  apply chunkOf_id_inj in Hid. lia.
Qed.

(* ------------------------------------------------------------------ *)
(** ** Chunks without overlap *)

Lemma chunksOf_content now sf gs : forall i,
  List.map content (chunksOf now sf i gs) = List.map (join (js " ")) gs.
Proof. induction gs as [|g gs IH]; intros i; cbn; [|rewrite IH]; reflexivity. Qed.

Lemma last_in (A : Type) (l : list A) d : l <> [] -> In (last l d) l.
Proof.
  induction l as [|x l IH]; [congruence|]. intros _.
  destruct l as [|y l]; [left; reflexivity|].
  right. apply IH. discriminate.
Qed.

Lemma keptUnits_zero g : Forall (fun u => u <> []) g -> keptUnits 0 g = [].
Proof.
  intros H. destruct g as [|u g]; [reflexivity|].
  apply keptUnits_nil; [discriminate|].
  rewrite Forall_forall in H.
  specialize (H _ (@last_in _ (u :: g) [] ltac:(discriminate))).
  assert (E : forall x : jsstring, x <> [] -> 0 < len x).
  { intros [|c l] Hx; [congruence|]. rewrite len_cons. pose proof (len_nonneg l). lia. }
  apply E. exact H.
Qed.

Lemma regroup_zero fs : forall prev,
  Forall (fun u => u <> []) prev ->
  Forall (Forall (fun u => u <> [])) fs ->
  regroup 0 prev fs = fs.
Proof.
  induction fs as [|f fs IH]; intros prev Hp Hfs; [reflexivity|].
  inversion Hfs; subst. cbn [regroup].
  rewrite keptUnits_zero by assumption. cbn [app].
  rewrite IH by assumption. reflexivity.
Qed.

Lemma Forall_concat (A : Type) (P : A -> Prop) (fs : list (list A)) :
  Forall P (List.concat fs) -> Forall (Forall P) fs.
Proof.
  induction fs as [|f fs IH]; intros H; [constructor|].
  cbn [List.concat] in H. apply Forall_app in H as [H1 H2].
  constructor; auto.
Qed.

Lemma join_join sep fs :
  Forall (fun f => f <> []) fs ->
  join sep (List.map (join sep) fs) = join sep (List.concat fs).
Proof.
  induction fs as [|f fs IH]; intros H; [reflexivity|].
  inversion H as [|? ? Hf Hfs]; subst. cbn [List.map List.concat].
  destruct fs as [|f' fs].
  - cbn [List.map List.concat join]. rewrite app_nil_r. reflexivity.
  - rewrite join_cons by discriminate. rewrite IH by assumption.
    rewrite join_app; [reflexivity | assumption |].
    inversion Hfs; subst. cbn [List.concat]. destruct f'; [congruence | discriminate].
Qed.

(* ------------------------------------------------------------------ *)
(** ** What a chunk is made of *)

Lemma scattered_concat (A : Type) (g l : list (list A)) :
  scattered g l -> scattered (List.concat g) (List.concat l).
Proof.
  intros H. induction H as [|x g l H IH|x g l H IH]; cbn [List.concat].
  - constructor.
  - change (List.concat g) with ([] ++ List.concat g).
    apply scattered_app; [apply scattered_nil_l | assumption].
  - apply scattered_app; [apply scattered_refl | assumption].
Qed.

Lemma concat_scattered_join sep g : scattered (List.concat g) (join sep g).
Proof.
  induction g as [|u g IH]; [constructor|]. cbn [List.concat].
  destruct g as [|v g].
  - cbn [List.concat join]. rewrite app_nil_r. apply scattered_refl.
  - rewrite join_cons by discriminate.
    apply scattered_app; [apply scattered_refl|].
    change (List.concat (v :: g)) with ([] ++ List.concat (v :: g)).
    apply scattered_app; [apply scattered_nil_l | assumption].
Qed.

Lemma visible_join g : visible (join (js " ") g) = visible (List.concat g).
Proof.
  induction g as [|u g IH]; [reflexivity|]. cbn [List.concat].
  destruct g as [|v g].
  - cbn [List.concat join]. rewrite app_nil_r. reflexivity.
  - rewrite join_cons by discriminate. rewrite !visible_app, IH. reflexivity.
Qed.

Lemma keptUnits_scattered ov g : scattered (keptUnits ov g) g.
Proof.
  destruct (keptUnits_spec ov g) as (before & H & _). rewrite H at 2.
  change (keptUnits ov g) with ([] ++ keptUnits ov g) at 1.
  apply scattered_app; [apply scattered_nil_l | apply scattered_refl].
Qed.

(** Every chunk is made of units of the text, in their order. *)
Lemma regroup_scattered ov fs : forall prev,
  Forall (fun g => scattered g (prev ++ List.concat fs)) (regroup ov prev fs).
Proof.
  induction fs as [|f fs IH]; intros prev; cbn [regroup List.concat]; [constructor|].
  assert (H1 : scattered (keptUnits ov prev ++ f) (prev ++ f)).
  { apply scattered_app; [apply keptUnits_scattered | apply scattered_refl]. }
  constructor.
  - rewrite app_assoc. rewrite <- (app_nil_r (keptUnits ov prev ++ f)).
    apply scattered_app; [assumption | apply scattered_nil_l].
  - eapply Forall_impl; [|apply IH]. cbn beta. intros g Hg.
    eapply scattered_trans; [exact Hg|]. rewrite app_assoc.
    apply scattered_app; [assumption | apply scattered_refl].
Qed.

Lemma regroup_fresh ov fs : forall prev,
  scattered (List.concat (List.concat fs))
            (List.concat (List.map (join (js " ")) (regroup ov prev fs))).
Proof.
  induction fs as [|f fs IH]; intros prev; cbn [regroup List.concat List.map]; [constructor|].
  rewrite concat_app. apply scattered_app; [|apply IH].
  eapply scattered_trans; [|apply concat_scattered_join].
  rewrite concat_app. change (List.concat f) with ([] ++ List.concat f) at 1.
  apply scattered_app; [apply scattered_nil_l | apply scattered_refl].
Qed.

Lemma length_concat_nonempty (A : Type) (fs : list (list A)) :
  Forall (fun f => f <> []) fs -> (List.length fs <= List.length (List.concat fs))%nat.
Proof.
  induction fs as [|f fs IH]; intros H; [cbn; lia|].
  inversion H; subst. cbn [List.concat List.length]. rewrite length_app.
  specialize (IH ltac:(assumption)). destruct f; [congruence|]. cbn [List.length]. lia.
Qed.

(* ------------------------------------------------------------------ *)
(** ** Rankings that do not depend on the order of the base *)

Lemma scoreChunks_perm q base : forall base' scored,
  Permutation base base' ->
  scoreChunks q base = inr scored ->
  exists scored', scoreChunks q base' = inr scored' /\ Permutation scored scored'.
Proof.
  intros base' scored Hp. revert scored.
  induction Hp as [|c l l' Hp IH|c d l|l l' l'' Hp1 IH1 Hp2 IH2]; intros scored H.
  - exists scored. split; [assumption | apply Permutation_refl].
  - cbn [scoreChunks] in *.
    destruct (cosineSimilarity q (embedding c)) as [e|s]; [discriminate|].
    destruct (scoreChunks q l) as [e|sl]; [discriminate|]. injection H as <-.
    destruct (IH _ eq_refl) as (sl' & -> & Hs). eexists. split; [reflexivity|].
    apply perm_skip. assumption.
  - cbn [scoreChunks] in *.
    destruct (cosineSimilarity q (embedding d)) as [e|s]; [discriminate|].
    destruct (cosineSimilarity q (embedding c)) as [e|s']; [discriminate|].
    destruct (scoreChunks q l) as [e|sl]; [discriminate|]. injection H as <-.
    eexists. split; [reflexivity|]. apply perm_swap.
  - destruct (IH1 _ H) as (s1 & H1 & P1). destruct (IH2 _ H1) as (s2 & H2 & P2).
    exists s2. split; [assumption|]. eapply Permutation_trans; eassumption.
Qed.

Lemma tied_perm s l l' :
  Permutation l l' -> Permutation (tied s l) (tied s l').
Proof.
  unfold tied. intros H.
  induction H as [|x l l' H IH|x y l|l l' l'' H1 IH1 H2 IH2]; cbn [filter].
  - constructor.
  - destruct (eqb (score x) s); [apply perm_skip|]; assumption.
  - destruct (eqb (score y) s), (eqb (score x) s);
      try apply perm_swap; apply Permutation_refl.
  - eapply Permutation_trans; eassumption.
Qed.

Lemma eqb_refl x : is_nan x = false -> eqb x x = true.
Proof. intros H. apply eqb_rank. auto. Qed.

(** Two numbers, each at most the other, are equal. *)
Lemma leb_antisym x y : leb x y = true -> leb y x = true -> eqb x y = true.
Proof.
  rewrite !leb_rank, eqb_rank. intros (Nx & Ny & H1) (_ & _ & H2).
  split; [assumption|]. split; [assumption|].
  destruct (lex_spec (rank x) (rank y)) as [E|L|G]; [assumption | contradiction ..].
Qed.

(** A list without equal scores has one ranking only. *)
Lemma ranking_unique l : forall l',
  Permutation l l' ->
  StronglySorted outranks l -> StronglySorted outranks l' ->
  Forall well_scored l ->
  (forall s, (List.length (tied s l) <= 1)%nat) ->
  l = l'.
Proof.
  induction l as [|x t IH]; intros l' Hp Hs Hs' Hgood Hties.
  - apply Permutation_nil in Hp. congruence.
  - destruct l' as [|y t']; [apply Permutation_sym, Permutation_nil in Hp; discriminate|].
    assert (Hxy : x = y).
    { assert (Hx : In x (y :: t')) by (apply (Permutation_in _ Hp); left; reflexivity).
      assert (Hy : In y (x :: t))
        by (apply (Permutation_in _ (Permutation_sym Hp)); left; reflexivity).
      destruct Hx as [Hx|Hx]; [congruence|]. destruct Hy as [Hy|Hy]; [assumption|].
      exfalso. inversion Hs as [|? ? _ Hxt]; subst. inversion Hs' as [|? ? _ Hyt]; subst.
      rewrite Forall_forall in Hxt, Hyt.
      specialize (Hxt y Hy). specialize (Hyt x Hx). unfold outranks in Hxt, Hyt.
      pose proof (leb_antisym _ _ Hxt Hyt) as He.
      inversion Hgood as [|? ? [_ Nx] _]; subst.
      specialize (Hties (score x)). unfold tied in Hties. cbn [filter] in Hties.
      rewrite (eqb_refl _ Nx) in Hties. cbn [List.length] in Hties.
      assert (Hin : In y (filter (fun z => eqb (score z) (score x)) t))
        by (apply filter_In; split; assumption).
      destruct (filter (fun z => eqb (score z) (score x)) t); [destruct Hin | cbn in Hties; lia]. }
    subst y. f_equal. apply IH.
    + apply Permutation_cons_inv with (a := x). assumption.
    + inversion Hs; assumption.
    + inversion Hs'; assumption.
    + inversion Hgood; assumption.
    + intros s. specialize (Hties s). unfold tied in *. cbn [filter] in Hties.
      destruct (eqb (score x) s); cbn [List.length] in Hties; lia.
Qed.

(* ------------------------------------------------------------------ *)
(** ** A query without direction *)

Lemma cosineSimilarity_of_zero vecA vecB :
  List.length vecA = List.length vecB -> zero_vector vecA = true ->
  cosineSimilarity vecA vecB = inr zero.
Proof.
  intros Hlen Hz. unfold cosineSimilarity.
  apply Nat.eqb_eq in Hlen. rewrite Hlen. cbn [negb].
  pose proof (norms_of_zero_vectors (combine vecA vecB) zero zero zero) as H.
  destruct (fold_left accumulate (combine vecA vecB) (zero, zero, zero)) as [[d na] nb].
  destruct H as [Ha _].
  rewrite (Ha (forallb_combine_fst _ _ vecB Hz) eq_refl). reflexivity.
Qed.

Lemma scoreChunks_of_zero q base :
  zero_vector q = true ->
  (forall c, In c base -> List.length (embedding c) = List.length q) ->
  scoreChunks q base = inr (List.map (fun c => {| chunk := c; score := zero |}) base).
Proof.
  intros Hz. induction base as [|c base IH]; intros Hdim; [reflexivity|].
  cbn [scoreChunks List.map].
  rewrite cosineSimilarity_of_zero;
    [|symmetry; apply Hdim; left; reflexivity | assumption].
  rewrite IH by (intros d Hd; apply Hdim; right; assumption). reflexivity.
Qed.

Lemma sort_of_ties (l : list Scored) :
  Forall (fun x => score x = zero) l -> sort byScoreDescending l = l.
Proof.
  induction l as [|x l IH]; intros H; [reflexivity|].
  inversion H as [|? ? Hx Hl]; subst.
  change (sort byScoreDescending (x :: l))
    with (insert byScoreDescending x (sort byScoreDescending l)).
  rewrite (IH Hl). destruct l as [|y l]; [reflexivity|]. cbn [insert].
  inversion Hl as [|? ? Hy _]; subst.
  unfold after, byScoreDescending. rewrite Hx, Hy. reflexivity.
Qed.

Lemma distinct_scores_ties l s :
  distinct_scores l = true -> (List.length (tied s l) <= 1)%nat.
Proof.
  induction l as [|x t IH]; intros H; [cbn; lia|].
  cbn [distinct_scores] in H. apply andb_true_iff in H as [Hx Ht].
  specialize (IH Ht). unfold tied in *. cbn [filter].
  destruct (eqb (score x) s) eqn:Ex; [|assumption].
  assert (Hnone : filter (fun y => eqb (score y) s) t = []).
  { clear IH Ht. induction t as [|y t IHt]; [reflexivity|].
    cbn [forallb] in Hx. apply andb_true_iff in Hx as [Hy Hx]. cbn [filter].
    destruct (eqb (score y) s) eqn:Ey; [|apply IHt; assumption].
    exfalso. apply negb_true_iff in Hy.
    apply eqb_rank in Ex as (Nx & Ns & Rx). apply eqb_rank in Ey as (Ny & _ & Ry).
    assert (eqb (score x) (score y) = true) by (apply eqb_rank; repeat split; congruence).
    congruence. }
  rewrite Hnone. cbn. lia.
Qed.

(* ------------------------------------------------------------------ *)
(** ** The application *)

Module AppFacts.
Import App.

Lemma same_refl s : same s s = true.
Proof. unfold same. destruct (jsstring_eq_dec s s); congruence. Qed.

Lemma same_true s t : same s t = true -> s = t.
Proof. unfold same. destruct (jsstring_eq_dec s t); [auto | discriminate]. Qed.

Lemma same_false s t : s <> t -> same s t = false.
Proof. unfold same. destruct (jsstring_eq_dec s t); congruence. Qed.







Section Services.

Variable Remote : Type.
Variable ai : GenAI.Models Remote.
Variable API_KEY : option jsstring.

Lemma remotely_untouched (A : Type) (method : Remote -> (thrown + A) * Remote)
  (w : World Remote) :
  untouched w (snd (remotely method w)).
Proof.
  unfold remotely. destruct (method (remote w)) as [[e|a] r]; repeat split.
Qed.

(** [generateEmbedding] resolves with the first embedding of the
    response or rejects; it changes nothing but the remote side and the
    console, and without a key it does not return. *)
Lemma generateEmbedding_cases text_ (w : World Remote) :
  untouched w (snd (generateEmbedding ai API_KEY text_ w))
  /\ ((exists e, fst (generateEmbedding ai API_KEY text_ w) = Rejected e)
      \/ (exists v, fst (generateEmbedding ai API_KEY text_ w) = Resolved v
                    /\ truthy API_KEY = true)).
Proof.
  unfold generateEmbedding. destruct (truthy API_KEY); cbn [negb].
  - unfold try_catch, bind, remotely, throw, ret, console_log, change.
    destruct (GenAI.embedContent ai EMBEDDING_MODEL text_ (remote w)) as [[e|response] r].
    + cbn. split; [repeat split | left; eauto].
    + destruct (GenAI.embeddings response) as [[|first rest]|]; cbn;
        (split; [repeat split | eauto]).
  - cbn. split; [repeat split | left; eauto].
Qed.





End Services.

(** *** Steps of a program *)

Section Steps.

Variable Remote : Type.
Variable now : clock.

Lemma bind_resolved (A B : Type) (m : M Remote A) (f : A -> M Remote B) w a w1 :
  m w = (Resolved a, w1) -> bind m f w = f a w1.
Proof. unfold bind. intros ->. reflexivity. Qed.

Lemma bind_rejected (A B : Type) (m : M Remote A) (f : A -> M Remote B) w e w1 :
  m w = (Rejected e, w1) -> bind m f w = (Rejected e, w1).
Proof. unfold bind. intros ->. reflexivity. Qed.

Lemma bind_ret (A B : Type) (a : A) (f : A -> M Remote B) w :
  bind (ret a) f w = f a w.
Proof. reflexivity. Qed.

Lemma bind_throw (A B : Type) e (f : A -> M Remote B) w :
  bind (throw e) f w = (Rejected e, w).
Proof. reflexivity. Qed.

Lemma bind_change (B : Type) g (f : unit -> M Remote B) w :
  bind (change g) f w = f tt (g w).
Proof. reflexivity. Qed.

Lemma bind_Date_now (B : Type) (f : Z -> M Remote B) w :
  bind (Date_now now) f w = f (now (ticks w)) (with_ticks (S (ticks w)) w).
Proof. reflexivity. Qed.

Lemma catch_resolved (A : Type) (m : M Remote A) h w a w1 :
  m w = (Resolved a, w1) -> try_catch m h w = (Resolved a, w1).
Proof. unfold try_catch. intros ->. reflexivity. Qed.

Lemma catch_rejected (A : Type) (m : M Remote A) h w e w1 :
  m w = (Rejected e, w1) -> try_catch m h w = h e w1.
Proof. unfold try_catch. intros ->. reflexivity. Qed.

End Steps.

(** *** Messages and their identifiers *)

Lemma map_fresh (f : ChatMessage -> ChatMessage) i prev :
  (forall m, In m prev -> id m <> i) ->
  List.map (fun m => if same (id m) i then f m else m) prev = prev.
Proof.
  induction prev as [|m prev IH]; intros H; [reflexivity|]. cbn [List.map].
  rewrite same_false by (apply H; left; reflexivity).
  rewrite IH by (intros m' Hm'; apply H; right; assumption). reflexivity.
Qed.

Lemma map_last (f : ChatMessage -> ChatMessage) i prev m :
  (forall m', In m' prev -> id m' <> i) -> id m = i ->
  List.map (fun m => if same (id m) i then f m else m) (prev ++ [m]) = prev ++ [f m].
Proof.
  intros H <-. rewrite map_app, map_fresh by assumption.
  cbn [List.map]. rewrite same_refl. reflexivity.
Qed.

Lemma find_fresh i prev :
  (forall m, In m prev -> id m <> i) ->
  find (fun m => same (id m) i) prev = None.
Proof.
  induction prev as [|m prev IH]; intros H; [reflexivity|]. cbn [find].
  rewrite same_false by (apply H; left; reflexivity).
  apply IH. intros m' Hm'. apply H. right. assumption.
Qed.

Lemma find_last i prev m :
  (forall m', In m' prev -> id m' <> i) -> id m = i ->
  find (fun m => same (id m) i) (prev ++ [m]) = Some m.
Proof.
  induction prev as [|m0 prev IH]; intros H <-; cbn [app find].
  - rewrite same_refl. reflexivity.
  - rewrite same_false by (apply H; left; reflexivity).
    apply IH; [|reflexivity]. intros m' Hm'. apply H. right. assumption.
Qed.

Lemma with_text_twice t t' m : with_text t' (with_text t m) = with_text t' m.
Proof. reflexivity. Qed.

(** The loop over the stream shows, in the message of the answer, the
    texts received so far. *)
Lemma yieldTexts_showText (Remote : Type) i prev m responses :
  (forall m', In m' prev -> id m' <> i) -> id m = i ->
  forall fullText (w : World Remote),
  messages w = prev ++ [with_text fullText m] ->
  exists w',
    yieldTexts (showText (Remote:=Remote) i) responses fullText w
    = (fullText ++ allText responses, w')
    /\ messages w' = prev ++ [with_text (fullText ++ allText responses) m]
    /\ remote w' = remote w /\ ticks w' = ticks w /\ console w' = console w
    /\ isProcessingMessage w' = isProcessingMessage w
    /\ same_knowledge w w'.
Proof.
  intros Hfresh Hid.
  induction responses as [|chunk rest IH]; intros fullText w Hw.
  - exists w. cbn [yieldTexts allText List.map List.concat]. rewrite app_nil_r.
    repeat split. assumption.
  - cbn [yieldTexts]. unfold allText. cbn [List.map List.concat].
    fold (allText rest).
    destruct (GenAI.text chunk) as [[|c t]|].
    + cbn [app]. apply IH. assumption.
    + unfold showText at 1.
      match goal with |- context [yieldTexts _ rest _ ?w1] => set (w1' := w1) end.
      destruct (IH (fullText ++ c :: t) w1') as (w' & E & Hm & Hr & Ht & Hc & Hp & Hk).
      { subst w1'. cbn [messages with_messages]. rewrite Hw.
        rewrite map_last by (assumption || exact Hid). reflexivity. }
      exists w'. rewrite <- app_assoc in E, Hm.
      split; [exact E|]. split; [exact Hm|].
      subst w1'. cbn in Hr, Ht, Hc, Hp. destruct Hk as (K1 & K2 & K3 & K4). cbn in K1, K2, K3, K4.
      repeat split; assumption.
    + cbn [app]. apply IH. assumption.
Qed.

End AppFacts.

Module QueryFacts.
Import App AppFacts.

Section Handlers.

Variable Remote : Type.
Variable ai : GenAI.Models Remote.
Variable API_KEY : option jsstring.
Variable now : clock.

Lemma generateRAGResponse_spec i prev m text_ relevant (w : World Remote) :
  truthy API_KEY = true ->
  (forall m', In m' prev -> id m' <> i) -> id m = i ->
  messages w = prev ++ [with_text [] m] ->
  exists o w',
    generateRAGResponse ai API_KEY text_ relevant (showText i) [] w = (o, w')
    /\ ticks w' = ticks w
    /\ isProcessingMessage w' = isProcessingMessage w
    /\ same_knowledge w w'
    /\ match GenAI.generateContentStream ai GENERATION_MODEL
               {| GenAI.systemInstruction := systemPrompt;
                  GenAI.temperature := Some (div (of_Z 3) (of_Z 10)) |}
               (userPrompt text_ relevant) (remote w) with
       | (inl e, _) => o = Rejected e /\ messages w' = messages w
       | (inr stream, _) =>
           messages w' = prev ++ [with_text (allText (GenAI.responses stream)) m]
           /\ o = match GenAI.broken stream with
                  | Some e => Rejected e
                  | None => Resolved (allText (GenAI.responses stream))
                  end
       end.
Proof.
  intros Hkey Hfresh Hid Hw. unfold generateRAGResponse. rewrite Hkey. cbn [negb].
  unfold try_catch, bind at 1, remotely.
  destruct (GenAI.generateContentStream ai GENERATION_MODEL _ _ (remote w))
    as [[e|stream] r].
  - cbn. eexists. eexists. split; [reflexivity|]. cbn. repeat split.
  - unfold bind at 1.
    match goal with |- context [yieldTexts _ _ _ ?w0] => set (w1 := w0) end.
    destruct (@yieldTexts_showText Remote i prev m (GenAI.responses stream) Hfresh Hid [] w1)
      as (w2 & E & Hm & Hr & Ht & Hc & Hp & (K1 & K2 & K3 & K4)).
    { subst w1. cbn. assumption. }
    rewrite E. cbn [app] in *. subst w1. cbn in Ht, Hp, K1, K2, K3, K4.
    destruct (GenAI.broken stream) as [e|].
    + cbn. eexists. eexists. split; [reflexivity|]. cbn. repeat split; assumption.
    + cbn. eexists. eexists. split; [reflexivity|]. repeat split; assumption.
Qed.


(** The [try] block of [processQuery], case by case: what it resolves or
    rejects with, and the messages it leaves. *)
Lemma answerQuery_spec i chunks_ text_ (w : World Remote) :
  (forall m, In m (messages w) -> id m <> i) ->
  exists o w',
    answerQuery ai API_KEY now i chunks_ text_ w = (o, w')
    /\ same_knowledge w w'
    /\ match generateEmbedding ai API_KEY text_ w with
       | (Resolved v, w1) =>
           match findRelevantChunks v chunks_ 5 with
           | inl err =>
               o = Rejected (AnError err) /\ messages w' = messages w
               /\ ticks w' = ticks w
           | inr relevant =>
               ticks w' = S (ticks w)
               /\ isProcessingMessage w' = false
               /\ match GenAI.generateContentStream ai GENERATION_MODEL
                          {| GenAI.systemInstruction := systemPrompt;
                             GenAI.temperature := Some (div (of_Z 3) (of_Z 10)) |}
                          (userPrompt text_ relevant) (remote w1) with
                  | (inl e, _) =>
                      o = Rejected e
                      /\ messages w' = messages w ++ [botMessage i (now (ticks w)) relevant]
                  | (inr stream, _) =>
                      match GenAI.broken stream with
                      | Some e =>
                          o = Rejected e
                          /\ messages w'
                             = messages w
                               ++ [with_text (allText (GenAI.responses stream))
                                     (botMessage i (now (ticks w)) relevant)]
                      | None =>
                          o = Resolved tt
                          /\ messages w'
                             = messages w
                               ++ [not_streaming
                                     (with_text (allText (GenAI.responses stream))
                                        (botMessage i (now (ticks w)) relevant))]
                      end
                  end
           end
       | (Rejected e, w1) =>
           o = Rejected e /\ messages w' = messages w /\ ticks w' = ticks w
       | (Pending, _) => False
       end.
Proof.
  intros Hfresh.
  destruct (generateEmbedding_cases ai API_KEY text_ w) as [Hun Hcases].
  unfold answerQuery.
  destruct (generateEmbedding ai API_KEY text_ w) as [o1 w1] eqn:Eg.
  cbn [fst snd] in Hun, Hcases.
  destruct Hun as (U1 & U2 & U3 & U4 & U5 & U6 & U7).
  destruct o1 as [v|e|].
  2: { rewrite (@bind_rejected _ _ _ _ _ _ _ _ Eg). eexists. eexists. split; [reflexivity|].
       split; [repeat split; assumption | auto]. }
  2: { destruct Hcases as [(e & He)|(v & Hv & _)]; discriminate. }
  destruct Hcases as [(e & He)|(v' & _ & Hkey)]; [discriminate|].
  rewrite (@bind_resolved _ _ _ _ _ _ _ _ Eg). unfold call.
  destruct (findRelevantChunks v chunks_ 5) as [err|relevant].
  { rewrite bind_throw. eexists. eexists. split; [reflexivity|].
    split; [repeat split; assumption | auto]. }
  rewrite bind_ret, bind_Date_now. unfold setMessages, setIsProcessingMessage.
  rewrite !bind_change.
  match goal with |- context [bind (generateRAGResponse _ _ _ _ _ _) _ ?w0] =>
    set (w2 := w0) end.
  assert (Hm2 : messages w2 = messages w ++ [botMessage i (now (ticks w)) relevant])
    by (subst w2; cbn; rewrite U1, U4; reflexivity).
  destruct (@generateRAGResponse_spec i (messages w)
              (botMessage i (now (ticks w)) relevant) text_ relevant w2 Hkey Hfresh
              eq_refl Hm2)
    as (o & w3 & E & Ht & Hp & (K1 & K2 & K3 & K4) & Hcase).
  assert (Hr : remote w2 = remote w1) by reflexivity.
  rewrite Hr in Hcase.
  assert (Ht2 : ticks w2 = S (ticks w)) by (subst w2; cbn; congruence).
  assert (Hp2 : isProcessingMessage w2 = false) by reflexivity.
  assert (Hk2 : same_knowledge w w2) by (subst w2; repeat split; cbn; assumption).
  destruct Hk2 as (L1 & L2 & L3 & L4). clearbody w2.
  destruct (GenAI.generateContentStream ai GENERATION_MODEL _ _ (remote w1))
    as [[e|stream] r].
  - destruct Hcase as [-> Hm]. rewrite (@bind_rejected _ _ _ _ _ _ _ _ E).
    eexists. eexists. split; [reflexivity|].
    split; [repeat split; congruence|].
    split; [congruence|]. split; [congruence|]. split; [reflexivity|]. congruence.
  - destruct Hcase as [Hm ->]. destruct (GenAI.broken stream) as [e|].
    + rewrite (@bind_rejected _ _ _ _ _ _ _ _ E).
      eexists. eexists. split; [reflexivity|].
      split; [repeat split; congruence|].
      split; [congruence|]. split; [congruence|]. split; [reflexivity|]. exact Hm.
    + rewrite (@bind_resolved _ _ _ _ _ _ _ _ E). unfold change.
      eexists. eexists. split; [reflexivity|]. cbn.
      split; [unfold same_knowledge; cbn; repeat split; congruence|].
      split; [congruence|]. split; [congruence|]. split; [reflexivity|].
      rewrite Hm. apply map_last; [assumption | reflexivity].
Qed.



(** The [catch] block of [processQuery] when no message has the
    identifier of the answer: it adds the message of the error. *)
Lemma reportError_fresh i e (w : World Remote) :
  (forall m, In m (messages w) -> id m <> i) ->
  exists w',
    reportError now i e w = (Resolved tt, w')
    /\ messages w' = messages w ++ [errorMessage i (now (ticks w)) e]
    /\ isProcessingMessage w' = false
    /\ ticks w' = S (ticks w)
    /\ same_knowledge w w'.
Proof.
  intros Hfresh. unfold reportError, console_log, setIsProcessingMessage.
  rewrite !bind_change. unfold bind at 1. cbn [messages with_isProcessingMessage with_console].
  rewrite (@find_fresh i (messages w) Hfresh). rewrite bind_Date_now. unfold setMessages, change.
  eexists. split; [reflexivity|]. cbn. repeat split.
Qed.

(** The [catch] block of [processQuery] when the message of the answer
    is there: it marks this message. *)
Lemma reportError_existing i e prev m (w : World Remote) :
  (forall m', In m' prev -> id m' <> i) -> id m = i ->
  messages w = prev ++ [m] ->
  exists w',
    reportError now i e w = (Resolved tt, w')
    /\ messages w' = prev ++ [with_error (shownError e) m]
    /\ isProcessingMessage w' = false
    /\ ticks w' = ticks w
    /\ same_knowledge w w'.
Proof.
  intros Hfresh Hid Hw. unfold reportError, console_log, setIsProcessingMessage.
  rewrite !bind_change. unfold bind at 1. cbn [messages with_isProcessingMessage with_console].
  rewrite Hw, (@find_last i prev m Hfresh Hid). unfold setMessages, change.
  eexists. split; [reflexivity|]. cbn. rewrite Hw.
  split; [apply map_last; assumption|]. repeat split.
Qed.


(** How [generateEmbedding] ends depends on the remote side only. *)
Lemma generateEmbedding_fst text_ (w w1 : World Remote) :
  remote w1 = remote w ->
  fst (generateEmbedding ai API_KEY text_ w1) = fst (generateEmbedding ai API_KEY text_ w).
Proof.
  intros Hr. unfold generateEmbedding. destruct (truthy API_KEY); [|reflexivity].
  cbn [negb]. unfold try_catch, bind, remotely. rewrite Hr.
  destruct (GenAI.embedContent ai EMBEDDING_MODEL text_ (remote w)) as [[e|response] r];
    [reflexivity|].
  destruct (GenAI.embeddings response) as [[|first rest]|]; reflexivity.
Qed.

Lemma generateEmbedding_remote text_ (w w1 : World Remote) :
  remote w1 = remote w ->
  remote (snd (generateEmbedding ai API_KEY text_ w1))
  = remote (snd (generateEmbedding ai API_KEY text_ w)).
Proof.
  intros Hr. unfold generateEmbedding. destruct (truthy API_KEY); [|exact Hr].
  cbn [negb]. unfold try_catch, bind, remotely. rewrite Hr.
  destruct (GenAI.embedContent ai EMBEDDING_MODEL text_ (remote w)) as [[e|response] r];
    [reflexivity|].
  destruct (GenAI.embeddings response) as [[|first rest]|]; reflexivity.
Qed.

(** [processQuery], case by case. *)
Lemma processQuery_spec chunks_ text_ (w : World Remote) :
  (forall m, In m (messages w) -> id m <> decimal (now (ticks w) + 1)) ->
  exists w',
    processQuery ai API_KEY now chunks_ text_ w = (Resolved tt, w')
    /\ isProcessingMessage w' = false
    /\ same_knowledge w w'
    /\ messages w'
       = messages w
         ++ [match fst (generateEmbedding ai API_KEY text_ w) with
             | Resolved v =>
                 match findRelevantChunks v chunks_ 5 with
                 | inl err =>
                     errorMessage (decimal (now (ticks w) + 1)) (now (S (ticks w)))
                       (AnError err)
                 | inr relevant =>
                     match GenAI.generateContentStream ai GENERATION_MODEL
                             {| GenAI.systemInstruction := systemPrompt;
                                GenAI.temperature := Some (div (of_Z 3) (of_Z 10)) |}
                             (userPrompt text_ relevant)
                             (remote (snd (generateEmbedding ai API_KEY text_ w))) with
                     | (inl e, _) =>
                         with_error (shownError e)
                           (botMessage (decimal (now (ticks w) + 1)) (now (S (ticks w)))
                              relevant)
                     | (inr stream, _) =>
                         match GenAI.broken stream with
                         | Some e =>
                             with_error (shownError e)
                               (with_text (allText (GenAI.responses stream))
                                  (botMessage (decimal (now (ticks w) + 1))
                                     (now (S (ticks w))) relevant))
                         | None =>
                             not_streaming
                               (with_text (allText (GenAI.responses stream))
                                  (botMessage (decimal (now (ticks w) + 1))
                                     (now (S (ticks w))) relevant))
                         end
                     end
                 end
             | Rejected e =>
                 errorMessage (decimal (now (ticks w) + 1)) (now (S (ticks w))) e
             | Pending =>
                 errorMessage (decimal (now (ticks w) + 1)) (now (S (ticks w))) Another
             end].
Proof.
  intros Hfresh. unfold processQuery, setIsProcessingMessage.
  rewrite bind_change, bind_Date_now.
  set (i := decimal (now (ticks w) + 1)) in *.
  cbn [ticks with_isProcessingMessage].
  set (w1 := with_ticks (S (ticks w)) (with_isProcessingMessage true w)).
  assert (Hr1 : remote w1 = remote w) by reflexivity.
  assert (Hm1 : messages w1 = messages w) by reflexivity.
  assert (Ht1 : ticks w1 = S (ticks w)) by reflexivity.
  assert (Hk1 : same_knowledge w w1) by (repeat split).
  destruct Hk1 as (L1 & L2 & L3 & L4).
  destruct (@answerQuery_spec i chunks_ text_ w1) as (o & w2 & E & (K1 & K2 & K3 & K4) & Hcase).
  { rewrite Hm1. assumption. }
  rewrite <- (generateEmbedding_fst text_ w w1 Hr1).
  rewrite <- (generateEmbedding_remote text_ w w1 Hr1).
  destruct (generateEmbedding ai API_KEY text_ w1) as [o1 w1'] eqn:Eg.
  cbn [fst snd]. rewrite Hm1, Ht1 in Hcase. clearbody w1.
  destruct o1 as [v|e|]; [|destruct Hcase as (-> & Hm & Ht)|contradiction].
  - destruct (findRelevantChunks v chunks_ 5) as [err|relevant].
    + destruct Hcase as (-> & Hm & Ht).
      rewrite (@catch_rejected _ _ _ _ _ _ _ E).
      destruct (@reportError_fresh i (AnError err) w2) as (w3 & E3 & Hm3 & Hp3 & _ & (M1 & M2 & M3 & M4)).
      { rewrite Hm. assumption. }
      exists w3. split; [exact E3|]. split; [assumption|].
      split; [repeat split; congruence|]. rewrite Hm3, Hm. congruence.
    + destruct Hcase as (Ht & Hp & Hcase).
      destruct (GenAI.generateContentStream ai GENERATION_MODEL _ _ (remote w1'))
        as [[e|stream] r].
      * destruct Hcase as [-> Hm]. rewrite (@catch_rejected _ _ _ _ _ _ _ E).
        destruct (@reportError_existing i e (messages w)
                    (botMessage i (now (S (ticks w))) relevant) w2 Hfresh eq_refl Hm)
          as (w3 & E3 & Hm3 & Hp3 & _ & (M1 & M2 & M3 & M4)).
        exists w3. split; [exact E3|]. split; [assumption|].
        split; [repeat split; congruence|]. exact Hm3.
      * destruct (GenAI.broken stream) as [e|].
        -- destruct Hcase as [-> Hm]. rewrite (@catch_rejected _ _ _ _ _ _ _ E).
           destruct (@reportError_existing i e (messages w)
                       (with_text (allText (GenAI.responses stream))
                          (botMessage i (now (S (ticks w))) relevant))
                       w2 Hfresh eq_refl Hm)
             as (w3 & E3 & Hm3 & Hp3 & _ & (M1 & M2 & M3 & M4)).
           exists w3. split; [exact E3|]. split; [assumption|].
           split; [repeat split; congruence|]. exact Hm3.
        -- destruct Hcase as [-> Hm]. rewrite (@catch_resolved _ _ _ _ _ _ _ E).
           eexists. split; [reflexivity|]. split; [assumption|].
           split; [repeat split; congruence|]. exact Hm.
  - rewrite (@catch_rejected _ _ _ _ _ _ _ E).
    destruct (@reportError_fresh i e w2) as (w3 & E3 & Hm3 & Hp3 & _ & (M1 & M2 & M3 & M4)).
    { rewrite Hm. assumption. }
    exists w3. split; [exact E3|]. split; [assumption|].
    split; [repeat split; congruence|]. rewrite Hm3, Hm. congruence.
Qed.



End Handlers.
End QueryFacts.

Module FileFacts.
Import App AppFacts.


Lemma scattered_Forall (A : Type) (P : A -> Prop) (s t : list A) :
  scattered s t -> Forall P t -> Forall P s.
Proof.
  intros Hs Ht. rewrite Forall_forall in *. intros x Hx. apply Ht.
  eapply scattered_in; eassumption.
Qed.

Section Files.

Variable Remote : Type.
Variable ai : GenAI.Models Remote.
Variable API_KEY : option jsstring.
Variable now : clock.


End Files.

End FileFacts.

(* ================================================================== *)
(** * Further properties of the chunker and the retriever *)

(** A sentence longer than [chunkSize] is cut into consecutive pieces of
    exactly [chunkSize] characters, the last one of at least one and at
    most [chunkSize]; put end to end the pieces are the trimmed
    sentence. *)
Theorem long_sentence_is_cut_into_slices cs s :
  0 < cs -> cs < len (trim s) ->
  exists us,
    sentenceUnits cs s = Some us
    /\ List.concat us = trim s
    /\ Forall (fun u => len u = cs) (removelast us)
    /\ 0 < len (last us []) <= cs.
Proof.
  intros Hcs Hlong. unfold sentenceUnits.
  destruct (trim s) as [|c t] eqn:E; [cbn in Hlong; lia|].
  destruct (Z.gtb_spec (len (c :: t)) cs) as [_|Hle]; [|lia].
  destruct (@hardSplit_total cs Hcs (c :: t) (S (List.length (c :: t))) 0)
    as (us & Hus & _ & Hne); [lia | unfold len; lia |].
  exists us. split; [assumption|].
  destruct (@hardSplit_tiles cs (c :: t) Hcs _ 0 us (Z.le_refl 0) Hus) as (Hc & Hfull & Hfit).
  split; [assumption|]. split; [assumption|].
  specialize (Hne ltac:(lia)). rewrite Forall_forall in Hfit.
  apply Hfit. apply last_in. assumption.
Qed.

(** Witness: " abcdefgh " at [chunkSize = 3] gives "abc", "def", "gh". *)
Lemma long_sentence_is_cut_into_slices_witness :
  exists us,
    sentenceUnits 3 (js " abcdefgh ") = Some us
    /\ List.concat us = trim (js " abcdefgh ")
    /\ Forall (fun u => len u = 3) (removelast us)
    /\ 0 < len (last us []) <= 3.
Proof.
  apply long_sentence_is_cut_into_slices; [lia | vm_compute; reflexivity].
Defined.

(** No unit is lost between [splitIntoUnits] and the chunks: the chunks
    are the units cut into consecutive runs, none of them empty, each
    run preceded by the units kept from the chunk before it.  There are
    at most as many chunks as units. *)
Theorem every_unit_goes_into_a_chunk now sf cs ov text units chunks :
  splitIntoUnits cs text = Some units ->
  chunkText now sf cs ov text = Some chunks ->
  exists fs,
    Forall (fun f => f <> []) fs
    /\ List.concat fs = units
    /\ chunks = chunksOf now sf 0 (regroup ov [] fs)
    /\ List.map content chunks = List.map (join (js " ")) (regroup ov [] fs)
    /\ (List.length chunks <= List.length units)%nat.
Proof.
  intros Hu Hc. rewrite chunkText_unfold, Hu in Hc. cbn [option_map] in Hc.
  injection Hc as <-.
  destruct (buildChunks_covers now sf cs ov units) as (fs & -> & <- & Hne).
  exists fs. split; [assumption|]. split; [reflexivity|]. split; [reflexivity|].
  split; [apply chunksOf_content|].
  rewrite chunksOf_length, regroup_length. apply length_concat_nonempty. assumption.
Qed.

(** Witness: the paragraphs "abcd" and "abcdefghi." at [chunkSize = 10]
    and [overlap = 5]. *)
Lemma every_unit_goes_into_a_chunk_witness :
  exists fs,
    Forall (fun f => f <> []) fs
    /\ List.concat fs = [js "abcd"; js "abcdefghi."]
    /\ [chunk_a; chunk_b] = chunksOf clock0 (js "doc.txt") 0 (regroup 5 [] fs)
    /\ List.map content [chunk_a; chunk_b] = List.map (join (js " ")) (regroup 5 [] fs)
    /\ (List.length [chunk_a; chunk_b] <= List.length [js "abcd"; js "abcdefghi."])%nat.
Proof.
  apply (@every_unit_goes_into_a_chunk clock0 (js "doc.txt") 10 5 text_two_paragraphs);
    vm_compute; reflexivity.
Defined.

(** With [overlap = 0] the chunks repeat nothing: their contents joined
    by single spaces are the units joined by single spaces. *)
Theorem chunks_without_overlap_join_to_the_units now sf cs text units chunks :
  0 < cs ->
  splitIntoUnits cs text = Some units ->
  chunkText now sf cs 0 text = Some chunks ->
  join (js " ") (List.map content chunks) = join (js " ") units.
Proof.
  intros Hcs Hu Hc. rewrite chunkText_unfold, Hu in Hc. cbn [option_map] in Hc.
  injection Hc as <-.
  destruct (splitIntoUnits_total Hcs text) as (units' & Hu' & Hne & _).
  rewrite Hu in Hu'. injection Hu' as <-.
  destruct (buildChunks_covers now sf cs 0 units) as (fs & -> & <- & Hfs).
  rewrite chunksOf_content, regroup_zero;
    [apply join_join; assumption | constructor | apply Forall_concat; assumption].
Qed.

(** Witness: the paragraphs "aaaa." and "bbbbbbbb." at [chunkSize = 10]. *)
Lemma chunks_without_overlap_join_to_the_units_witness :
  join (js " ") (List.map content
                   [chunkOf clock0 (js "doc.txt") 0 [js "aaaa."];
                    chunkOf clock0 (js "doc.txt") 1 [js "bbbbbbbb."]])
  = join (js " ") [js "aaaa."; js "bbbbbbbb."].
Proof.
  apply (@chunks_without_overlap_join_to_the_units clock0 (js "doc.txt") 10 text_long_units);
    [lia | vm_compute; reflexivity | vm_compute; reflexivity].
Defined.

(** A text whose paragraphs are each shorter than half of [chunkSize] or
    free of [. ! ?] keeps every visible character: the units put end to
    end have the visible characters of the text, and these are found in
    their order in the contents of the chunks. *)
Theorem short_or_plain_paragraphs_lose_nothing now sf cs ov text :
  0 < cs ->
  (forall p, In p (paragraphs_of text) ->
     2 * len (trimmedP_of p) < cs \/ forallb not_punct (trimmedP_of p) = true) ->
  exists units chunks,
    splitIntoUnits cs text = Some units
    /\ visible (List.concat units) = visible text
    /\ chunkText now sf cs ov text = Some chunks
    /\ subsequence (visible text) (List.concat (List.map content chunks)) = true.
Proof.
  intros Hcs Hp.
  destruct (splitIntoUnits_total Hcs text) as (units & Hu & _).
  assert (Hv : visible (List.concat units) = visible text).
  { unfold splitIntoUnits in Hu.
    rewrite (paragraphsUnits_lossless Hcs _ Hp Hu). apply visible_paragraphs. }
  exists units, (buildChunks now sf cs ov units).
  split; [assumption|]. split; [assumption|].
  split; [rewrite chunkText_unfold, Hu; reflexivity|].
  apply subsequence_complete.
  destruct (buildChunks_covers now sf cs ov units) as (fs & -> & <- & _).
  rewrite chunksOf_content, <- Hv.
  eapply scattered_trans; [apply filter_scattered | apply regroup_fresh].
Qed.

(** Witness: the two short paragraphs of the spec's scenario, at the
    default sizes. *)
Lemma short_or_plain_paragraphs_lose_nothing_witness :
  exists units chunks,
    splitIntoUnits defaultChunkSize text_short_paragraphs = Some units
    /\ visible (List.concat units) = visible text_short_paragraphs
    /\ chunkText clock0 (js "doc.txt") defaultChunkSize defaultOverlap
         text_short_paragraphs = Some chunks
    /\ subsequence (visible text_short_paragraphs)
         (List.concat (List.map content chunks)) = true.
Proof.
  apply short_or_plain_paragraphs_lose_nothing; [reflexivity|].
  intros p Hp. vm_compute in Hp.
  destruct Hp as [<-|[<-|[]]]; left; vm_compute; reflexivity.
Defined.

(** The chunker adds nothing and moves nothing: the visible characters
    of the units put end to end, and those of each chunk, are visible
    characters of the text in the order they have there. *)
Theorem chunks_hold_only_text_of_the_input now sf cs ov text chunks :
  0 < cs ->
  chunkText now sf cs ov text = Some chunks ->
  exists units,
    splitIntoUnits cs text = Some units
    /\ subsequence (visible (List.concat units)) (visible text) = true
    /\ Forall (fun c => subsequence (visible (content c)) (visible text) = true) chunks.
Proof.
  intros Hcs Hc. rewrite chunkText_unfold in Hc.
  destruct (splitIntoUnits cs text) as [units|] eqn:Hu; [|discriminate].
  cbn [option_map] in Hc. injection Hc as <-. exists units.
  pose proof (splitIntoUnits_scattered Hcs _ Hu) as Hs.
  split; [reflexivity|]. split; [apply subsequence_complete; assumption|].
  destruct (buildChunks_covers now sf cs ov units) as (fs & -> & <- & _).
  apply Forall_forall. intros c Hin.
  apply In_nth_error in Hin as (n & Hn).
  apply chunksOf_nth in Hn as (g & Hg & ->). cbn [content chunkOf].
  apply nth_error_In in Hg.
  pose proof (regroup_scattered ov fs []) as Hall. rewrite Forall_forall in Hall.
  specialize (Hall g Hg). cbn [app] in Hall.
  apply subsequence_complete. rewrite visible_join.
  eapply scattered_trans; [|exact Hs].
  apply (scattered_filter (fun c => negb (is_space c))).
  apply scattered_concat. assumption.
Qed.

(** Witness: the text "3.14 is pi.", of which the chunker keeps
    "14 is pi.". *)
Lemma chunks_hold_only_text_of_the_input_witness :
  exists units,
    splitIntoUnits 10 (js "3.14 is pi.") = Some units
    /\ subsequence (visible (List.concat units)) (visible (js "3.14 is pi.")) = true
    /\ Forall (fun c => subsequence (visible (content c)) (visible (js "3.14 is pi.")) = true)
         [chunkOf clock0 (js "doc.txt") 0 [js "14 is pi."]].
Proof.
  apply (@chunks_hold_only_text_of_the_input clock0 (js "doc.txt") 10 2);
    [lia | vm_compute; reflexivity].
Defined.

(** The identifiers of the chunks that one call returns are pairwise
    distinct, whatever the clock reads. *)
Theorem chunk_ids_are_distinct now sf cs ov text chunks :
  chunkText now sf cs ov text = Some chunks -> NoDup (List.map id chunks).
Proof.
  intros Hc. rewrite chunkText_unfold in Hc.
  destruct (splitIntoUnits cs text) as [units|]; [|discriminate].
  cbn [option_map] in Hc. injection Hc as <-.
  destruct (buildChunks_covers now sf cs ov units) as (fs & -> & _).
  apply chunksOf_NoDup.
Qed.

(** Witness: the two chunks of "abcd" and "abcdefghi.", emitted in the
    same millisecond. *)
Lemma chunk_ids_are_distinct_witness : NoDup (List.map id [chunk_a; chunk_b]).
Proof.
  apply (@chunk_ids_are_distinct clock0 (js "doc.txt") 10 5 text_two_paragraphs).
  vm_compute. reflexivity.
Defined.

(** The content of a chunk is never empty, and its only white space is
    the space character: line breaks, tabs and the other white space of
    the text do not reach the chunks. *)
Theorem chunk_content_is_normalised now sf cs ov text chunks :
  0 < cs ->
  chunkText now sf cs ov text = Some chunks ->
  Forall (fun c => content c <> [] /\ plain_spaces (content c)) chunks.
Proof.
  intros Hcs Hc. rewrite chunkText_unfold in Hc.
  destruct (splitIntoUnits_total Hcs text) as (units & Hu & Hne & _).
  rewrite Hu in Hc. cbn [option_map] in Hc. injection Hc as <-.
  pose proof (paragraphsUnits_plain Hcs _ Hu) as Hplain.
  destruct (buildChunks_spec now sf cs ov units) as (gs & -> & _ & Hgs & _).
  apply Forall_forall. intros c Hin.
  apply In_nth_error in Hin as (n & Hn).
  apply chunksOf_nth in Hn as (g & Hg & ->). cbn [content chunkOf].
  apply nth_error_In in Hg. rewrite Forall_forall in Hgs, Hne, Hplain.
  destruct (Hgs g Hg) as [Hgne Hincl]. split.
  - apply join_nonempty; [assumption|]. apply Forall_forall. auto.
  - apply plain_spaces_join. apply Forall_forall. auto.
Qed.

(** Witness: a text with a tab and line breaks. *)
Lemma chunk_content_is_normalised_witness :
  Forall (fun c => content c <> [] /\ plain_spaces (content c))
    [chunkOf clock0 (js "doc.txt") 0 [js "a b"; js "c"]].
Proof.
  apply (@chunk_content_is_normalised clock0 (js "doc.txt") 10 2 text_with_tab);
    [lia | vm_compute; reflexivity].
Defined.

(** A text with visible characters makes exactly one chunk when its
    units, with one separator each, fit into [chunkSize], or when it is
    a single unit; in both cases the chunk is the units joined by single
    spaces.  Two or more units that do not fit make at least two
    chunks. *)
Theorem one_chunk_iff_units_fit now sf cs ov text :
  0 < cs -> visible text <> [] ->
  exists units chunks,
    splitIntoUnits cs text = Some units
    /\ chunkText now sf cs ov text = Some chunks
    /\ (List.length chunks = 1%nat
        <-> total_len units <= cs \/ List.length units = 1%nat)
    /\ (List.length chunks = 1%nat ->
        List.map content chunks = [join (js " ") units]).
Proof.
  intros Hcs Hv.
  destruct (splitIntoUnits_total Hcs text) as (units & Hu & _ & Hne & _).
  specialize (Hne Hv).
  exists units, (buildChunks now sf cs ov units).
  split; [assumption|]. split; [rewrite chunkText_unfold, Hu; reflexivity|].
  assert (Hone : total_len units <= cs \/ List.length units = 1%nat ->
                 buildChunks now sf cs ov units = [chunkOf now sf 0 units]).
  { intros [Hfit|Hlen]; [apply buildChunks_fits; assumption|].
    destruct units as [|u [|v units]]; try discriminate. apply buildChunks_single. }
  assert (Hiff : List.length (buildChunks now sf cs ov units) = 1%nat
                 <-> total_len units <= cs \/ List.length units = 1%nat).
  { split; [|intros H; rewrite (Hone H); reflexivity].
    intros Hlen. destruct (Z_le_gt_dec (total_len units) cs) as [Hle|Hgt]; [left; assumption|].
    right. destruct units as [|u [|v units]]; [congruence | reflexivity |].
    pose proof (@buildChunks_overflows now sf cs ov u v units ltac:(lia)). lia. }
  split; [assumption|].
  intros Hlen. apply Hiff in Hlen. rewrite (Hone Hlen). reflexivity.
Qed.

(** Witness: the two short paragraphs of the spec's scenario, at the
    default sizes. *)
Lemma one_chunk_iff_units_fit_witness :
  exists units chunks,
    splitIntoUnits defaultChunkSize text_short_paragraphs = Some units
    /\ chunkText clock0 (js "doc.txt") defaultChunkSize defaultOverlap
         text_short_paragraphs = Some chunks
    /\ (List.length chunks = 1%nat
        <-> total_len units <= defaultChunkSize \/ List.length units = 1%nat)
    /\ (List.length chunks = 1%nat ->
        List.map content chunks = [join (js " ") units]).
Proof.
  apply one_chunk_iff_units_fit; [reflexivity | vm_compute; discriminate].
Defined.



(** The similarity of two vectors does not depend on their order: the
    same number, or the same error, comes out either way round. *)
Theorem cosineSimilarity_symmetric vecA vecB :
  cosineSimilarity vecA vecB = cosineSimilarity vecB vecA.
Proof.
  unfold cosineSimilarity. rewrite (Nat.eqb_sym (List.length vecB)).
  destruct (List.length vecA =? List.length vecB)%nat; [|reflexivity]. cbn [negb].
  rewrite (fold_accumulate_swap vecA vecB zero zero zero).
  destruct (fold_left accumulate (combine vecA vecB) (zero, zero, zero)) as [[d na] nb].
  rewrite (orb_comm (eqb nb zero)), (mul_comm (sqrt nb)). reflexivity.
Qed.

(** For every [topK], a negative one too, the result is the full
    ranking (the result for [topK = chunks.length], a permutation of the
    base) cut by [slice(0, topK)]: its first [topK] chunks when
    [topK >= 0], and all but its last [-topK] chunks when [topK < 0]. *)
Theorem topK_cuts_the_full_ranking q base k full :
  findRelevantChunks q base (len base) = inr full ->
  Permutation full base
  /\ findRelevantChunks q base k = inr (slice full 0 k)
  /\ len (slice full 0 k)
     = (if k <? 0 then Z.max (len base + k) 0 else Z.min k (len base)).
Proof.
  unfold findRelevantChunks.
  destruct (scoreChunks q base) as [e|scored] eqn:Es; [discriminate|].
  intros H. injection H as <-.
  pose proof (scoreChunks_spec _ _ Es) as [Hmap _].
  assert (Hlen : len base = len (sort byScoreDescending scored)).
  { unfold len. rewrite sort_length, <- Hmap, length_map. reflexivity. }
  rewrite Hlen, slice_0_all. split; [|split].
  - rewrite <- Hmap. apply Permutation_map, sort_perm.
  - rewrite slice_0_map. reflexivity.
  - rewrite slice_0_len. unfold len. rewrite length_map. reflexivity.
Qed.

(** Witness: [topK = -1] leaves out the last of the three chunks of the
    spec's scenario. *)
Lemma topK_cuts_the_full_ranking_witness :
  Permutation [chunk_x; chunk_xy; chunk_y] [chunk_x; chunk_y; chunk_xy]
  /\ findRelevantChunks (vec [1; 0]) [chunk_x; chunk_y; chunk_xy] (-1)
     = inr (slice [chunk_x; chunk_xy; chunk_y] 0 (-1))
  /\ len (slice [chunk_x; chunk_xy; chunk_y] 0 (-1))
     = (if -1 <? 0 then Z.max (len [chunk_x; chunk_y; chunk_xy] + -1) 0
        else Z.min (-1) (len [chunk_x; chunk_y; chunk_xy])).
Proof.
  apply topK_cuts_the_full_ranking. vm_compute. reflexivity.
Defined.

(** When the scores against the query are numbers no two of which are
    equal, the result does not depend on the order of the knowledge
    base: only chunks with equal scores can change places. *)
Theorem base_order_matters_only_for_ties q base base' k scored :
  scoreChunks q base = inr scored ->
  Forall (fun x => is_nan (score x) = false) scored ->
  distinct_scores scored = true ->
  Permutation base base' ->
  findRelevantChunks q base' k = findRelevantChunks q base k.
Proof.
  intros Hs Hnan Hd Hp. unfold findRelevantChunks.
  destruct (@scoreChunks_perm q base base' scored Hp Hs) as (scored' & Hs' & Hps). rewrite Hs, Hs'.
  assert (Hgood : Forall well_scored scored).
  { pose proof (scoreChunks_spec _ _ Hs) as [_ Hsc].
    rewrite Forall_forall in *. intros x Hx. split; [|apply Hnan; assumption].
    eapply cosineSimilarity_valid. apply Hsc. assumption. }
  assert (Hgood' : Forall well_scored scored').
  { rewrite Forall_forall in *. intros x Hx. apply Hgood.
    apply (Permutation_in _ (Permutation_sym Hps)). assumption. }
  replace (sort byScoreDescending scored') with (sort byScoreDescending scored);
    [reflexivity|].
  apply ranking_unique.
  - eapply Permutation_trans; [apply sort_perm|].
    eapply Permutation_trans; [exact Hps|]. apply Permutation_sym, sort_perm.
  - apply sort_sorted. assumption.
  - apply sort_sorted. assumption.
  - rewrite Forall_forall in *. intros x Hx. apply Hgood.
    apply (Permutation_in _ (sort_perm byScoreDescending scored)). assumption.
  - intros s.
    rewrite (Permutation_length (tied_perm s (sort_perm byScoreDescending scored))).
    apply distinct_scores_ties. assumption.
Qed.

(** Witness: the three chunks of the spec's scenario score 1, 0 and
    0.707... against the query [1, 0]; listed in another order they give
    the same two best chunks. *)
Lemma base_order_matters_only_for_ties_witness :
  findRelevantChunks (vec [1; 0]) [chunk_xy; chunk_x; chunk_y] 2
  = findRelevantChunks (vec [1; 0]) [chunk_x; chunk_y; chunk_xy] 2.
Proof.
  eapply (@base_order_matters_only_for_ties (vec [1; 0])
            [chunk_x; chunk_y; chunk_xy] [chunk_xy; chunk_x; chunk_y] 2).
  - vm_compute. reflexivity.
  - repeat constructor.
  - vm_compute. reflexivity.
  - apply Permutation_sym. apply (Permutation_cons_append [chunk_x; chunk_y] chunk_xy).
Defined.

(** A query whose components are all zero ranks nothing: every score is
    0, and the result is the start of the knowledge base, in its order,
    cut by [slice(0, topK)]. *)
Theorem zero_query_returns_the_base_in_order q base k :
  zero_vector q = true ->
  (forall c, In c base -> List.length (embedding c) = List.length q) ->
  findRelevantChunks q base k = inr (slice base 0 k).
Proof.
  intros Hz Hdim. unfold findRelevantChunks.
  rewrite (@scoreChunks_of_zero q base Hz Hdim).
  rewrite sort_of_ties by (apply Forall_forall; intros x Hx;
    apply in_map_iff in Hx as (c & <- & _); reflexivity).
  rewrite <- slice_0_map, map_map. cbn [chunk]. rewrite map_id. reflexivity.
Qed.

(** Witness: the query [0, 0] against the three chunks of the spec's
    scenario. *)
Lemma zero_query_returns_the_base_in_order_witness :
  findRelevantChunks (vec [0; 0]) [chunk_x; chunk_y; chunk_xy] 2
  = inr [chunk_x; chunk_y].
Proof.
  apply (@zero_query_returns_the_base_in_order (vec [0; 0])
           [chunk_x; chunk_y; chunk_xy] 2).
  - vm_compute. reflexivity.
  - intros c [<-|[<-|[<-|[]]]]; reflexivity.
Defined.

(* ================================================================== *)
(** * Properties of the application *)

Module AppProperties.
Import App AppFacts QueryFacts FileFacts.

Section Application.

Variable Remote : Type.
Variable ai : GenAI.Models Remote.
Variable API_KEY : option jsstring.
Variable now : clock.





(** The reply is the text of the stream.  When the key is in place, the
    question is embedded and the retrieval returns, the message added
    names the chunks retrieved and its text is the texts of the stream put
    end to end, responses without text counting for nothing; when the
    stream breaks off, what was received stays, followed by a blank line
    and the error in brackets, and the message is marked as an error.  In
    both cases it is no longer streaming. *)
Theorem the_reply_is_the_text_of_the_stream chunks_ text_ (w : World Remote)
  v rest relevant stream r1 r2 :
  (forall m, In m (messages w) -> id m <> decimal (now (ticks w) + 1)) ->
  truthy API_KEY = true ->
  GenAI.embedContent ai EMBEDDING_MODEL text_ (remote w)
  = (inr {| GenAI.embeddings := Some ({| GenAI.values := v |} :: rest) |}, r1) ->
  findRelevantChunks v chunks_ 5 = inr relevant ->
  GenAI.generateContentStream ai GENERATION_MODEL
    {| GenAI.systemInstruction := systemPrompt;
       GenAI.temperature := Some (div (of_Z 3) (of_Z 10)) |}
    (userPrompt text_ relevant) r1
  = (inr stream, r2) ->
  exists w',
    processQuery ai API_KEY now chunks_ text_ w = (Resolved tt, w')
    /\ messages w'
       = messages w
         ++ [{| id := decimal (now (ticks w) + 1);
                role := model;
                text := allText (GenAI.responses stream)
                        ++ match GenAI.broken stream with
                           | Some e =>
                               LF ++ LF ++ js "[Error: " ++ shownError e ++ js "]"
                           | None => []
                           end;
                timestamp := now (S (ticks w));
                relatedChunks := Some relevant;
                isError := match GenAI.broken stream with
                           | Some _ => Some true
                           | None => None
                           end;
                isStreaming := Some false |}].
Proof.
  intros Hfresh Hkey Hembed Hrel Hstream.
  destruct (processQuery_spec ai API_KEY now chunks_ text_ w Hfresh)
    as (w' & E & _ & _ & Hm).
  exists w'. split; [exact E|]. rewrite Hm. clear E Hm.
  assert (Hg : generateEmbedding ai API_KEY text_ w = (Resolved v, with_remote r1 w)).
  { unfold generateEmbedding. rewrite Hkey. cbn [negb].
    unfold try_catch, bind, remotely. rewrite Hembed. reflexivity. }
  rewrite Hg. cbn [fst snd remote with_remote]. rewrite Hrel, Hstream.
  destruct (GenAI.broken stream) as [e|]; [reflexivity|].
  unfold not_streaming, with_text, botMessage. cbn [id role text timestamp relatedChunks isError].
  rewrite app_nil_r. reflexivity.
Qed.

(** A question that fails before its answer begins gets the error as its
    reply: when the embedding of the question is rejected, or when a
    chunk of the knowledge base has an embedding of another length than
    the question's (then the retriever throws "Vectors must have the same
    length"), the message added reads "Error: " and what [shownError]
    makes of the error. *)
Theorem a_failed_question_shows_the_error chunks_ text_ (w : World Remote) e :
  (forall m, In m (messages w) -> id m <> decimal (now (ticks w) + 1)) ->
  fst (generateEmbedding ai API_KEY text_ w) = Rejected e
  \/ (exists v c,
        fst (generateEmbedding ai API_KEY text_ w) = Resolved v
        /\ In c chunks_
        /\ List.length (embedding c) <> List.length v
        /\ e = AnError DimensionMismatch) ->
  exists w',
    processQuery ai API_KEY now chunks_ text_ w = (Resolved tt, w')
    /\ messages w'
       = messages w
         ++ [{| id := decimal (now (ticks w) + 1); role := model;
                text := js "Error: " ++ shownError e;
                timestamp := now (S (ticks w)); relatedChunks := None;
                isError := Some true; isStreaming := None |}]
    /\ (e = AnError DimensionMismatch ->
        shownError e = js "Vectors must have the same length").
Proof.
  intros Hfresh Hfail.
  destruct (processQuery_spec ai API_KEY now chunks_ text_ w Hfresh)
    as (w' & E & _ & _ & Hm).
  exists w'. split; [exact E|]. split; [|intros ->; reflexivity].
  rewrite Hm. destruct Hfail as [->|(v & c & -> & Hin & Hlen & ->)]; [reflexivity|].
  unfold findRelevantChunks. rewrite (scoreChunks_mismatch v chunks_ c Hin Hlen).
  reflexivity.
Qed.

(** Retry asks the last question again.  When the last message is the
    error of a reply and the one before it a question of the user,
    [handleRetry] takes the error out of the conversation and runs
    [processQuery] on the text of that question; while a question is being
    processed it does nothing. *)
Theorem retry_asks_the_last_question_again prev q e chunks_ (w : World Remote) :
  role q = user -> role e = model -> isError e = Some true ->
  messages w = prev ++ [q; e] ->
  handleRetry ai API_KEY now false (messages w) chunks_ w
  = processQuery ai API_KEY now chunks_ (text q) (with_messages (prev ++ [q]) w)
  /\ handleRetry ai API_KEY now true (messages w) chunks_ w = (Resolved tt, w).
Proof.
  intros Hq He Herr Hw. split; [|reflexivity].
  unfold handleRetry, setMessages. rewrite bind_change. rewrite Hw.
  assert (Hrev : rev (prev ++ [q; e]) = e :: q :: rev prev).
  { rewrite rev_app_distr. reflexivity. }
  rewrite Hrev. cbn [find]. rewrite He, Hq.
  f_equal. f_equal. unfold dropLastError. rewrite Hrev, Herr.
  rewrite slice_0_firstn. unfold clamp_index, len. rewrite length_app.
  cbn [List.length]. destruct (Z.ltb_spec (-1) 0) as [_|]; [|lia].
  replace (Z.to_nat (Z.max (Z.of_nat (List.length prev + 2) + -1) 0))
    with (List.length (prev ++ [q]) + 0)%nat by (rewrite length_app; cbn; lia).
  change (prev ++ [q; e]) with (prev ++ [q] ++ [e]). rewrite app_assoc.
  rewrite firstn_app_2. cbn [firstn]. apply app_nil_r.
Qed.

End Application.



(** Witness: the answer "Both are short." comes in three responses, the
    second one without text. *)
Lemma the_reply_is_the_text_of_the_stream_witness :
  exists w',
    processQuery example_models example_key clock0 [] (js "What is short?") empty_world
    = (Resolved tt, w')
    /\ messages w'
       = messages empty_world
         ++ [{| id := decimal (clock0 (ticks empty_world) + 1);
                role := model;
                text := allText [{| GenAI.text := Some (js "Both are") |};
                                 {| GenAI.text := None |};
                                 {| GenAI.text := Some (js " short.") |}]
                        ++ [];
                timestamp := clock0 (S (ticks empty_world));
                relatedChunks := Some [];
                isError := None;
                isStreaming := Some false |}].
Proof.
  apply (@the_reply_is_the_text_of_the_stream nat example_models example_key clock0
           [] (js "What is short?") empty_world (vec [1; 0]) [] []
           {| GenAI.responses := [{| GenAI.text := Some (js "Both are") |};
                                  {| GenAI.text := None |};
                                  {| GenAI.text := Some (js " short.") |}];
              GenAI.broken := None |} 1%nat 2%nat);
    [intros m [] | reflexivity | reflexivity | reflexivity | reflexivity].
Defined.

(** Witness: a knowledge base with an embedding of one number, and a
    question embedded in two. *)
Lemma a_failed_question_shows_the_error_witness :
  exists w',
    processQuery example_models example_key clock0 [chunk_one] (js "What is short?")
      empty_world
    = (Resolved tt, w')
    /\ messages w'
       = messages empty_world
         ++ [{| id := decimal (clock0 (ticks empty_world) + 1); role := model;
                text := js "Error: " ++ shownError (AnError DimensionMismatch);
                timestamp := clock0 (S (ticks empty_world)); relatedChunks := None;
                isError := Some true; isStreaming := None |}]
    /\ (AnError DimensionMismatch = AnError DimensionMismatch ->
        shownError (AnError DimensionMismatch) = js "Vectors must have the same length").
Proof.
  apply a_failed_question_shows_the_error; [intros m []|].
  right. exists (vec [1; 0]), chunk_one.
  split; [reflexivity|]. split; [left; reflexivity|]. split; [discriminate | reflexivity].
Defined.

(** Witness: a question and the error that followed it. *)
Lemma retry_asks_the_last_question_again_witness :
  handleRetry example_models example_key clock0 false
    (messages (with_messages [example_question; example_error] empty_world)) []
    (with_messages [example_question; example_error] empty_world)
  = processQuery example_models example_key clock0 [] (text example_question)
      (with_messages ([] ++ [example_question])
         (with_messages [example_question; example_error] empty_world))
  /\ handleRetry example_models example_key clock0 true
       (messages (with_messages [example_question; example_error] empty_world)) []
       (with_messages [example_question; example_error] empty_world)
     = (Resolved tt, with_messages [example_question; example_error] empty_world).
Proof.
  apply (@retry_asks_the_last_question_again nat example_models example_key clock0
           [] example_question example_error); reflexivity.
Defined.

End AppProperties.
